(** * A verification development for the [repos] build orchestrator

    The Go packages [repos/pkg/repos] and [repos/pkg/repos/meta] are embedded
    shallowly: Go structs become records, maps keyed by strings become
    [gmap string _], sets of task pointers become [gset string] (a task is
    identified by its global name, the key of [TaskGraph.Tasks]), 64-bit
    time stamps become [Z], and every effect on the file system, on the
    logger or on a pipe is made explicit as a value that is passed in and
    returned.

    Go leaves the iteration order of [range] over a map unspecified.  The
    loops below iterate in the order of [map_to_list] and [elements]; the
    properties established about their results are stated on sets and maps
    and do not depend on that order. *)

From Stdlib Require Import ZArith Lia Ascii String.
From stdpp Require Import base option list strings gmap fin_maps fin_sets.

Local Open Scope string_scope.
Local Open Scope Z_scope.

(** Strings are appended with [+:+]; [++] is kept for lists. *)
Disable Notation "_ ++ _" : string_scope.

(** ** Errors (errors.go)

    Modelled from the spec: [ErrSomeTaskFailed], the sentinel "when any
    task failed" that [BuildCmd.Build] compares the error of
    [Dispatcher.Run] with; the variable block of errors.go in this tree
    does not declare it.  The other sentinels are those of the source.
    [ErrBadPattern] and [ErrNotExist] stand for errors that wrap
    [filepath.ErrBadPattern] and [os.ErrNotExist], [ErrContext] for the
    error of a cancelled or expired context, and [ErrOther] for any other
    error, by its message. *)

Inductive error : Type :=
| ErrSkipped
| ErrIncomplete
| ErrSomeTaskFailed
| ErrTooManyTools
| ErrNoCurrentProject
| ErrAmbiguousMatch (pattern : string)
| ErrBadPattern (msg : string)
| ErrNotExist (msg : string)
| ErrContext (msg : string)
| ErrOther (msg : string).

#[global] Instance error_eq_dec : EqDecision error.
Proof. solve_decision. Defined.

(** The double-quote character, as a string. *)
Definition dquote : string := String (ascii_of_nat 34) EmptyString.

(** [error.Error()]: the message a failed task leaves in its result. *)
Definition error_message (e : error) : string :=
  match e with
  | ErrSkipped => "skipped"
  | ErrIncomplete => "incomplete"
  | ErrSomeTaskFailed => "some task failed"
  | ErrTooManyTools => "only one tool can be specified in rule"
  | ErrNoCurrentProject =>
      "no current project, please start from inside (or a subdirectory) a project folder"
  | ErrAmbiguousMatch p =>
      "ambiguous match: use " +:+ dquote +:+ "*:" +:+ p +:+ dquote
        +:+ " for matching multiple targets"
  | ErrBadPattern m => "syntax error in pattern: " +:+ m
  | ErrNotExist m => m
  | ErrContext m => m
  | ErrOther m => m
  end.

(** ** Task results (dispatcher.go) *)

Record TaskResult : Type := mkTaskResult {
  SuccessBuildStartTime : Z;
  SuccessBuildEndTime : Z;
  StartTime : Z;
  EndTime : Z;
  Skipped : bool;
  Err : option string
}.

(** The zero value [&TaskResult{}]. *)
Definition zeroTaskResult : TaskResult :=
  mkTaskResult 0 0 0 0 false None.

(** Content of a [<task>.result] file: either it decodes to a [TaskResult]
    or [json.Unmarshal] rejects it. *)
Inductive resultFile : Type :=
| ResultCorrupt
| ResultJSON (r : TaskResult).

(** The cache directory, as far as results are concerned: task name to the
    content of [CacheDir/<name>.result]. *)
Notation ResultStore := (gmap string resultFile).

(** [loadTaskResultFrom]. *)
Definition loadTaskResultFrom (store : ResultStore) (name : string)
  : error + TaskResult :=
  match store !! name with
  | None => inl (ErrNotExist "load error")
  | Some ResultCorrupt => inl (ErrOther "parse error")
  | Some (ResultJSON r) => inr r
  end.

(** [execution.loadTaskResult]: any error yields the zero result. *)
Definition loadTaskResult (store : ResultStore) (name : string) : TaskResult :=
  match loadTaskResultFrom store name with
  | inl _ => zeroTaskResult
  | inr r => r
  end.

(** ** Tasks (graph.go)

    A task is known by its global name, the key under which
    [TaskGraph.Tasks] holds it; the sets [DepOn], [DepBy] and [DepDone] of
    task pointers are sets of such names.  [Always] is
    [task.Target.Meta().Always] and [TaskErr] is [task.Err]. *)

Inductive TaskState : Type :=
| TaskNotReady
| TaskReady
| TaskQueued
| TaskRunning
| TaskCompleted.

#[global] Instance TaskState_eq_dec : EqDecision TaskState.
Proof. solve_decision. Defined.

Record Task : Type := mkTask {
  TaskName : string;
  Always : bool;
  NoSkip : bool;
  DepOn : gset string;
  DepBy : gset string;
  DepDone : gset string;
  State : TaskState;
  TaskErr : option error
}.

(** [Task.Failed] and [Task.Skipped]. *)
Definition err_failed (e : option error) : bool :=
  match e with
  | Some ErrSkipped => false
  | Some _ => true
  | None => false
  end.

Definition err_skipped (e : option error) : bool :=
  match e with
  | Some ErrSkipped => true
  | _ => false
  end.

Definition hasSuccess (r : TaskResult) : bool :=
  negb (SuccessBuildStartTime r =? 0) && negb (SuccessBuildEndTime r =? 0).

(** One iteration of the loop over [task.DepOn] in [executeTask]: [true]
    when the dependency leaves the task skippable, [false] when one of the
    three [break]s is taken. *)
Definition depKeepsSkippable (store : ResultStore) (result : TaskResult)
    (dep : Task) : bool :=
  if negb (err_skipped (TaskErr dep)) then false
  else
    let depResult := loadTaskResult store (TaskName dep) in
    if (SuccessBuildStartTime depResult =? 0) || (SuccessBuildEndTime depResult =? 0)
    then false
    else if (SuccessBuildStartTime depResult >? SuccessBuildStartTime result)
            || (SuccessBuildEndTime depResult >? SuccessBuildStartTime result)
    then false
    else true.

(** The loop itself: it leaves at the first dependency that forbids the
    skip. *)
Fixpoint depsLoop (store : ResultStore) (result : TaskResult)
    (deps : list Task) : bool :=
  match deps with
  | [] => true
  | dep :: rest =>
      if depKeepsSkippable store result dep then depsLoop store result rest
      else false
  end.

(** The value of [xctx.Skippable] when [executeTask] reaches the tool
    (lines 298-331 of the dispatcher). *)
Definition skippableFlag (store : ResultStore) (task : Task)
    (deps : list Task) : bool :=
  let skippable := negb (Always task) && negb (NoSkip task) in
  let result := loadTaskResult store (TaskName task) in
  let skippable :=
    if (SuccessBuildStartTime result =? 0) || (SuccessBuildEndTime result =? 0)
    then false else skippable in
  if skippable then depsLoop store result deps else false.

(** The skip condition in the words of the specification, with "strictly
    older": to be compared with [skippableFlag]. *)
Definition skippableAsSpecified (store : ResultStore) (task : Task)
    (deps : list Task) : Prop :=
  Always task = false
  ∧ NoSkip task = false
  ∧ SuccessBuildStartTime (loadTaskResult store (TaskName task)) ≠ 0
  ∧ SuccessBuildEndTime (loadTaskResult store (TaskName task)) ≠ 0
  ∧ ∀ dep, dep ∈ deps →
      err_skipped (TaskErr dep) = true
      ∧ SuccessBuildStartTime (loadTaskResult store (TaskName dep)) ≠ 0
      ∧ SuccessBuildEndTime (loadTaskResult store (TaskName dep)) ≠ 0
      ∧ SuccessBuildStartTime (loadTaskResult store (TaskName dep))
          < SuccessBuildStartTime (loadTaskResult store (TaskName task))
      ∧ SuccessBuildEndTime (loadTaskResult store (TaskName dep))
          < SuccessBuildStartTime (loadTaskResult store (TaskName task)).

(** ** Writing the result (execution.writeTaskResult)

    [start] and [finish] are [task.StartTime.UnixNano()] and
    [task.EndTime.UnixNano()]. *)
Definition updateTaskResult (result : TaskResult) (start finish : Z)
    (err : option error) : TaskResult :=
  let r := mkTaskResult (SuccessBuildStartTime result) (SuccessBuildEndTime result)
             start finish false (Err result) in
  match err with
  | Some ErrSkipped =>
      mkTaskResult (SuccessBuildStartTime r) (SuccessBuildEndTime r)
        (StartTime r) (EndTime r) true (Err r)
  | Some e =>
      mkTaskResult (SuccessBuildStartTime r) (SuccessBuildEndTime r)
        (StartTime r) (EndTime r) (Skipped r) (Some (error_message e))
  | None =>
      mkTaskResult (StartTime r) (EndTime r)
        (StartTime r) (EndTime r) (Skipped r) (Err r)
  end.

(** [writeOK] tells whether [ioutil.WriteFile] succeeds; a failure is only
    logged and leaves the store as it is. *)
Definition writeTaskResult (store : ResultStore) (name : string)
    (result : TaskResult) (start finish : Z) (err : option error)
    (writeOK : bool) : ResultStore :=
  let r := updateTaskResult result start finish err in
  if writeOK then <[name := ResultJSON r]> store else store.

(** What one worker iteration does to the result store, for a task whose
    executor returned [err]: [executeTask] loads the result, removes the
    result file when the target has a tool ([hasTool]), and hands the loaded
    record back; [runWorker] then writes it. *)
Definition workerRecord (store : ResultStore) (name : string) (hasTool : bool)
    (start finish : Z) (err : option error) (writeOK : bool) : ResultStore :=
  let result := loadTaskResult store name in
  let store1 := if hasTool then delete name store else store in
  writeTaskResult store1 name result start finish err writeOK.

(** A small cache directory used in the examples: [p:t] was last built
    successfully from instant 5 to instant 6, its dependency [p:d] from
    instant 3 to instant 5. *)
Definition C1_store : ResultStore :=
  <["p:t" := ResultJSON (mkTaskResult 5 6 5 6 false None)]>
    (<["p:d" := ResultJSON (mkTaskResult 3 5 7 8 true None)]> ∅).

Definition C1_task : Task :=
  mkTask "p:t" false false {["p:d"]} ∅ ∅ TaskRunning None.
Definition C1_dep : Task :=
  mkTask "p:d" false false ∅ {["p:t"]} ∅ TaskCompleted (Some ErrSkipped).

(** ** Repository discovery (meta/root.go, meta/loader.go, repo.go) *)

(** [meta.Root], the schema of the root file [REPOS.yaml]. *)
Record Root : Type := mkRoot {
  DataDir : string;
  MetaFolder : string;
  ProjectPathExclude : list string;
  (** Modelled from the spec: [Repo.LocateRoot] reads [root.AbsoluteRoot],
      a field that the declaration of [meta.Root] in this tree does not
      list; it is the mark "absolute root" of a root-metadata file. *)
  AbsoluteRoot : bool
}.

(** An absolute, cleaned directory path is the list of its components,
    innermost first: [/a/b] is ["b"; "a"] and the file-system root [/] is
    [[]].  [filepath.Dir] drops the head. *)
Notation dirpath := (list string) (only parsing).

(** Outcome of [meta.LoadRootFromDir dir]: the root file is there and
    decodes, it is absent ([os.ErrNotExist]), or loading fails otherwise. *)
Inductive loadResult : Type :=
| LoadOK (m : Root)
| LoadNotExist
| LoadError (msg : string).

(** The loop of [Repo.LocateRoot].  [found] is the pair [(root, r.RootDir)]
    assigned so far, [None] while [root == nil]. *)
Fixpoint locateLoop (load : dirpath → loadResult) (wd : dirpath)
    (found : option (Root * dirpath)) : error + option (Root * dirpath) :=
  if match found with
     | None => true
     | Some (m, _) => negb (AbsoluteRoot m)
     end
  then
    match load wd with
    | LoadError msg => inl (ErrOther ("check REPOS.yaml error: " +:+ msg))
    | res =>
        let found' := match res with
                      | LoadOK m => Some (m, wd)
                      | _ => found
                      end in
        match wd with
        | [] => inr found'
        | _ :: parent => locateLoop load parent found'
        end
    end
  else inr found.

(** [Repo.LocateRoot]: on success the new [RootDir] and the root metadata
    handed to [updateMeta]. *)
Definition LocateRoot (load : dirpath → loadResult) (workDir : dirpath)
  : error + (dirpath * Root) :=
  match locateLoop load workDir None with
  | inl e => inl e
  | inr None => inl (ErrNotExist "find REPOS.yaml failed: file does not exist")
  | inr (Some (m, d)) => inr (d, m)
  end.

(** The [k]-th ancestor of a directory, the directory itself for [k = 0]. *)
Definition ancestor (k : nat) (wd : dirpath) : dirpath := drop k wd.

(** "The nearest ancestor of the working directory containing the
    root-metadata file", in the words of the specification. *)
Definition nearestWithRootFile (load : dirpath → loadResult) (wd d : dirpath)
  : Prop :=
  ∃ k m, d = ancestor k wd ∧ load d = LoadOK m
         ∧ ∀ j, (j < k)%nat → ∀ m', load (ancestor j wd) ≠ LoadOK m'.

(** The condition of the [for] loop, [root == nil || !root.AbsoluteRoot],
    on what was found so far. *)
Definition walking (found : option (Root * dirpath)) : Prop :=
  match found with
  | None => True
  | Some (m0, _) => AbsoluteRoot m0 = false
  end.

(** The walk goes on past a directory: it holds no root file, or a root file
    that is not marked "absolute root". *)
Definition walksPast (load : dirpath → loadResult) (d : dirpath) : Prop :=
  load d = LoadNotExist
  ∨ ∃ m, load d = LoadOK m ∧ AbsoluteRoot m = false.

(** The walk settles on the [k]-th ancestor: it gets there, finds a root
    file, and this root file is marked "absolute root" or no directory
    above holds a root file. *)
Definition settlesOn (load : dirpath → loadResult) (wd : dirpath) (k : nat)
    (m : Root) : Prop :=
  (k ≤ length wd)%nat
  ∧ load (ancestor k wd) = LoadOK m
  ∧ (∀ j, (j < k)%nat → walksPast load (ancestor j wd))
  ∧ (AbsoluteRoot m = true
     ∨ ∀ j, (k < j ≤ length wd)%nat → load (ancestor j wd) = LoadNotExist).

(** A tree with two root files, neither marked absolute: [/a/REPOS.yaml]
    and [/a/b/REPOS.yaml]. *)
Definition C7_load (d : dirpath) : loadResult :=
  if decide (d = ["b"; "a"]) then LoadOK (mkRoot "" "" [] false)
  else if decide (d = ["a"]) then LoadOK (mkRoot "data" "" [] false)
  else LoadNotExist.

(** ** Outcomes of fallible code

    A Go function either returns normally, returns an error, or panics
    (a nil pointer is dereferenced, a slice bound is out of range). *)

Inductive outcome (A : Type) : Type :=
| Done (a : A)
| Failed (e : error)
| Panicked (why : string).
Arguments Done {A} a.
Arguments Failed {A} e.
Arguments Panicked {A} why.

Definition obind {A B : Type} (m : outcome A) (k : A → outcome B) : outcome B :=
  match m with
  | Done a => k a
  | Failed e => Failed e
  | Panicked w => Panicked w
  end.

#[global] Instance outcome_bind : MBind outcome := λ A B k m, obind m k.
#[global] Instance outcome_ret : MRet outcome := λ A a, Done a.

(** ** Strings and paths *)

(** [strings.HasSuffix(s, "/")]. *)
Fixpoint hasSuffixSlash (s : string) : bool :=
  match s with
  | EmptyString => false
  | String c EmptyString => bool_decide (c = "/"%char)
  | String _ rest => hasSuffixSlash rest
  end.

(** [strings.TrimRight(s, "/")]. *)
Fixpoint trimRightSlash (s : string) : string :=
  match s with
  | EmptyString => EmptyString
  | String c rest =>
      let t := trimRightSlash rest in
      if bool_decide (t = EmptyString) && bool_decide (c = "/"%char)
      then EmptyString else String c t
  end.

(** [s[:len(s)-1]] for a non-empty [s]. *)
Fixpoint dropLast (s : string) : string :=
  match s with
  | EmptyString => EmptyString
  | String _ EmptyString => EmptyString
  | String c rest => String c (dropLast rest)
  end.

(** [strings.SplitN(s, ":", 2)]: the text before and after the first colon,
    [None] when there is no colon. *)
Fixpoint splitColon (s : string) : option (string * string) :=
  match s with
  | EmptyString => None
  | String c rest =>
      if bool_decide (c = ":"%char) then Some (EmptyString, rest)
      else match splitColon rest with
           | Some (a, b) => Some (String c a, b)
           | None => None
           end
  end.

(** [filepath.Join dir rel] for a clean directory and a clean relative
    path; an empty element is ignored, as [Join] does.  The normalisation
    that [Join] applies to [.], [..] and repeated separators is not
    modelled. *)
Definition pathJoin (dir rel : string) : string :=
  if bool_decide (rel = EmptyString) then dir
  else if bool_decide (dir = EmptyString) then rel
  else dir +:+ "/" +:+ rel.

(** ** The incremental cache (FilesCache) *)

Record fileEntry : Type := mkFileEntry {
  Dir : bool;
  (** [MTime.UnixNano()] *)
  MTime : Z
}.

#[global] Instance fileEntry_eq_dec : EqDecision fileEntry.
Proof. solve_decision. Defined.

(** What [UnixNano] makes of the zero [time.Time], the modification time of
    an output entry between [AddOutput] and [Persist]. *)
Definition zeroTime : Z := -6795364578871345152.

Record OutputFiles : Type := mkOutputFiles {
  Primary : string;
  Extra : gmap string string;
  GeneratedFiles : list string
}.

Record fileCacheContent : Type := mkContent {
  Inputs : gmap string fileEntry;
  Outputs : gmap string fileEntry;
  Generates : gmap string fileEntry;
  Opaque : list string;
  TaskOutputs : OutputFiles
}.

(** Content of a [<task>.state] file: it decodes or it does not. *)
Inductive stateFileContent : Type :=
| StateCorrupt
| StateJSON (c : fileCacheContent).

(** The file system as the cache sees it: what [os.Stat] answers for a
    path, the state files by path, and whether [os.WriteFile] succeeds. *)
Record FS : Type := mkFS {
  fs_files : gmap string fileEntry;
  fs_states : gmap string stateFileContent;
  fs_writable : bool
}.

(** The fields of [ToolExecContext] (and of the task and target behind it)
    that the cache and the external-tool driver read. *)
Record ToolExecContext : Type := mkXctx {
  xTaskName : string;
  xProjectDir : string;
  xSourceSubDir : string;
  xOutDir : string;
  xCacheDir : string;
  Skippable : bool
}.

(** [ToolExecContext.SourceDir]. *)
Definition xSourceDir (xctx : ToolExecContext) : string :=
  if bool_decide (xSourceSubDir xctx = EmptyString) then xProjectDir xctx
  else pathJoin (xProjectDir xctx) (xSourceSubDir xctx).

Record FilesCache : Type := mkFilesCache {
  fc_xctx : ToolExecContext;
  stateFile : string;
  current : fileCacheContent;
  saved : option fileCacheContent
}.

Definition emptyContent : fileCacheContent :=
  mkContent ∅ ∅ ∅ [] (mkOutputFiles EmptyString ∅ []).

Definition NewFilesCache (xctx : ToolExecContext) : FilesCache :=
  mkFilesCache xctx
    (pathJoin (xCacheDir xctx) (xTaskName xctx +:+ ".state"))
    emptyContent None.

Definition setCurrent (s : FilesCache) (c : fileCacheContent) : FilesCache :=
  mkFilesCache (fc_xctx s) (stateFile s) c (saved s).

(** [addInputEntry].  The log line slices [fn] after the project directory
    and its separator, which panics when [fn] is no longer than the project
    directory. *)
Definition addInputEntry (s : FilesCache) (fn : string) (entry : fileEntry)
  : outcome FilesCache :=
  let c := current s in
  let s' := setCurrent s (mkContent (<[fn := entry]> (Inputs c)) (Outputs c)
                            (Generates c) (Opaque c) (TaskOutputs c)) in
  if decide (String.length (xProjectDir (fc_xctx s)) + 1 ≤ String.length fn)%nat
  then Done s'
  else Panicked "slice bounds out of range".

(** The entries [filepath.Walk root] visits: the root and everything below
    it. *)
Definition walkEntries (fs : FS) (root : string) : list (string * fileEntry) :=
  filter (λ pe, bool_decide (pe.1 = root) || String.prefix (root +:+ "/") pe.1)
         (map_to_list (fs_files fs)).

Fixpoint addInputEntries (s : FilesCache) (es : list (string * fileEntry))
  : outcome FilesCache :=
  match es with
  | [] => Done s
  | (fn, entry) :: rest =>
      s' ← addInputEntry s fn entry; addInputEntries s' rest
  end.

(** [FilesCache.AddInput]. *)
Definition AddInput (fs : FS) (s : FilesCache) (relPath : string)
    (recursive : bool) : outcome FilesCache :=
  let fn := pathJoin (xProjectDir (fc_xctx s)) relPath in
  match fs_files fs !! fn with
  | None => Failed (ErrNotExist ("stat " +:+ fn))
  | Some fi =>
      if recursive then addInputEntries s (walkEntries fs fn)
      else addInputEntry s fn fi
  end.

(** [FilesCache.AddSource]. *)
Definition AddSource (fs : FS) (s : FilesCache) (relPath : string)
    (recursive : bool) : outcome FilesCache :=
  let srcDir := xSourceSubDir (fc_xctx s) in
  if bool_decide (srcDir = EmptyString) then AddInput fs s relPath recursive
  else AddInput fs s (pathJoin srcDir relPath) recursive.

(** [FilesCache.AddOutput]. *)
Definition AddOutput (s : FilesCache) (key relPath : string) : FilesCache :=
  let dir := hasSuffixSlash relPath in
  let fn := pathJoin (xOutDir (fc_xctx s)) (trimRightSlash relPath) in
  let c := current s in
  let t := TaskOutputs c in
  let t' := if bool_decide (key = EmptyString)
            then mkOutputFiles relPath (Extra t) (GeneratedFiles t)
            else mkOutputFiles (Primary t) (<[key := relPath]> (Extra t))
                   (GeneratedFiles t) in
  setCurrent s (mkContent (Inputs c) (<[fn := mkFileEntry dir zeroTime]> (Outputs c))
                  (Generates c) (Opaque c) t').

(** [FilesCache.AddGenerated]. *)
Definition AddGenerated (s : FilesCache) (relPath : string) : FilesCache :=
  let dir := hasSuffixSlash relPath in
  let fn := pathJoin (xSourceDir (fc_xctx s)) (trimRightSlash relPath) in
  let c := current s in
  let t := TaskOutputs c in
  setCurrent s (mkContent (Inputs c) (Outputs c)
                  (<[fn := mkFileEntry dir zeroTime]> (Generates c)) (Opaque c)
                  (mkOutputFiles (Primary t) (Extra t)
                     (GeneratedFiles t ++ [relPath]))).

(** [FilesCache.AddOpaque]. *)
Definition AddOpaque (s : FilesCache) (opaque : list string) : FilesCache :=
  let c := current s in
  setCurrent s (mkContent (Inputs c) (Outputs c) (Generates c)
                  (Opaque c ++ opaque) (TaskOutputs c)).

(** [loadStateFrom]. *)
Definition loadStateFrom (fs : FS) (file : string) : error + fileCacheContent :=
  match fs_states fs !! file with
  | None => inl (ErrNotExist ("load state " +:+ file))
  | Some StateCorrupt => inl (ErrOther ("parse state " +:+ file))
  | Some (StateJSON c) => inr c
  end.

(** [FilesCache.ClearSaved]: the state file is removed; the caller ignores
    the error of removing a file that is not there. *)
Definition ClearSaved (fs : FS) (s : FilesCache) : FS :=
  mkFS (fs_files fs) (delete (stateFile s) (fs_states fs)) (fs_writable fs).

(** [refreshFileEntries]: entries are updated in place, one after the other,
    until one of them is missing or of the wrong kind. *)
Fixpoint refreshLoop (fs : FS) (es : list (string * fileEntry))
    (entries : gmap string fileEntry) : gmap string fileEntry * option error :=
  match es with
  | [] => (entries, None)
  | (fn, entry) :: rest =>
      match fs_files fs !! fn with
      | None => (entries, Some (ErrNotExist ("stat " +:+ fn)))
      | Some info =>
          if bool_decide (Dir entry = Dir info) then
            refreshLoop fs rest (<[fn := mkFileEntry (Dir entry) (MTime info)]> entries)
          else if Dir entry
          then (entries, Some (ErrOther (fn +:+ " is not a directory")))
          else (entries, Some (ErrOther (fn +:+ " is not a file")))
      end
  end.

Definition refreshFileEntries (fs : FS) (entries : gmap string fileEntry)
  : gmap string fileEntry * option error :=
  refreshLoop fs (map_to_list entries) entries.

(** [FilesCache.Persist]: the cache after the refresh, the file system after
    the write, and the error if any. *)
Definition Persist (fs : FS) (s : FilesCache) : FilesCache * FS * option error :=
  let c := current s in
  let '(outs, e1) := refreshFileEntries fs (Outputs c) in
  let s1 := setCurrent s (mkContent (Inputs c) outs (Generates c) (Opaque c)
                            (TaskOutputs c)) in
  match e1 with
  | Some e => (s1, fs, Some e)
  | None =>
      let '(gens, e2) := refreshFileEntries fs (Generates c) in
      let c2 := mkContent (Inputs c) outs gens (Opaque c) (TaskOutputs c) in
      let s2 := setCurrent s c2 in
      match e2 with
      | Some e => (s2, fs, Some e)
      | None =>
          if fs_writable fs then
            (s2, mkFS (fs_files fs) (<[stateFile s := StateJSON c2]> (fs_states fs))
                   (fs_writable fs), None)
          else (s2, fs, Some (ErrOther ("write state " +:+ stateFile s)))
      end
  end.

(** ** Verification of the cache (FilesCache.Verify)

    A line written to the task log by [Verify] and its helpers.  The
    constructors follow the format strings of the source. *)
Inductive Diag : Type :=
| DiagLoad (e : error)
| DiagLength (title : string) (l1 l2 : nat)
| DiagNotFound (title fn : string)
| DiagIsDir (title fn : string) (d1 d2 : bool)
| DiagMTime (title fn : string) (t1 t2 : Z)
| DiagPrimary (savedPrimary currentPrimary : string)
| DiagExtraLength (l1 l2 : nat)
| DiagExtraNotFound (key : string)
| DiagOpaqueSize
| DiagOpaque (n : nat) (newVal val : string)
| DiagOutput (e : error)
| DiagGenerate (e : error).

(** The comparison helpers return [None] for [true] (nothing is logged) and
    [Some d] for [false] after logging [d]. *)

Fixpoint compareMapsLoop (es : list (string * fileEntry))
    (m2 : gmap string fileEntry) (title : string) : option Diag :=
  match es with
  | [] => None
  | (fn, entry1) :: rest =>
      match m2 !! fn with
      | None => Some (DiagNotFound title fn)
      | Some entry2 =>
          if negb (bool_decide (Dir entry1 = Dir entry2))
          then Some (DiagIsDir title fn (Dir entry1) (Dir entry2))
          else if negb (bool_decide (MTime entry1 = MTime entry2))
          then Some (DiagMTime title fn (MTime entry1) (MTime entry2))
          else compareMapsLoop rest m2 title
      end
  end.

(** [compareFileEntryMaps]. *)
Definition compareFileEntryMaps (m1 m2 : gmap string fileEntry)
    (title : string) : option Diag :=
  if negb (bool_decide (size m1 = size m2))
  then Some (DiagLength title (size m1) (size m2))
  else compareMapsLoop (map_to_list m1) m2 title.

Fixpoint compareKeysLoop {A B : Type} (es : list (string * A))
    (m2 : gmap string B) (notFound : string → Diag) : option Diag :=
  match es with
  | [] => None
  | (fn, _) :: rest =>
      match m2 !! fn with
      | None => Some (notFound fn)
      | Some _ => compareKeysLoop rest m2 notFound
      end
  end.

(** [compareFileEntryKeys]. *)
Definition compareFileEntryKeys (m1 m2 : gmap string fileEntry)
    (title : string) : option Diag :=
  if negb (bool_decide (size m1 = size m2))
  then Some (DiagLength title (size m1) (size m2))
  else compareKeysLoop (map_to_list m1) m2 (DiagNotFound title).

(** [compareExtraTaskOutputs]. *)
Definition compareExtraTaskOutputs (m1 m2 : gmap string string) : option Diag :=
  if negb (bool_decide (size m1 = size m2))
  then Some (DiagExtraLength (size m1) (size m2))
  else compareKeysLoop (map_to_list m1) m2 DiagExtraNotFound.

(** The loop over [s.saved.Opaque]; the lengths are known to agree. *)
Fixpoint compareOpaqueLoop (n : nat) (savedOpaque currentOpaque : list string)
  : option Diag :=
  match savedOpaque, currentOpaque with
  | val :: srest, newVal :: crest =>
      if negb (bool_decide (newVal = val)) then Some (DiagOpaque n newVal val)
      else compareOpaqueLoop (S n) srest crest
  | _, _ => None
  end.

Fixpoint checkUpToDateLoop (fs : FS) (es : list (string * fileEntry))
    (savedEntries : gmap string fileEntry) : option error :=
  match es with
  | [] => None
  | (fn, _) :: rest =>
      match fs_files fs !! fn with
      | None => Some (ErrNotExist ("stat " +:+ fn))
      | Some info =>
          match savedEntries !! fn with
          | None => Some (ErrOther ("out-of-date: " +:+ fn))
          | Some entry =>
              if negb (bool_decide (Dir entry = Dir info))
                 || negb (bool_decide (MTime entry = MTime info))
              then Some (ErrOther ("out-of-date: " +:+ fn))
              else checkUpToDateLoop fs rest savedEntries
          end
      end
  end.

(** [checkUpToDate]. *)
Definition checkUpToDate (fs : FS) (currentEntries savedEntries : gmap string fileEntry)
  : option error :=
  checkUpToDateLoop fs (map_to_list currentEntries) savedEntries.

(** The body of [Verify] once the saved state [sv] is at hand: the lines
    logged and the value returned. *)
Definition verifyAgainst (fs : FS) (sv cur : fileCacheContent)
  : list Diag * bool :=
  match compareFileEntryKeys (Outputs sv) (Outputs cur) "outputs" with
  | Some d => ([d], false)
  | None =>
  match compareFileEntryKeys (Generates sv) (Generates cur) "generates" with
  | Some d => ([d], false)
  | None =>
  match compareFileEntryMaps (Inputs sv) (Inputs cur) "inputs" with
  | Some d => ([d], false)
  | None =>
  let log :=
    if negb (bool_decide (Primary (TaskOutputs sv) = Primary (TaskOutputs cur)))
    then [DiagPrimary (Primary (TaskOutputs sv)) (Primary (TaskOutputs cur))]
    else [] in
  match compareExtraTaskOutputs (Extra (TaskOutputs sv)) (Extra (TaskOutputs cur)) with
  | Some d => ((log ++ [d])%list, false)
  | None =>
  if negb (bool_decide (length (Opaque sv) = length (Opaque cur)))
  then ((log ++ [DiagOpaqueSize])%list, false)
  else
  match compareOpaqueLoop 0 (Opaque sv) (Opaque cur) with
  | Some d => ((log ++ [d])%list, false)
  | None =>
  match checkUpToDate fs (Outputs cur) (Outputs sv) with
  | Some e => ((log ++ [DiagOutput e])%list, false)
  | None =>
  match checkUpToDate fs (Generates cur) (Generates sv) with
  | Some e => ((log ++ [DiagGenerate e])%list, false)
  | None => (log, true)
  end end end end end end end.

(** [FilesCache.Verify]: the cache (whose [saved] field a successful [Load]
    fills), the lines logged and the value returned. *)
Definition Verify (fs : FS) (s : FilesCache) : FilesCache * list Diag * bool :=
  match saved s with
  | Some sv =>
      let '(log, b) := verifyAgainst fs sv (current s) in (s, log, b)
  | None =>
      match loadStateFrom fs (stateFile s) with
      | inl e => (s, [DiagLoad e], false)
      | inr sv =>
          let s' := mkFilesCache (fc_xctx s) (stateFile s) (current s) (Some sv) in
          let '(log, b) := verifyAgainst fs sv (current s) in (s', log, b)
      end
  end.

(** The saved state [Verify] compares with: the one the cache holds in
    memory since an earlier [Verify], or else, when it holds none, the
    content of the state file if the file is there and decodes. *)
Definition comparesWith (fs : FS) (s : FilesCache) (sv : fileCacheContent)
  : Prop :=
  saved s = Some sv
  ∨ (saved s = None ∧ fs_states fs !! stateFile s = Some (StateJSON sv)).

(** The path [fn] is on disk as the saved entries describe it. *)
Definition onDiskAsSaved (fs : FS) (savedEntries : gmap string fileEntry)
    (fn : string) : Prop :=
  ∃ info entry, fs_files fs !! fn = Some info ∧ savedEntries !! fn = Some entry
                ∧ Dir entry = Dir info ∧ MTime entry = MTime info.

(** The condition of the specification under which verification succeeds. *)
Definition upToDate (fs : FS) (sv cur : fileCacheContent) : Prop :=
  dom (Outputs sv) = dom (Outputs cur)
  ∧ dom (Generates sv) = dom (Generates cur)
  ∧ Inputs sv = Inputs cur
  ∧ dom (Extra (TaskOutputs sv)) = dom (Extra (TaskOutputs cur))
  ∧ Opaque sv = Opaque cur
  ∧ (∀ fn, fn ∈ dom (Outputs cur) → onDiskAsSaved fs (Outputs sv) fn)
  ∧ (∀ fn, fn ∈ dom (Generates cur) → onDiskAsSaved fs (Generates sv) fn).

(** "Verify returns true if and only if the saved state file exists and
    parses, ...", in the words of the specification: the state file is read
    off the file system as it is when [Verify] is called. *)
Definition verifyAsSpecified (fs : FS) (s : FilesCache) : Prop :=
  (Verify fs s).2 = true
  ↔ ∃ sv, fs_states fs !! stateFile s = Some (StateJSON sv)
          ∧ upToDate fs sv (current s).

(** The map a log line means by its title. *)
Definition entriesTitled (title : string) (c : fileCacheContent)
  : option (gmap string fileEntry) :=
  if bool_decide (title = "outputs") then Some (Outputs c)
  else if bool_decide (title = "generates") then Some (Generates c)
  else if bool_decide (title = "inputs") then Some (Inputs c)
  else None.

(** The error [e] says what is wrong with the path [fn] on disk: it is not
    there, or it is there and the saved entries do not list it with its
    present kind and modification time. *)
Definition staleOnDisk (fs : FS) (savedEntries : gmap string fileEntry)
    (fn : string) (e : error) : Prop :=
  (fs_files fs !! fn = None ∧ e = ErrNotExist ("stat " +:+ fn))
  ∨ (∃ info, fs_files fs !! fn = Some info
             ∧ e = ErrOther ("out-of-date: " +:+ fn)
             ∧ (savedEntries !! fn = None
                ∨ ∃ entry, savedEntries !! fn = Some entry
                           ∧ (Dir entry ≠ Dir info ∨ MTime entry ≠ MTime info))).

(** The log line [d] names a discrepancy between the saved state [sv] and
    the current state [cur] that is really there: the sizes, the path, the
    key, the index and the values it prints are those found in the two
    states and on disk, and they differ.  The note on the primary output
    and the line of a failed load name no such discrepancy. *)
Definition describesMismatch (fs : FS) (sv cur : fileCacheContent) (d : Diag)
  : Prop :=
  match d with
  | DiagLoad _ => False
  | DiagLength title l1 l2 =>
      ∃ m1 m2, entriesTitled title sv = Some m1
               ∧ entriesTitled title cur = Some m2
               ∧ l1 = size m1 ∧ l2 = size m2 ∧ l1 ≠ l2
  | DiagNotFound title fn =>
      ∃ m1 m2, entriesTitled title sv = Some m1
               ∧ entriesTitled title cur = Some m2
               ∧ is_Some (m1 !! fn) ∧ m2 !! fn = None
  | DiagIsDir title fn d1 d2 =>
      title = "inputs"
      ∧ ∃ e1 e2, Inputs sv !! fn = Some e1 ∧ Inputs cur !! fn = Some e2
                 ∧ d1 = Dir e1 ∧ d2 = Dir e2 ∧ d1 ≠ d2
  | DiagMTime title fn t1 t2 =>
      title = "inputs"
      ∧ ∃ e1 e2, Inputs sv !! fn = Some e1 ∧ Inputs cur !! fn = Some e2
                 ∧ t1 = MTime e1 ∧ t2 = MTime e2 ∧ t1 ≠ t2
  | DiagPrimary _ _ => False
  | DiagExtraLength l1 l2 =>
      l1 = size (Extra (TaskOutputs sv)) ∧ l2 = size (Extra (TaskOutputs cur))
      ∧ l1 ≠ l2
  | DiagExtraNotFound key =>
      is_Some (Extra (TaskOutputs sv) !! key)
      ∧ Extra (TaskOutputs cur) !! key = None
  | DiagOpaqueSize => length (Opaque sv) ≠ length (Opaque cur)
  | DiagOpaque n newVal val =>
      Opaque sv !! n = Some val ∧ Opaque cur !! n = Some newVal ∧ newVal ≠ val
  | DiagOutput e =>
      ∃ fn, is_Some (Outputs cur !! fn) ∧ staleOnDisk fs (Outputs sv) fn e
  | DiagGenerate e =>
      ∃ fn, is_Some (Generates cur !! fn) ∧ staleOnDisk fs (Generates sv) fn e
  end.

(** The log line [d] says why [Verify] failed: no saved state is in memory
    and the state file is missing or does not decode, or the line names a
    discrepancy between the saved state compared with and the current
    state. *)
Definition describesFailure (fs : FS) (s : FilesCache) (d : Diag) : Prop :=
  match d with
  | DiagLoad e =>
      saved s = None
      ∧ ((fs_states fs !! stateFile s = None
          ∧ e = ErrNotExist ("load state " +:+ stateFile s))
         ∨ (fs_states fs !! stateFile s = Some StateCorrupt
            ∧ e = ErrOther ("parse state " +:+ stateFile s)))
  | _ => ∃ sv, comparesWith fs s sv ∧ describesMismatch fs sv (current s) d
  end.

(** The note [Verify] logs, without failing, when the primary outputs
    differ. *)
Definition primaryNote (sv cur : fileCacheContent) (d : Diag) : Prop :=
  d = DiagPrimary (Primary (TaskOutputs sv)) (Primary (TaskOutputs cur))
  ∧ Primary (TaskOutputs sv) ≠ Primary (TaskOutputs cur).

(** A cache that declares one input and one opaque string, and a file
    system whose state file records the same declaration. *)
Definition C2_xctx : ToolExecContext :=
  mkXctx "p:t" "/repo/p" "" "/repo/.repos_data/out/p" "/repo/.repos_data/cache" true.

Definition C2_content : fileCacheContent :=
  mkContent (<["/repo/p/main.c" := mkFileEntry false 100]> ∅) ∅ ∅ ["cc"]
    (mkOutputFiles EmptyString ∅ []).

Definition C2_cache : FilesCache :=
  setCurrent (NewFilesCache C2_xctx) C2_content.

Definition C2_fs : FS :=
  mkFS (<["/repo/p/main.c" := mkFileEntry false 100]> ∅)
    (<[stateFile C2_cache := StateJSON C2_content]> ∅) true.

(** The cache after a first [Verify], which loaded the state file, and the
    file system after [ClearSaved] has then removed that file. *)
Definition C2_loaded : FilesCache := (Verify C2_fs C2_cache).1.1.

Definition C2_cleared : FS := ClearSaved C2_fs C2_loaded.

(** ** The cache reporter (CacheReporter)

    The reporter records every declaration as a closure over its
    arguments; a record is that closure in first-order form. *)
Inductive cacheRecord : Type :=
| RecInput (relPath : string) (recursive : bool)
| RecSource (relPath : string) (recursive : bool)
| RecOutput (key relPath : string)
| RecGenerated (relPath : string)
| RecOpaque (opaque : list string).

Record CacheReporter : Type := mkReporter {
  Cache : FilesCache;
  records : list cacheRecord
}.

(** What a recorded closure does to the cache it is applied to. *)
Definition applyRecord (fs : FS) (c : FilesCache) (r : cacheRecord)
  : outcome FilesCache :=
  match r with
  | RecInput relPath recursive => AddInput fs c relPath recursive
  | RecSource relPath recursive => AddSource fs c relPath recursive
  | RecOutput key relPath => Done (AddOutput c key relPath)
  | RecGenerated relPath => Done (AddGenerated c relPath)
  | RecOpaque opaque => Done (AddOpaque c opaque)
  end.

(** [CacheReporter.addInput] and [addSource]: the declaration is recorded
    only when the cache accepted it. *)
Definition reportInput (fs : FS) (r : CacheReporter) (relPath : string)
    (recursive : bool) : outcome CacheReporter :=
  c ← AddInput fs (Cache r) relPath recursive;
  Done (mkReporter c (records r ++ [RecInput relPath recursive])).

Definition reportSource (fs : FS) (r : CacheReporter) (relPath : string)
    (recursive : bool) : outcome CacheReporter :=
  c ← AddSource fs (Cache r) relPath recursive;
  Done (mkReporter c (records r ++ [RecSource relPath recursive])).

Definition reportOutput (r : CacheReporter) (key relPath : string) : CacheReporter :=
  mkReporter (AddOutput (Cache r) key relPath)
    (records r ++ [RecOutput key relPath]).

Definition reportGenerated (r : CacheReporter) (relPath : string) : CacheReporter :=
  mkReporter (AddGenerated (Cache r) relPath)
    (records r ++ [RecGenerated relPath]).

Definition reportOpaque (r : CacheReporter) (opaque : list string) : CacheReporter :=
  mkReporter (AddOpaque (Cache r) opaque) (records r ++ [RecOpaque opaque]).

(** [CacheReporter.Replay]: the records are applied in order to the cache
    [c], which keeps what was applied before a record fails. *)
Fixpoint Replay (fs : FS) (recs : list cacheRecord) (c : FilesCache)
  : FilesCache * outcome unit :=
  match recs with
  | [] => (c, Done ())
  | r :: rest =>
      match applyRecord fs c r with
      | Done c' => Replay fs rest c'
      | Failed e => (c, Failed e)
      | Panicked w => (c, Panicked w)
      end
  end.

(** ** The control protocol of external tools (exttool.go)

    What the engine observes of the child while it reads its standard
    output: a line, or a change of the file tree made in the meantime. *)
Inductive childEvent : Type :=
| ChildLine (line : string)
| ChildFiles (files : gmap string fileEntry).

(** The state [controlCmd] works on: the file system, the reporter, what
    was written to the standard input of the child, and the task log. *)
Record ctlState : Type := mkCtl {
  ctl_fs : FS;
  ctl_cache : CacheReporter;
  ctl_stdin : list string;
  ctl_log : list Diag
}.

Definition newline : string := String (ascii_of_nat 10) EmptyString.

Definition withReporter (st : ctlState) (r : CacheReporter) : ctlState :=
  mkCtl (ctl_fs st) r (ctl_stdin st) (ctl_log st).

(** The answer to a ['V'] line. *)
Definition verifyReply (xctx : ToolExecContext) (st : ctlState) : ctlState :=
  if Skippable xctx then
    let '(c, log, ok) := Verify (ctl_fs st) (Cache (ctl_cache st)) in
    mkCtl (ctl_fs st) (mkReporter c (records (ctl_cache st)))
      (ctl_stdin st ++ [(if ok then "1" else "0") +:+ newline])
      (ctl_log st ++ log)
  else
    mkCtl (ctl_fs st) (ctl_cache st) (ctl_stdin st ++ ["0" +:+ newline])
      (ctl_log st).

(** One line of the child: the new state, and [Done ()] to go on reading,
    or the error [controlCmd] returns with. *)
Definition controlLine (xctx : ToolExecContext) (st : ctlState) (line : string)
  : ctlState * outcome unit :=
  match line with
  | EmptyString => (st, Done ())
  | String cmd val =>
      if bool_decide (cmd = "S"%char) then
        match reportSource (ctl_fs st) (ctl_cache st)
                (if hasSuffixSlash val then dropLast val else val)
                (hasSuffixSlash val) with
        | Done r => (withReporter st r, Done ())
        | Failed e => (st, Failed e)
        | Panicked w => (st, Panicked w)
        end
      else if bool_decide (cmd = "I"%char) then
        match reportInput (ctl_fs st) (ctl_cache st)
                (if hasSuffixSlash val then dropLast val else val)
                (hasSuffixSlash val) with
        | Done r => (withReporter st r, Done ())
        | Failed e => (st, Failed e)
        | Panicked w => (st, Panicked w)
        end
      else if bool_decide (cmd = "O"%char) then
        match splitColon val with
        | Some (key, relPath) =>
            (withReporter st (reportOutput (ctl_cache st) key relPath), Done ())
        | None =>
            (withReporter st (reportOutput (ctl_cache st) EmptyString val), Done ())
        end
      else if bool_decide (cmd = "G"%char) then
        (withReporter st (reportGenerated (ctl_cache st) val), Done ())
      else if bool_decide (cmd = "P"%char) then
        (withReporter st (reportOpaque (ctl_cache st) [val]), Done ())
      else if bool_decide (cmd = "V"%char) then
        (verifyReply xctx st, Done ())
      else if bool_decide (cmd = "C"%char) then
        (mkCtl (ClearSaved (ctl_fs st) (Cache (ctl_cache st))) (ctl_cache st)
           (ctl_stdin st) (ctl_log st), Done ())
      else if bool_decide (cmd = "X"%char) then
        (st, Failed ErrSkipped)
      else (st, Done ())
  end.

(** [controlCmd]: the scanner loop. *)
Fixpoint controlCmd (xctx : ToolExecContext) (st : ctlState)
    (child : list childEvent) : ctlState * outcome unit :=
  match child with
  | [] => (st, Done ())
  | ChildFiles files :: rest =>
      controlCmd xctx
        (mkCtl (mkFS files (fs_states (ctl_fs st)) (fs_writable (ctl_fs st)))
           (ctl_cache st) (ctl_stdin st) (ctl_log st))
        rest
  | ChildLine line :: rest =>
      match controlLine xctx st line with
      | (st', Done _) => controlCmd xctx st' rest
      | (st', r) => (st', r)
      end
  end.

(** What a call of [ExecuteExtToolCmd] leaves behind: how it ended, the file
    system, the answers written to the child, and the [OutputFiles] assigned
    to [Task.Outputs] by [xctx.Output], if any. *)
Record execReport : Type := mkReport {
  rep_result : outcome unit;
  rep_fs : FS;
  rep_stdin : list string;
  rep_outputs : option OutputFiles
}.

(** The reporter [ExecuteExtToolCmd] starts the protocol with: a fresh cache
    with the arguments of the command, then the environment entries, as
    opaque strings. *)
Definition initialReporter (xctx : ToolExecContext) (cmdArgs envs : list string)
  : CacheReporter :=
  reportOpaque (reportOpaque (mkReporter (NewFilesCache xctx) []) cmdArgs) envs.

(** [ToolExecContext.ReplayAndPersistCacheOrLog] on a fresh cache: the cache
    it returns and the file system afterwards.  An error of the replay or of
    [Persist] is logged, not returned; after a failed replay nothing is
    persisted. *)
Definition ReplayAndPersistCacheOrLog (fs : FS) (reporter : CacheReporter)
    (cache : FilesCache) : outcome (FilesCache * FS) :=
  match Replay fs (records reporter) cache with
  | (c, Done _) => let '(c', fs', _) := Persist fs c in Done (c', fs')
  | (c, Failed _) => Done (c, fs)
  | (c, Panicked w) => Panicked w
  end.

(** [ExecuteExtToolCmd].  [startErr] is the error of creating the pipes or
    of starting the command, [child] what the child does while it runs, and
    [execErr] the result of [cmd.Wait]. *)
Definition ExecuteExtToolCmd (fs : FS) (xctx : ToolExecContext)
    (cmdArgs envs : list string) (startErr : option error)
    (child : list childEvent) (execErr : option error) : execReport :=
  match startErr with
  | Some e => mkReport (Failed e) fs [] None
  | None =>
      let cr := initialReporter xctx cmdArgs envs in
      let '(st, err) := controlCmd xctx (mkCtl fs cr [] []) child in
      match err with
      | Panicked w => mkReport (Panicked w) (ctl_fs st) (ctl_stdin st) None
      | Failed e =>
          if bool_decide (e = ErrSkipped) then
            match saved (Cache (ctl_cache st)) with
            | Some sv =>
                mkReport (Failed e) (ctl_fs st) (ctl_stdin st) (Some (TaskOutputs sv))
            | None =>
                mkReport (Panicked "nil pointer dereference") (ctl_fs st)
                  (ctl_stdin st) None
            end
          else mkReport (Failed e) (ctl_fs st) (ctl_stdin st) None
      | Done _ =>
          match execErr with
          | Some e => mkReport (Failed e) (ctl_fs st) (ctl_stdin st) None
          | None =>
              match ReplayAndPersistCacheOrLog (ctl_fs st) (ctl_cache st)
                      (NewFilesCache xctx) with
              | Done (cache, fs') =>
                  mkReport (Done ()) fs' (ctl_stdin st)
                    (Some (TaskOutputs (current cache)))
              | Failed e => mkReport (Failed e) (ctl_fs st) (ctl_stdin st) None
              | Panicked w => mkReport (Panicked w) (ctl_fs st) (ctl_stdin st) None
              end
          end
      end
  end.

(** The opaque strings the child reports with ['P'] lines. *)
Fixpoint opaqueLines (child : list childEvent) : list string :=
  match child with
  | [] => []
  | ChildLine (String cmd val) :: rest =>
      if bool_decide (cmd = "P"%char) then val :: opaqueLines rest
      else opaqueLines rest
  | _ :: rest => opaqueLines rest
  end.






(** The opaque strings among recorded declarations, in order. *)
Fixpoint recOpaques (recs : list cacheRecord) : list string :=
  match recs with
  | [] => []
  | RecOpaque opaque :: rest => opaque ++ recOpaques rest
  | _ :: rest => recOpaques rest
  end.







(** ** Glob matching (path/filepath.Match of the Go standard library)

    The pattern grammar is the documented one: [*] matches any run of
    characters other than the separator, [?] one such character, [[...]]
    and [[^...]] a character class with ranges, a backslash escapes the
    next character, anything else matches itself.  Characters are single
    bytes.  A malformed pattern is reported as [ErrBadPattern] for every
    name, where the library reports it once matching has reached the
    malformed part. *)

Inductive globTerm : Type :=
| GStar
| GAny
| GChar (c : ascii)
| GClass (negated : bool) (ranges : list (ascii * ascii)).

(** [getEsc]: one possibly escaped character of a class; it may not be the
    last character of the pattern. *)
Definition getEsc (chunk : list ascii) : option (ascii * list ascii) :=
  match chunk with
  | [] => None
  | c :: rest =>
      if bool_decide (c = "-"%char) || bool_decide (c = "]"%char) then None
      else
        let unescaped :=
          if bool_decide (c = "\"%char) then
            match rest with
            | [] => None
            | c' :: rest' => Some (c', rest')
            end
          else Some (c, rest) in
        match unescaped with
        | Some (r, []) => None
        | other => other
        end
  end.

(** The ranges of a class, up to the closing bracket. *)
Fixpoint parseClass (fuel : nat) (chunk : list ascii) (acc : list (ascii * ascii))
  : option (list (ascii * ascii) * list ascii) :=
  match fuel with
  | O => None
  | S fuel' =>
      match chunk, acc with
      | "]"%char :: rest, _ :: _ => Some (acc, rest)
      | _, _ =>
          match getEsc chunk with
          | None => None
          | Some (lo, "-"%char :: rest) =>
              match getEsc rest with
              | None => None
              | Some (hi, rest') => parseClass fuel' rest' (acc ++ [(lo, hi)])
              end
          | Some (lo, rest) => parseClass fuel' rest (acc ++ [(lo, lo)])
          end
      end
  end.

Fixpoint parsePattern (fuel : nat) (p : list ascii) : option (list globTerm) :=
  match fuel with
  | O => match p with [] => Some [] | _ => None end
  | S fuel' =>
      match p with
      | [] => Some []
      | c :: rest =>
          if bool_decide (c = "*"%char) then cons GStar <$> parsePattern fuel' rest
          else if bool_decide (c = "?"%char) then cons GAny <$> parsePattern fuel' rest
          else if bool_decide (c = "\"%char) then
            match rest with
            | [] => None
            | c' :: rest' => cons (GChar c') <$> parsePattern fuel' rest'
            end
          else if bool_decide (c = "["%char) then
            let '(negated, body) :=
              match rest with
              | "^"%char :: body => (true, body)
              | _ => (false, rest)
              end in
            match parseClass (length body) body [] with
            | None => None
            | Some (ranges, rest') =>
                cons (GClass negated ranges) <$> parsePattern fuel' rest'
            end
          else cons (GChar c) <$> parsePattern fuel' rest
      end
  end.

Definition inRanges (c : ascii) (ranges : list (ascii * ascii)) : bool :=
  existsb (λ r, (nat_of_ascii r.1 <=? nat_of_ascii c)%nat
                && (nat_of_ascii c <=? nat_of_ascii r.2)%nat) ranges.

Fixpoint matchTerms (ts : list globTerm) : list ascii → bool :=
  match ts with
  | [] => λ name, match name with [] => true | _ => false end
  | GStar :: ts' =>
      fix star (name : list ascii) : bool :=
        matchTerms ts' name
        || match name with
           | [] => false
           | c :: name' => negb (bool_decide (c = "/"%char)) && star name'
           end
  | GAny :: ts' =>
      λ name, match name with
              | [] => false
              | c :: name' =>
                  negb (bool_decide (c = "/"%char)) && matchTerms ts' name'
              end
  | GChar c :: ts' =>
      λ name, match name with
              | [] => false
              | c' :: name' => bool_decide (c = c') && matchTerms ts' name'
              end
  | GClass negated ranges :: ts' =>
      λ name, match name with
              | [] => false
              | c :: name' =>
                  negb (eqb (inRanges c ranges) negated) && matchTerms ts' name'
              end
  end.

(** [filepath.Match pattern name]. *)
Definition Match (pattern name : string) : error + bool :=
  let p := list_ascii_of_string pattern in
  match parsePattern (length p) p with
  | None => inl (ErrBadPattern pattern)
  | Some ts => inr (matchTerms ts (list_ascii_of_string name))
  end.

(** A literal pattern: no glob meta-character and no escape. *)
Definition isMeta (c : ascii) : bool :=
  bool_decide (c = "*"%char) || bool_decide (c = "?"%char)
  || bool_decide (c = "["%char) || bool_decide (c = "\"%char).

Definition isLiteral (pattern : string) : Prop :=
  Forall (λ c, isMeta c = false) (list_ascii_of_string pattern).

(** ** Projects, targets and name resolution (project.go, repo.go) *)

(** [Target]: the owning project's name and the local name, that is
    [Target.Name]. *)
Record Target : Type := mkTarget {
  TargetProject : string;
  LocalName : string
}.

#[global] Instance Target_eq_dec : EqDecision Target.
Proof. solve_decision. Defined.

Record Project : Type := mkProject {
  ProjectName : string;
  ProjectDir : string;
  targets : gmap string Target
}.

Record Repo : Type := mkRepo {
  projects : gmap string Project;
  currentProject : option Project
}.

(** [loadProject] files every target under its local name. *)
Definition repoWellFormed (r : Repo) : Prop :=
  map_Forall (λ _ p, map_Forall (λ name t, LocalName t = name) (targets p))
    (projects r).

(** [strings.Split(s, ":")]. *)
Fixpoint splitColons (s : string) : list string :=
  match s with
  | EmptyString => [EmptyString]
  | String c rest =>
      if bool_decide (c = ":"%char) then EmptyString :: splitColons rest
      else match splitColons rest with
           | [] => [String c EmptyString]
           | item :: items => String c item :: items
           end
  end.

Definition isSpace (c : ascii) : bool :=
  bool_decide (c = " "%char) || ((9 <=? nat_of_ascii c)%nat && (nat_of_ascii c <=? 13)%nat).

Fixpoint trimLeft (s : string) : string :=
  match s with
  | EmptyString => EmptyString
  | String c rest => if isSpace c then trimLeft rest else s
  end.

Fixpoint trimRight (s : string) : string :=
  match s with
  | EmptyString => EmptyString
  | String c rest =>
      let t := trimRight rest in
      if bool_decide (t = EmptyString) && isSpace c then EmptyString
      else String c t
  end.

(** [strings.TrimSpace], on single-byte white space. *)
Definition TrimSpace (s : string) : string := trimRight (trimLeft s).

(** The loop over the projects of the repository that selects those whose
    name matches [projectPattern]. *)
Fixpoint matchProjects (projectPattern : string) (ps : list (string * Project))
  : error + list Project :=
  match ps with
  | [] => inr []
  | (name, project) :: rest =>
      match Match projectPattern name with
      | inl e => inl e
      | inr matched =>
          match matchProjects projectPattern rest with
          | inl e => inl e
          | inr found => inr (if matched then project :: found else found)
          end
      end
  end.

(** The targets the matching loops visit, in the order of the visit. *)
Definition candidates (ps : list Project) : list (string * Target) :=
  ps ≫= (λ p, map_to_list (targets p)).

(** The two nested loops over projects and targets: the targets pushed on
    [targetList] and the final value of [wildcardMatch]. *)
Fixpoint matchTargets (targetPattern : string) (cands : list (string * Target))
    (acc : list Target) (wildcardMatch : bool) : error + (list Target * bool) :=
  match cands with
  | [] => inr (acc, wildcardMatch)
  | (name, target) :: rest =>
      match Match targetPattern name with
      | inl e => inl e
      | inr false => matchTargets targetPattern rest acc wildcardMatch
      | inr true =>
          matchTargets targetPattern rest (acc ++ [target])
            (if bool_decide (LocalName target = targetPattern)
             then wildcardMatch else true)
      end
  end.

(** [Repo.ResolveTargets]: the slice and the error it returns. *)
Definition ResolveTargets (r : Repo) (pattern : string)
  : list Target * option error :=
  let items := splitColons pattern in
  if (2 <? length items)%nat then ([], Some (ErrBadPattern pattern))
  else
    let onlyMatchTargets := bool_decide (length items = 1%nat) in
    let selected : error + (list Project * string) :=
      if onlyMatchTargets then
        inr ((map_to_list (projects r)).*2, TrimSpace (default EmptyString (items !! 0%nat)))
      else
        let projectPattern := TrimSpace (default EmptyString (items !! 0%nat)) in
        let targetPattern := TrimSpace (default EmptyString (items !! 1%nat)) in
        if bool_decide (projectPattern = EmptyString) then
          match currentProject r with
          | None => inl ErrNoCurrentProject
          | Some project => inr ([project], targetPattern)
          end
        else
          match matchProjects projectPattern (map_to_list (projects r)) with
          | inl e => inl e
          | inr ps => inr (ps, targetPattern)
          end in
    match selected with
    | inl e => ([], Some e)
    | inr (ps, targetPattern) =>
        if bool_decide (targetPattern = EmptyString)
        then ([], Some (ErrBadPattern "empty target pattern"))
        else
          match matchTargets targetPattern (candidates ps) [] false with
          | inl e => ([], Some e)
          | inr (targetList, wildcardMatch) =>
              if bool_decide (length targetList = 0%nat) then ([], None)
              else if onlyMatchTargets && negb wildcardMatch
                      && (1 <? length targetList)%nat
              then (targetList, Some (ErrAmbiguousMatch targetPattern))
              else (targetList, None)
          end
    end.

(** The targets of the repository whose name matches [targetPattern], in
    the order of the visit. *)
Definition matchedTargets (r : Repo) (targetPattern : string) : list Target :=
  (filter (λ nt, Match targetPattern nt.1 = inr true)
     (candidates (map_to_list (projects r)).*2)).*2.

(** The behaviour of a bare pattern in the words of the specification: a
    literal that matches several targets is ambiguous, a glob that matches
    several targets is not. *)
Definition bareAsSpecified (r : Repo) (pattern : string) : Prop :=
  (1 < length (matchedTargets r (TrimSpace pattern)))%nat →
  (isLiteral (TrimSpace pattern) →
     ResolveTargets r pattern
       = (matchedTargets r (TrimSpace pattern),
          Some (ErrAmbiguousMatch (TrimSpace pattern))))
  ∧ (¬ isLiteral (TrimSpace pattern) →
     ResolveTargets r pattern = (matchedTargets r (TrimSpace pattern), None)).

(** Two projects that both define a target called [lib] and a target whose
    name is, letter for letter, [gen*]. *)
Definition C5_targets (project : string) : gmap string Target :=
  <["lib" := mkTarget project "lib"]>
    (<["gen*" := mkTarget project "gen*"]> ∅).

Definition C5_repo : Repo :=
  mkRepo (<["a" := mkProject "a" "src/a" (C5_targets "a")]>
            (<["b" := mkProject "b" "src/b" (C5_targets "b")]> ∅))
    None.

(** ** The task graph (graph.go) *)

Record TaskGraph : Type := mkGraph {
  Tasks : gmap string Task;
  ReadyList : list string;
  CompleteList : list string
}.

Definition setDepDone (t : Task) (done : gset string) : Task :=
  mkTask (TaskName t) (Always t) (NoSkip t) (DepOn t) (DepBy t) done
    (State t) (TaskErr t).

Definition setState (t : Task) (st : TaskState) : Task :=
  mkTask (TaskName t) (Always t) (NoSkip t) (DepOn t) (DepBy t) (DepDone t)
    st (TaskErr t).

Definition setTaskErr (t : Task) (e : option error) : Task :=
  mkTask (TaskName t) (Always t) (NoSkip t) (DepOn t) (DepBy t) (DepDone t)
    (State t) e.

(** What [BuildTaskGraph] guarantees of the graph it returns: every task is
    filed under its name, dependencies are tasks of the graph, and [DepBy]
    is the converse of [DepOn]. *)
Definition graphWellFormed (tasks : gmap string Task) : Prop :=
  map_Forall (λ n t,
    TaskName t = n
    ∧ DepOn t ⊆ dom tasks
    ∧ DepBy t ⊆ dom tasks
    ∧ map_Forall (λ m t', m ∈ DepBy t ↔ n ∈ DepOn t') tasks) tasks.

(** The first loop of [Prepare], task by task: state, completed
    dependencies and error are reset, and a task without dependencies is
    ready. *)
Definition prepareTask (t : Task) : Task :=
  mkTask (TaskName t) (Always t) (NoSkip t) (DepOn t) (DepBy t) ∅
    (if decide (size (DepOn t) = 0%nat) then TaskReady else TaskNotReady) None.

(** The list [ready] (and [g.ReadyList]) after the first loop. *)
Definition initiallyReady (tasks : gmap string Task) : list string :=
  (filter (λ nt, size (DepOn nt.2) = 0%nat) (map_to_list tasks)).*1.

(** The set [notReady] after the first loop. *)
Definition initiallyNotReady (tasks : gmap string Task) : gset string :=
  dom (filter (λ nt, size (DepOn nt.2) ≠ 0%nat) tasks).

(** The body of the inner loop of the readiness pass, for the task [task]
    taken from the front of [ready] and one [depBy] of its [DepBy]. *)
Definition releaseStep (task : string)
    (st : gmap string Task * list string * gset string) (depBy : string)
  : gmap string Task * list string * gset string :=
  let '(tasks, ready, notReady) := st in
  match tasks !! depBy with
  | None => st
  | Some d =>
      let done := {[task]} ∪ DepDone d in
      if decide (size (DepOn d) ≤ size done)%nat then
        (<[depBy := setDepDone d ∅]> tasks, ready ++ [depBy], notReady ∖ {[depBy]})
      else (<[depBy := setDepDone d done]> tasks, ready, notReady)
  end.

(** The readiness pass: [for ready.Len() > 0].  The loop ends on graphs
    that [BuildTaskGraph] returns; [fuel] bounds the number of its
    iterations and [None] reports that the bound was reached. *)
Fixpoint prepareLoop (fuel : nat) (ready : list string)
    (tasks : gmap string Task) (notReady : gset string)
  : option (gmap string Task * gset string) :=
  match ready with
  | [] => Some (tasks, notReady)
  | task :: rest =>
      match fuel with
      | O => None
      | S fuel' =>
          let depBys := match tasks !! task with
                        | Some t => elements (DepBy t)
                        | None => []
                        end in
          let '(tasks', ready', notReady') :=
            foldl (releaseStep task) (tasks, rest, notReady) depBys in
          prepareLoop fuel' ready' tasks' notReady'
      end
  end.

(** [TaskGraph.Prepare] with a bound on the iterations of the readiness
    pass: the prepared graph and the set of tasks that were never
    released. *)
Definition PrepareWithin (fuel : nat) (g : TaskGraph)
  : option (TaskGraph * gset string) :=
  let tasks := prepareTask <$> Tasks g in
  match prepareLoop fuel (initiallyReady (Tasks g)) tasks
          (initiallyNotReady (Tasks g)) with
  | None => None
  | Some (tasks', notReady) =>
      Some (mkGraph tasks' (initiallyReady (Tasks g)) [], notReady)
  end.

(** [TaskGraph.Prepare]: every task is taken from [ready] at most once, so
    as many iterations as there are tasks are enough. *)
Definition Prepare (g : TaskGraph) : option (TaskGraph * gset string) :=
  PrepareWithin (size (Tasks g)) g.

(** [strings.Join(names, ",")]. *)
Fixpoint joinComma (names : list string) : string :=
  match names with
  | [] => EmptyString
  | [name] => name
  | name :: rest => name +:+ "," +:+ joinComma rest
  end.

(** [Repo.Plan], from the result [built] of [BuildTaskGraph] on: the graph,
    or the error. *)
Definition Plan (built : error + TaskGraph) : option (error + TaskGraph) :=
  match built with
  | inl e => Some (inl e)
  | inr g =>
      match Prepare g with
      | None => None
      | Some (g', cyclicTasks) =>
          if decide (0 < size cyclicTasks)%nat then
            Some (inl (ErrOther ("cyclic dependencies in "
                                 +:+ joinComma (elements cyclicTasks))))
          else Some (inr g')
      end
  end.

(** The dependency relation of a graph: [task] depends on [dep]. *)
Definition dependsOn (tasks : gmap string Task) (task dep : string) : Prop :=
  ∃ t, tasks !! task = Some t ∧ dep ∈ DepOn t.

(** The graph has a dependency cycle. *)
Definition cyclic (tasks : gmap string Task) : Prop :=
  ∃ c, tc (dependsOn tasks) c c.

(** The task is on a dependency cycle or depends, directly or through other
    tasks, on one that is. *)
Definition reachesCycle (tasks : gmap string Task) (task : string) : Prop :=
  ∃ c, rtc (dependsOn tasks) task c ∧ tc (dependsOn tasks) c c.

(** [needle] occurs in [text]. *)
Definition contains (text needle : string) : Prop :=
  ∃ before after, text = before +:+ needle +:+ after.

(** [TaskGraph.Complete]: one step of the loop over [task.DepBy]. *)
Definition completeStep (task : string) (g : TaskGraph) (depBy : string)
  : TaskGraph :=
  match Tasks g !! depBy with
  | None => g
  | Some d =>
      let d1 := setDepDone d ({[task]} ∪ DepDone d) in
      if decide (size (DepOn d1) ≤ size (DepDone d1))%nat then
        mkGraph (<[depBy := setState d1 TaskReady]> (Tasks g))
          (ReadyList g ++ [depBy]) (CompleteList g)
      else mkGraph (<[depBy := d1]> (Tasks g)) (ReadyList g) (CompleteList g)
  end.

(** [TaskGraph.Complete]. *)
Definition Complete (g : TaskGraph) (task : string) : TaskGraph :=
  match Tasks g !! task with
  | None => g
  | Some t =>
      let g1 := mkGraph (<[task := setState t TaskCompleted]> (Tasks g))
                  (ReadyList g) (CompleteList g ++ [task]) in
      if err_failed (TaskErr t) then g1
      else foldl (completeStep task) g1 (elements (DepBy t))
  end.

(** Example graphs: the cycle [a -> b -> c -> a] with a task [d] that
    depends on [a] and a task [e] without dependencies; and the diamond
    [a -> {b, c}], [b -> d], [c -> d]. *)
Definition newTask (name : string) (depOn depBy : list string) : Task :=
  mkTask name false false (list_to_set depOn) (list_to_set depBy) ∅
    TaskNotReady None.

Definition cycleGraph : TaskGraph :=
  mkGraph (list_to_map
             [("p:a", newTask "p:a" ["p:b"] ["p:c"; "p:d"]);
              ("p:b", newTask "p:b" ["p:c"] ["p:a"]);
              ("p:c", newTask "p:c" ["p:a"] ["p:b"]);
              ("p:d", newTask "p:d" ["p:a"] []);
              ("p:e", newTask "p:e" [] [])]) [] [].

Definition diamondGraph : TaskGraph :=
  mkGraph (list_to_map
             [("p:a", newTask "p:a" ["p:b"; "p:c"] []);
              ("p:b", newTask "p:b" ["p:d"] ["p:a"]);
              ("p:c", newTask "p:c" ["p:d"] ["p:a"]);
              ("p:d", newTask "p:d" [] ["p:b"; "p:c"])]) [] [].

(** ** The invariant of the readiness pass

    [g0] is the graph [Prepare] was called on, [P] the set of tasks already
    taken from [ready], [task] the task whose [DepBy] is being walked and
    [pend] the part of that set still to be visited. *)
Record prepInv (g0 : gmap string Task) (P : gset string) (task : string)
    (pend : gset string) (ready : list string) (tasks : gmap string Task)
    (notReady : gset string) : Prop := mkPrepInv {
  pi_tasks : ∀ n,
    match tasks !! n, g0 !! n with
    | Some x, Some x0 => x = setDepDone (prepareTask x0) (DepDone x)
    | None, None => True
    | _, _ => False
    end;
  pi_nodup : NoDup ready;
  pi_cover : P ∪ list_to_set ready ∪ notReady = dom g0;
  pi_disj1 : P ## list_to_set (C := gset string) ready;
  pi_disj2 : P ## notReady;
  pi_disj3 : list_to_set (C := gset string) ready ## notReady;
  pi_pend : ∀ n, n ∈ pend → n ∈ notReady ∧ task ∈ P ∧ n ∈
              match g0 !! task with Some t0 => DepBy t0 | None => ∅ end;
  pi_released : ∀ n x, n ∈ P ∪ list_to_set ready → tasks !! n = Some x →
    DepOn x ⊆ P ∧ DepDone x = ∅;
  pi_waiting : ∀ n x, n ∈ notReady → tasks !! n = Some x →
    DepDone x = DepOn x ∩ (if decide (n ∈ pend) then P ∖ {[task]} else P)
    ∧ (size (DepDone x) < size (DepOn x))%nat;
  pi_acc : ∀ n, n ∈ P ∪ list_to_set ready →
    Acc (λ d m, dependsOn g0 m d) n
}.

(** ** The dispatcher (dispatcher.go)

    The coordinator is sequential; what it cannot decide itself is decided
    by a schedule: which branch a [select] takes, in which order the
    results of the workers arrive, what the executor of a task returns, and
    which queued tasks a worker still picks up during shutdown. *)

Record Schedule : Type := mkSchedule {
  (** the [n]-th [select] of the coordinator finds the context done, with
      this error message *)
  sel_cancel : nat → option string;
  (** what the [n]-th [select] of [waitResults] receives otherwise: an
      event ([None]) or the result of the task at this position among the
      tasks in flight *)
  sel_arrival : nat → option nat;
  (** the error [executeTask] returns for a task *)
  sel_outcome : string → option error;
  (** at shutdown, whether a worker has taken the task from the request
      channel *)
  sel_picked : string → bool
}.

(** What the event handler and the workers observe, in order. *)
Inductive Event : Type :=
| EvHanded (task : string)
| EvCompleted (task : string) (err : option error)
| EvRequeued (task : string).

(** [execution], with the tasks in flight (sent on the request channel and
    not yet completed by the coordinator) in place of the channels. *)
Record execution : Type := mkExec {
  graph : TaskGraph;
  runningCount : Z;
  numWorkers : Z;
  inflight : list string;
  selects : nat;
  trace : list Event
}.

(** [execution.haveWorkToDo]. *)
Definition haveWorkToDo (x : execution) : bool :=
  (length (CompleteList (graph x)) <? size (Tasks (graph x)))%nat.

Definition setTaskState (g : TaskGraph) (task : string) (st : TaskState)
  : TaskGraph :=
  mkGraph (alter (λ t, setState t st) task (Tasks g)) (ReadyList g)
    (CompleteList g).

(** [execution.enqueue].  [ready] is [x.graph.ReadyList]. *)
Fixpoint enqueue (s : Schedule) (ready : list string) (x : execution)
  : execution * option error :=
  if (runningCount x <? numWorkers x)%Z then
    match ready with
    | [] => (x, None)
    | task :: rest =>
        match sel_cancel s (selects x) with
        | Some msg =>
            (mkExec (setTaskState (graph x) task TaskReady) (runningCount x)
               (numWorkers x) (inflight x) (S (selects x)) (trace x),
             Some (ErrContext msg))
        | None =>
            enqueue s rest
              (mkExec (mkGraph (alter (λ t, setState t TaskQueued) task
                                  (Tasks (graph x)))
                         rest (CompleteList (graph x)))
                 (runningCount x + 1) (numWorkers x) (inflight x ++ [task])
                 (S (selects x)) (trace x ++ [EvHanded task]))
        end
    end
  else (x, None).

(** What the worker leaves in the task before it posts it on the result
    channel: the error of the executor and the state [TaskCompleted]. *)
Definition workerFinish (s : Schedule) (g : TaskGraph) (task : string)
  : TaskGraph :=
  mkGraph (alter (λ t, setState (setTaskErr t (sel_outcome s task)) TaskCompleted)
             task (Tasks g))
    (ReadyList g) (CompleteList g).

(** [execution.complete], for a task received from the result channel. *)
Definition complete (s : Schedule) (x : execution) (task : string) : execution :=
  mkExec (Complete (workerFinish s (graph x) task) task) (runningCount x - 1)
    (numWorkers x) (filter (λ t, t ≠ task) (inflight x)) (selects x)
    (trace x ++ [EvCompleted task (sel_outcome s task)]).

Definition tick (x : execution) : execution :=
  mkExec (graph x) (runningCount x) (numWorkers x) (inflight x)
    (S (selects x)) (trace x).

(** [execution.waitResults]. *)
Definition waitResults (s : Schedule) (x : execution) : execution * option error :=
  match sel_cancel s (selects x) with
  | Some msg => (tick x, Some (ErrContext msg))
  | None =>
      match sel_arrival s (selects x) with
      | None => (tick x, None)
      | Some i =>
          match inflight x !! i with
          | None => (tick x, None)
          | Some task => (complete s (tick x) task, None)
          end
      end
  end.

(** How the main loop of [run] ended: it left the loop with this value of
    [err], or the bound on its iterations was reached first. *)
Inductive loopResult : Type :=
| LoopLeft (err : option error)
| LoopBound.

(** The main loop of [execution.run]. *)
Fixpoint runLoop (fuel : nat) (s : Schedule) (x : execution)
  : execution * loopResult :=
  if haveWorkToDo x then
    match fuel with
    | O => (x, LoopBound)
    | S fuel' =>
        match enqueue s (ReadyList (graph x)) x with
        | (x1, Some e) => (x1, LoopLeft (Some e))
        | (x1, None) =>
            if (runningCount x1 =? 0)%Z then (x1, LoopLeft None)
            else
              match waitResults s x1 with
              | (x2, Some e) => (x2, LoopLeft (Some e))
              | (x2, None) => runLoop fuel' s x2
              end
        end
    end
  else (x, LoopLeft None).

(** Draining the request channel: a task no worker picked up is ready
    again, at the front of the ready list. *)
Definition requeue (x : execution) (task : string) : execution :=
  mkExec (mkGraph (alter (λ t, setState t TaskReady) task (Tasks (graph x)))
            (task :: ReadyList (graph x)) (CompleteList (graph x)))
    (runningCount x - 1) (numWorkers x)
    (filter (λ t, t ≠ task) (inflight x)) (selects x)
    (trace x ++ [EvRequeued task]).

(** The shutdown of [run]: the tasks in flight that no worker picked up are
    requeued, the others are completed. *)
Definition shutdown (s : Schedule) (x : execution) : execution :=
  let unpicked := filter (λ t, sel_picked s t = false) (inflight x) in
  let picked := filter (λ t, sel_picked s t = true) (inflight x) in
  foldl (complete s) (foldl requeue x unpicked) picked.

(** [execution.run]. *)
Definition run (fuel : nat) (s : Schedule) (x : execution)
  : execution * loopResult :=
  match runLoop fuel s x with
  | (x1, LoopBound) => (x1, LoopBound)
  | (x1, LoopLeft err) =>
      let x2 := shutdown s x1 in
      let err' :=
        match err with
        | None => if haveWorkToDo x2 then Some ErrIncomplete else None
        | Some e => Some e
        end in
      (x2, LoopLeft err')
  end.

(** [Dispatcher.Run] on the graph [g] with [NumWorkers] workers ([numCPU]
    when that is zero); [logError] is the error of creating the log file
    (the message of the source also quotes the name of that file). *)
Definition Run (fuel : nat) (s : Schedule) (numCPU NumWorkers : Z)
    (logError : option string) (g : TaskGraph) : execution * loopResult :=
  let x := mkExec g 0 (if (NumWorkers =? 0)%Z then numCPU else NumWorkers)
             [] 0 [] in
  match logError with
  | Some msg => (x, LoopLeft (Some (ErrOther ("create log file error: " +:+ msg))))
  | None => run fuel s x
  end.

(** A schedule without cancellation in which results arrive in the order
    of the hand-over and every task succeeds, except those listed in
    [failing]. *)
Definition fifoSchedule (failing : list string) : Schedule :=
  mkSchedule (λ _, None) (λ _, Some 0%nat)
    (λ t, if bool_decide (t ∈ failing) then Some (ErrOther "exit status 1")
          else None)
    (λ _, true).

(** A graph with the single task [p:a], and the chain in which [p:b]
    depends on [p:a], as [BuildTaskGraph] returns them. *)
Definition singleGraph : TaskGraph :=
  mkGraph (list_to_map [("p:a", newTask "p:a" [] [])]) [] [].

Definition chainGraph : TaskGraph :=
  mkGraph (list_to_map [("p:a", newTask "p:a" [] ["p:b"]);
                        ("p:b", newTask "p:b" ["p:a"] [])]) [] [].

(** ** The invariant of the dispatcher

    [g0] holds the tasks of the planned graph, for their dependencies.  A
    dependency is done when it is on the complete list and did not fail. *)
Definition completedOK (g : TaskGraph) (d : string) : Prop :=
  d ∈ CompleteList g
  ∧ ∃ y, Tasks g !! d = Some y ∧ err_failed (TaskErr y) = false.

(** The tasks that were released: ready, in flight or completed. *)
Definition released (g : TaskGraph) (infl : list string) : list string :=
  ReadyList g ++ infl ++ CompleteList g.

(** While [Complete task] walks [task.DepBy], [pend] is the part of that
    set still to be visited; it is empty otherwise. *)
Record dispInv (g0 : gmap string Task) (task : string) (pend : gset string)
    (g : TaskGraph) (infl : list string) (tr : list Event) : Prop := mkDispInv {
  di_static : ∀ n,
    match Tasks g !! n, g0 !! n with
    | Some y, Some y0 =>
        DepOn y = DepOn y0 ∧ DepBy y = DepBy y0 ∧ TaskName y = TaskName y0
    | None, None => True
    | _, _ => False
    end;
  di_nodup : NoDup (released g infl);
  di_indom : ∀ n, n ∈ released g infl → n ∈ dom g0;
  di_pend : ∀ n, n ∈ pend →
    completedOK g task
    ∧ ∃ t0, g0 !! task = Some t0 ∧ n ∈ DepBy t0;
  di_done : ∀ n y d, Tasks g !! n = Some y →
    (d ∈ DepDone y
     ↔ d ∈ DepOn y ∧ completedOK g d ∧ ¬ (d = task ∧ n ∈ pend));
  di_released : ∀ n y, Tasks g !! n = Some y → n ∈ released g infl →
    DepDone y = DepOn y;
  di_waiting : ∀ n y, Tasks g !! n = Some y → n ∉ released g infl →
    State y = TaskNotReady;
  di_handed : ∀ t, EvHanded t ∈ tr → t ∈ released g infl;
  di_completed : ∀ d e,
    EvCompleted d e ∈ tr
    ↔ d ∈ CompleteList g ∧ ∃ y, Tasks g !! d = Some y ∧ TaskErr y = e;
  di_order : ∀ tr1 t tr2 y0 d,
    tr = tr1 ++ EvHanded t :: tr2 → g0 !! t = Some y0 → d ∈ DepOn y0 →
    ∃ e, EvCompleted d e ∈ tr1 ∧ err_failed e = false
}.

(** The invariant between two calls of [Complete]. *)
Definition dispOK (g0 : gmap string Task) (x : execution) : Prop :=
  ∃ task, dispInv g0 task ∅ (graph x) (inflight x) (trace x).

(** * Properties *)

(** ** The skip decision of the dispatcher *)

Lemma depsLoop_forallb store result deps :
  depsLoop store result deps = forallb (depKeepsSkippable store result) deps.
Proof.
  induction deps as [|dep rest IH]; simpl; [done|].
  rewrite IH. by destruct (depKeepsSkippable store result dep).
Qed.

(** The loop over the dependencies does not depend on the order in which Go
    happens to enumerate [task.DepOn]. *)
Lemma depsLoop_Permutation store result deps1 deps2 :
  deps1 ≡ₚ deps2 → depsLoop store result deps1 = depsLoop store result deps2.
Proof.
  intros Hp. rewrite !depsLoop_forallb.
  induction Hp as [|x l1 l2 _ IH|x y l|l1 l2 l3 _ IH1 _ IH2]; simpl.
  - done.
  - by rewrite IH.
  - destruct (depKeepsSkippable store result x),
             (depKeepsSkippable store result y); done.
  - congruence.
Qed.

Lemma depKeepsSkippable_spec store result dep :
  depKeepsSkippable store result dep = true ↔
    err_skipped (TaskErr dep) = true
    ∧ SuccessBuildStartTime (loadTaskResult store (TaskName dep)) ≠ 0
    ∧ SuccessBuildEndTime (loadTaskResult store (TaskName dep)) ≠ 0
    ∧ SuccessBuildStartTime (loadTaskResult store (TaskName dep))
        ≤ SuccessBuildStartTime result
    ∧ SuccessBuildEndTime (loadTaskResult store (TaskName dep))
        ≤ SuccessBuildStartTime result.
Proof.
  unfold depKeepsSkippable.
  destruct (err_skipped (TaskErr dep)); simpl; [|naive_solver].
  set (dr := loadTaskResult store (TaskName dep)).
  destruct (Z.eqb_spec (SuccessBuildStartTime dr) 0) as [E1|E1]; simpl;
    [naive_solver|].
  destruct (Z.eqb_spec (SuccessBuildEndTime dr) 0) as [E2|E2]; simpl;
    [naive_solver|].
  destruct (Z.gtb_spec (SuccessBuildStartTime dr) (SuccessBuildStartTime result));
    simpl; [split; [done|lia]|].
  destruct (Z.gtb_spec (SuccessBuildEndTime dr) (SuccessBuildStartTime result));
    simpl; [split; [done|lia]|].
  split; [intros _; repeat split; lia|done].
Qed.

(** C1, as the code has it: the flag handed to the executor is [true]
    exactly when the target is not marked "always", the task is not forced,
    the task has a previous successful build (both success time stamps are
    non-zero), and every dependency was skipped in this run, has a previous
    successful build, and neither started nor ended that build later than
    the previous successful start of the task.  Equal time stamps keep the
    task skippable. *)
Theorem skippableFlag_iff store task (deps : list Task) :
  skippableFlag store task deps = true ↔
    Always task = false
    ∧ NoSkip task = false
    ∧ SuccessBuildStartTime (loadTaskResult store (TaskName task)) ≠ 0
    ∧ SuccessBuildEndTime (loadTaskResult store (TaskName task)) ≠ 0
    ∧ ∀ dep, dep ∈ deps →
        err_skipped (TaskErr dep) = true
        ∧ SuccessBuildStartTime (loadTaskResult store (TaskName dep)) ≠ 0
        ∧ SuccessBuildEndTime (loadTaskResult store (TaskName dep)) ≠ 0
        ∧ SuccessBuildStartTime (loadTaskResult store (TaskName dep))
            ≤ SuccessBuildStartTime (loadTaskResult store (TaskName task))
        ∧ SuccessBuildEndTime (loadTaskResult store (TaskName dep))
            ≤ SuccessBuildStartTime (loadTaskResult store (TaskName task)).
Proof.
  unfold skippableFlag.
  set (result := loadTaskResult store (TaskName task)).
  assert (Hloop : depsLoop store result deps = true ↔
            ∀ dep, dep ∈ deps → depKeepsSkippable store result dep = true).
  { rewrite depsLoop_forallb, forallb_forall.
    split; intros H dep Hd; apply H; by apply list_elem_of_In. }
  destruct (Z.eqb_spec (SuccessBuildStartTime result) 0) as [E1|E1]; simpl;
    [naive_solver|].
  destruct (Z.eqb_spec (SuccessBuildEndTime result) 0) as [E2|E2]; simpl;
    [naive_solver|].
  destruct (Always task); simpl; [naive_solver|].
  destruct (NoSkip task); simpl; [naive_solver|].
  rewrite Hloop. split.
  - intros H. repeat split; try done.
    all: apply H in H0; apply depKeepsSkippable_spec in H0; naive_solver.
  - intros (_ & _ & _ & _ & H) dep Hd.
    apply depKeepsSkippable_spec. by apply H.
Qed.

(** C1, counterexample to the wording "strictly older": the dependency
    [p:d] was skipped and its last successful build ended at instant 5, the
    very instant at which the last successful build of [p:t] started.  The
    code keeps [p:t] skippable although the build of the dependency is not
    strictly older. *)
Lemma skippableFlag_not_strict :
  skippableFlag C1_store C1_task [C1_dep] = true
  ∧ ¬ skippableAsSpecified C1_store C1_task [C1_dep].
Proof.
  split; [reflexivity|]. intros (_ & _ & _ & _ & H).
  destruct (H C1_dep) as (_ & _ & _ & _ & Hlt); [by left|].
  vm_compute in Hlt. discriminate.
Qed.

(** ** Recording the result of a run *)

(** C9: a run that succeeds rewrites the time stamps and the skipped flag
    of the result and leaves the error message loaded from the previous
    result file in place; hence after a failed run followed by a successful
    one, the result file carries the message of the failed run next to the
    success time stamps of the second run, which are non-zero. *)
Theorem writeTaskResult_keeps_error (store : ResultStore) name hasTool1 hasTool2
    (s1 f1 s2 f2 : Z) (e : error) :
  e ≠ ErrSkipped → s2 ≠ 0 → f2 ≠ 0 →
  (∀ st h s f,
     ∃ r, workerRecord st name h s f None true !! name = Some (ResultJSON r)
          ∧ Err r = Err (loadTaskResult st name)
          ∧ StartTime r = s ∧ EndTime r = f
          ∧ SuccessBuildStartTime r = s ∧ SuccessBuildEndTime r = f
          ∧ Skipped r = false)
  ∧ ∃ r2,
      workerRecord (workerRecord store name hasTool1 s1 f1 (Some e) true)
        name hasTool2 s2 f2 None true !! name = Some (ResultJSON r2)
      ∧ Err r2 = Some (error_message e)
      ∧ SuccessBuildStartTime r2 ≠ 0 ∧ SuccessBuildEndTime r2 ≠ 0.
Proof.
  intros He Hs Hf. split.
  - intros st h s f. unfold workerRecord, writeTaskResult.
    eexists. rewrite lookup_insert_eq. split; [done|]. by simpl.
  - unfold workerRecord, writeTaskResult.
    eexists. rewrite lookup_insert_eq. split; [done|].
    unfold loadTaskResult at 1, loadTaskResultFrom at 1.
    destruct hasTool1; rewrite lookup_insert_eq; destruct e; done.
Qed.

Lemma writeTaskResult_keeps_error_witness :
  ∃ r2,
    workerRecord (workerRecord ∅ "p:t" true 10 20 (Some (ErrOther "exit status 1")) true)
      "p:t" true 30 40 None true !! "p:t" = Some (ResultJSON r2)
    ∧ Err r2 = Some "exit status 1"
    ∧ SuccessBuildStartTime r2 ≠ 0 ∧ SuccessBuildEndTime r2 ≠ 0.
Proof.
  apply (writeTaskResult_keeps_error ∅ "p:t" true true 10 20 30 40
           (ErrOther "exit status 1")); [done|lia|lia].
Defined.

(** ** Locating the repository root *)

(** One turn of the loop while the condition of the [for] holds. *)
Lemma locateLoop_walking load wd found :
  walking found →
  locateLoop load wd found =
    match load wd with
    | LoadError msg => inl (ErrOther ("check REPOS.yaml error: " +:+ msg))
    | res =>
        let found' := match res with
                      | LoadOK m => Some (m, wd)
                      | _ => found
                      end in
        match wd with
        | [] => inr found'
        | _ :: parent => locateLoop load parent found'
        end
    end.
Proof.
  intros Hw. destruct found as [[m0 d0]|]; simpl in Hw.
  - destruct wd; simpl; by rewrite Hw.
  - by destruct wd.
Qed.

Lemma locateLoop_absolute load wd m d :
  AbsoluteRoot m = true → locateLoop load wd (Some (m, d)) = inr (Some (m, d)).
Proof. intros Ha. destruct wd; simpl; by rewrite Ha. Qed.

Lemma locateLoop_none load wd found :
  walking found →
  (∀ k, (k ≤ length wd)%nat → load (ancestor k wd) = LoadNotExist) →
  locateLoop load wd found = inr found.
Proof.
  intros Hw. induction wd as [|c p IH]; intros Hall;
    rewrite locateLoop_walking by done;
    pose proof (Hall 0%nat ltac:(simpl; lia)) as H0;
    unfold ancestor in H0; simpl in H0; rewrite H0; [done|].
  apply IH. intros k Hk. apply (Hall (S k)). simpl. lia.
Qed.

Lemma locateLoop_settles load wd found k m :
  walking found → settlesOn load wd k m →
  locateLoop load wd found = inr (Some (m, ancestor k wd)).
Proof.
  revert found k. induction wd as [|c p IH]; intros found k Hw (Hk & Hl & Hbef & Haft).
  - simpl in Hk. replace k with 0%nat in * by lia.
    rewrite locateLoop_walking by done. unfold ancestor in Hl. simpl in Hl.
    by rewrite Hl.
  - rewrite locateLoop_walking by done. destruct k as [|k].
    + unfold ancestor in *. simpl in Hl. rewrite Hl. simpl.
      destruct Haft as [Ha|Haft]; [by apply locateLoop_absolute|].
      destruct (AbsoluteRoot m) eqn:Ha; [by apply locateLoop_absolute|].
      apply locateLoop_none; [done|].
      intros j Hj. apply (Haft (S j)). simpl. lia.
    + assert (Hset : settlesOn load p k m).
      { split_and!; [simpl in Hk; lia|done| |].
        - intros j Hj. apply (Hbef (S j)). lia.
        - destruct Haft as [Ha|Haft]; [by left|right].
          intros j Hj. apply (Haft (S j)). simpl. lia. }
      destruct (Hbef 0%nat ltac:(lia)) as [H0|(m0 & H0 & Ha0)];
        unfold ancestor in H0; simpl in H0; rewrite H0; by apply IH.
Qed.

Lemma locateLoop_fails load wd found k msg :
  walking found → (k ≤ length wd)%nat →
  load (ancestor k wd) = LoadError msg →
  (∀ j, (j < k)%nat → walksPast load (ancestor j wd)) →
  locateLoop load wd found = inl (ErrOther ("check REPOS.yaml error: " +:+ msg)).
Proof.
  revert found k. induction wd as [|c p IH]; intros found k Hw Hk Hl Hbef.
  - simpl in Hk. replace k with 0%nat in * by lia.
    rewrite locateLoop_walking by done. unfold ancestor in Hl. simpl in Hl.
    by rewrite Hl.
  - rewrite locateLoop_walking by done. destruct k as [|k].
    + unfold ancestor in Hl. simpl in Hl. by rewrite Hl.
    + assert (Hbef' : ∀ j, (j < k)%nat → walksPast load (ancestor j p)).
      { intros j Hj. apply (Hbef (S j)). lia. }
      simpl in Hk.
      destruct (Hbef 0%nat ltac:(lia)) as [H0|(m0 & H0 & Ha0)];
        unfold ancestor in H0; simpl in H0; rewrite H0;
        apply (IH _ k); try done; lia.
Qed.

(** What the directories hold decides the walk: it settles on an ancestor,
    it meets a root file that does not load, or no ancestor holds a root
    file. *)
Lemma walk_cases load (wd : dirpath) :
  (∃ k m, settlesOn load wd k m)
  ∨ (∃ k msg, (k ≤ length wd)%nat ∧ load (ancestor k wd) = LoadError msg
              ∧ ∀ j, (j < k)%nat → walksPast load (ancestor j wd))
  ∨ (∀ k, (k ≤ length wd)%nat → load (ancestor k wd) = LoadNotExist).
Proof.
  induction wd as [|c p IH].
  - destruct (load []) as [m| |msg] eqn:Hl.
    + left. exists 0%nat, m. split_and!; [done|done|intros; lia|].
      right. simpl. intros; lia.
    + right; right. intros k Hk. simpl in Hk. by replace k with 0%nat by lia.
    + right; left. exists 0%nat, msg. split_and!; [done|done|intros; lia].
  - assert (Hlift : ∀ k m, walksPast load (c :: p) → settlesOn load p k m →
                      settlesOn load (c :: p) (S k) m).
    { intros k m H0 (Hk & Hl & Hbef & Haft). split_and!; [simpl; lia|done| |].
      - intros [|j] Hj; [done|]. apply Hbef. lia.
      - destruct Haft as [Ha|Haft]; [by left|right].
        intros [|j] Hj; [lia|]. apply Haft. simpl in Hj. lia. }
    assert (Hfail : ∀ k msg, walksPast load (c :: p) → (k ≤ length p)%nat →
              load (ancestor k p) = LoadError msg →
              (∀ j, (j < k)%nat → walksPast load (ancestor j p)) →
              ∃ k' msg', (k' ≤ length (c :: p))%nat
                ∧ load (ancestor k' (c :: p)) = LoadError msg'
                ∧ ∀ j, (j < k')%nat → walksPast load (ancestor j (c :: p))).
    { intros k msg H0 Hk Hl Hbef. exists (S k), msg.
      split_and!; [simpl; lia|done|].
      intros [|j] Hj; [done|]. apply Hbef. lia. }
    destruct (load (c :: p)) as [m| |msg] eqn:Hl.
    + destruct (AbsoluteRoot m) eqn:Ha.
      { left. exists 0%nat, m. split_and!; [simpl; lia|done|intros; lia|by left]. }
      assert (H0 : walksPast load (c :: p)) by (right; eauto).
      destruct IH as [(k & m' & Hset)|[(k & msg & Hk & Hle & Hbef)|Hall]].
      * left. exists (S k), m'. by apply Hlift.
      * right; left. by eapply Hfail.
      * left. exists 0%nat, m. split_and!; [simpl; lia|done|intros; lia|].
        right. intros [|j] Hj; [lia|]. apply Hall. simpl in Hj. lia.
    + assert (H0 : walksPast load (c :: p)) by by left.
      destruct IH as [(k & m' & Hset)|[(k & msg & Hk & Hle & Hbef)|Hall]].
      * left. exists (S k), m'. by apply Hlift.
      * right; left. by eapply Hfail.
      * right; right. intros [|k] Hk; [done|]. apply Hall. simpl in Hk. lia.
    + right; left. exists 0%nat, msg. split_and!; [simpl; lia|done|intros; lia].
Qed.

(** C7, as the code has it.  [LocateRoot] succeeds, and sets the root to an
    ancestor of the working directory (or to that directory itself),
    exactly when the walk settles there: the ancestor holds a root file
    that loads, every directory below it on the way holds no root file or
    one that is not marked "absolute root", and the root file found is
    marked "absolute root" or no directory above holds a root file, so that
    the chosen one is the topmost.  It fails with the error of the load
    exactly when the walk meets a root file that does not load before it
    settles.  It fails with an error wrapping [os.ErrNotExist] exactly when
    no ancestor holds a root file. *)
Theorem LocateRoot_spec load (wd : dirpath) :
  (∀ d m, LocateRoot load wd = inr (d, m)
          ↔ ∃ k, d = ancestor k wd ∧ settlesOn load wd k m)
  ∧ (∀ e, (LocateRoot load wd = inl e ∧ ∀ msg, e ≠ ErrNotExist msg)
          ↔ ∃ k msg, (k ≤ length wd)%nat
                     ∧ load (ancestor k wd) = LoadError msg
                     ∧ (∀ j, (j < k)%nat → walksPast load (ancestor j wd))
                     ∧ e = ErrOther ("check REPOS.yaml error: " +:+ msg))
  ∧ ((∃ msg, LocateRoot load wd = inl (ErrNotExist msg))
     ↔ ∀ k, (k ≤ length wd)%nat → load (ancestor k wd) = LoadNotExist).
Proof.
  assert (Hrun :
    (∃ k m, settlesOn load wd k m
            ∧ LocateRoot load wd = inr (ancestor k wd, m))
    ∨ (∃ k msg, (k ≤ length wd)%nat ∧ load (ancestor k wd) = LoadError msg
                ∧ (∀ j, (j < k)%nat → walksPast load (ancestor j wd))
                ∧ LocateRoot load wd
                  = inl (ErrOther ("check REPOS.yaml error: " +:+ msg)))
    ∨ ((∀ k, (k ≤ length wd)%nat → load (ancestor k wd) = LoadNotExist)
       ∧ LocateRoot load wd
         = inl (ErrNotExist "find REPOS.yaml failed: file does not exist"))).
  { unfold LocateRoot.
    destruct (walk_cases load wd)
      as [(k & m & Hset)|[(k & msg & Hk & Hle & Hbef)|Hall]].
    - left. exists k, m. split; [done|].
      by rewrite (locateLoop_settles load wd None k m).
    - right; left. exists k, msg. split_and!; try done.
      by rewrite (locateLoop_fails load wd None k msg).
    - right; right. split; [done|]. by rewrite locateLoop_none. }
  split_and!.
  - intros d m. split.
    + intros Hr.
      destruct Hrun as [(k & m' & Hset & Heq)|[(k & msg & _ & _ & _ & Heq)|[_ Heq]]];
        rewrite Heq in Hr; [|done..].
      injection Hr as <- <-. eauto.
    + intros (k & -> & Hset). unfold LocateRoot.
      by rewrite (locateLoop_settles load wd None k m).
  - intros e. split.
    + intros [Hr Hne].
      destruct Hrun as [(k & m' & _ & Heq)|[(k & msg & Hk & Hle & Hbef & Heq)|[_ Heq]]];
        rewrite Heq in Hr; [done| |].
      * injection Hr as <-. exists k, msg. by split_and!.
      * injection Hr as <-. by destruct (Hne _ eq_refl).
    + intros (k & msg & Hk & Hle & Hbef & ->). unfold LocateRoot.
      by rewrite (locateLoop_fails load wd None k msg).
  - split.
    + intros [msg Hr].
      destruct Hrun as [(k & m' & _ & Heq)|[(k & msg' & _ & _ & _ & Heq)|[Hall _]]];
        [rewrite Heq in Hr; done..|done].
    + intros Hall. eexists. unfold LocateRoot. by rewrite locateLoop_none.
Qed.

(** The walk of [/a/b] in a tree with unmarked root files in [/a/b] and in
    [/a] succeeds and sets the root to [/a]. *)
Lemma LocateRoot_spec_witness :
  LocateRoot C7_load ["b"; "a"] = inr (["a"], mkRoot "data" "" [] false).
Proof.
  apply (proj1 (LocateRoot_spec C7_load ["b"; "a"])).
  exists 1%nat. split; [done|]. split_and!.
  - simpl. lia.
  - done.
  - intros j Hj. replace j with 0%nat by lia. right. by eexists.
  - right. intros j Hj. simpl in Hj. by replace j with 2%nat by lia.
Defined.

(** C7, counterexample to "the nearest ancestor containing the
    root-metadata file": with root files in [/a/b] and in [/a], neither
    marked "absolute root", and the working directory [/a/b], the walk goes
    on past [/a/b] and settles on [/a], although [/a/b] is the nearest
    directory that holds a root file. *)
Lemma LocateRoot_not_nearest :
  LocateRoot C7_load ["b"; "a"] = inr (["a"], mkRoot "data" "" [] false)
  ∧ nearestWithRootFile C7_load ["b"; "a"] ["b"; "a"]
  ∧ ¬ nearestWithRootFile C7_load ["b"; "a"] ["a"].
Proof.
  split; [reflexivity|]. split.
  - exists 0%nat, (mkRoot "" "" [] false). split_and!; [done|done|intros; lia].
  - intros (k & m & Hd & Hl & Hmin).
    destruct k as [|[|k]]; [done| |by destruct k].
    by apply (Hmin 0%nat ltac:(lia) (mkRoot "" "" [] false)).
Qed.

(** ** Verification of the cache *)

Lemma compareKeysLoop_None {A B} (es : list (string * A)) (m2 : gmap string B) nf :
  compareKeysLoop es m2 nf = None ↔ ∀ fn a, (fn, a) ∈ es → is_Some (m2 !! fn).
Proof.
  induction es as [|[fn a] rest IH]; simpl.
  - split; [intros _ fn a Hin; by apply elem_of_nil in Hin|done].
  - destruct (m2 !! fn) as [b|] eqn:Hl.
    + rewrite IH. split.
      * intros H fn' a' [[= -> ->]|Hin]%elem_of_cons; eauto.
      * intros H fn' a' Hin. apply (H fn' a'). by right.
    + split; [done|]. intros H.
      destruct (H fn a) as [b Hb]; [by left|congruence].
Qed.

(** Equal sizes and every key of the first map present in the second: the
    way the source compares key sets. *)
Lemma compareKeys_dom {A B} (m1 : gmap string A) (m2 : gmap string B) nf :
  size m1 = size m2 ∧ compareKeysLoop (map_to_list m1) m2 nf = None
  ↔ dom m1 = dom m2.
Proof.
  rewrite compareKeysLoop_None. split.
  - intros [Hsz Hin]. apply set_subseteq_size_eq.
    + intros fn [a Ha]%elem_of_dom. apply elem_of_dom.
      apply (Hin fn a). by apply elem_of_map_to_list.
    + rewrite !size_dom. lia.
  - intros Hdom. split.
    + by rewrite <- !(size_dom (D := gset string)), Hdom.
    + intros fn a Hin%elem_of_map_to_list.
      apply elem_of_dom. rewrite <- Hdom. apply elem_of_dom. eauto.
Qed.

Lemma compareFileEntryKeys_None m1 m2 title :
  compareFileEntryKeys m1 m2 title = None ↔ dom m1 = dom m2.
Proof.
  rewrite <- (compareKeys_dom m1 m2 (DiagNotFound title)).
  unfold compareFileEntryKeys. case_bool_decide; simpl; naive_solver.
Qed.

Lemma compareExtraTaskOutputs_None m1 m2 :
  compareExtraTaskOutputs m1 m2 = None ↔ dom m1 = dom m2.
Proof.
  rewrite <- (compareKeys_dom m1 m2 DiagExtraNotFound).
  unfold compareExtraTaskOutputs. case_bool_decide; simpl; naive_solver.
Qed.

Lemma compareMapsLoop_None es m2 title :
  compareMapsLoop es m2 title = None
  ↔ ∀ fn e, (fn, e) ∈ es → m2 !! fn = Some e.
Proof.
  induction es as [|[fn e1] rest IH]; simpl.
  - split; [intros _ fn a Hin; by apply elem_of_nil in Hin|done].
  - destruct (m2 !! fn) as [e2|] eqn:Hl.
    + destruct e1 as [d1 t1], e2 as [d2 t2]; simpl.
      case_bool_decide as Hd; simpl; cycle 1.
      { split; [done|]. intros H.
        specialize (H fn (mkFileEntry d1 t1) ltac:(by left)). congruence. }
      case_bool_decide as Ht; simpl; cycle 1.
      { split; [done|]. intros H.
        specialize (H fn (mkFileEntry d1 t1) ltac:(by left)). congruence. }
      subst. rewrite IH. split.
      * intros H fn' a' [[= -> ->]|Hin]%elem_of_cons; eauto.
      * intros H fn' a' Hin. apply (H fn' a'). by right.
    + split; [done|]. intros H.
      specialize (H fn e1 ltac:(by left)). congruence.
Qed.

Lemma compareFileEntryMaps_None m1 m2 title :
  compareFileEntryMaps m1 m2 title = None ↔ m1 = m2.
Proof.
  unfold compareFileEntryMaps. case_bool_decide as Hsz; simpl.
  - rewrite compareMapsLoop_None. split.
    + intros H. apply map_subseteq_size_eq; [|lia].
      apply map_subseteq_spec. intros fn e He. apply H.
      by apply elem_of_map_to_list.
    + intros -> fn e He. by apply elem_of_map_to_list.
  - split; [done|]. by intros ->.
Qed.

Lemma compareOpaqueLoop_None n (sv cur : list string) :
  length sv = length cur → compareOpaqueLoop n sv cur = None ↔ sv = cur.
Proof.
  revert n cur. induction sv as [|v sv IH]; intros n [|c cur] Hlen;
    simpl in *; try done.
  case_bool_decide as Hc; simpl.
  - subst. rewrite IH by lia. naive_solver.
  - naive_solver.
Qed.

Lemma checkUpToDateLoop_None fs es sv :
  checkUpToDateLoop fs es sv = None
  ↔ ∀ fn e, (fn, e) ∈ es → onDiskAsSaved fs sv fn.
Proof.
  unfold onDiskAsSaved.
  induction es as [|[fn e1] rest IH]; simpl.
  - split; [intros _ fn a Hin; by apply elem_of_nil in Hin|done].
  - destruct (fs_files fs !! fn) as [info|] eqn:Hst; cycle 1.
    { split; [done|]. intros H.
      destruct (H fn e1) as (i & e & Hi & _); [by left|congruence]. }
    destruct (sv !! fn) as [entry|] eqn:Hsv; cycle 1.
    { split; [done|]. intros H.
      destruct (H fn e1) as (i & e & _ & He & _); [by left|congruence]. }
    case_bool_decide as Hd; simpl; cycle 1.
    { split; [done|]. intros H.
      destruct (H fn e1) as (i & e & Hi & He & Hde & _); [by left|congruence]. }
    case_bool_decide as Ht; simpl; cycle 1.
    { split; [done|]. intros H.
      destruct (H fn e1) as (i & e & Hi & He & _ & Hte); [by left|congruence]. }
    rewrite IH. split.
    + intros H fn' a' [[= -> ->]|Hin]%elem_of_cons; eauto 10.
    + intros H fn' a' Hin. apply (H fn' a'). by right.
Qed.

Lemma checkUpToDate_None fs cur sv :
  checkUpToDate fs cur sv = None
  ↔ ∀ fn, fn ∈ dom cur → onDiskAsSaved fs sv fn.
Proof.
  unfold checkUpToDate. rewrite checkUpToDateLoop_None. split.
  - intros H fn [e He]%elem_of_dom. apply (H fn e).
    by apply elem_of_map_to_list.
  - intros H fn e He%elem_of_map_to_list. apply H, elem_of_dom. eauto.
Qed.

(** What the comparison helpers log is what they found. *)
Lemma compareKeysLoop_Some {A B} (es : list (string * A)) (m2 : gmap string B) nf d :
  compareKeysLoop es m2 nf = Some d →
  ∃ fn a, (fn, a) ∈ es ∧ m2 !! fn = None ∧ d = nf fn.
Proof.
  induction es as [|[fn a] rest IH]; simpl; [done|].
  destruct (m2 !! fn) eqn:Hl.
  - intros (fn' & a' & Hin & H)%IH. exists fn', a'. split; [by right|done].
  - intros [= <-]. exists fn, a. split; [by left|done].
Qed.

Lemma compareFileEntryKeys_Some m1 m2 title d :
  compareFileEntryKeys m1 m2 title = Some d →
  (d = DiagLength title (size m1) (size m2) ∧ size m1 ≠ size m2)
  ∨ ∃ fn, d = DiagNotFound title fn ∧ is_Some (m1 !! fn) ∧ m2 !! fn = None.
Proof.
  unfold compareFileEntryKeys. case_bool_decide; simpl.
  - intros (fn & a & Hin%elem_of_map_to_list & Hl & ->)%compareKeysLoop_Some.
    right. exists fn. eauto.
  - intros [= <-]. by left.
Qed.

Lemma compareExtraTaskOutputs_Some m1 m2 d :
  compareExtraTaskOutputs m1 m2 = Some d →
  (d = DiagExtraLength (size m1) (size m2) ∧ size m1 ≠ size m2)
  ∨ ∃ key, d = DiagExtraNotFound key ∧ is_Some (m1 !! key) ∧ m2 !! key = None.
Proof.
  unfold compareExtraTaskOutputs. case_bool_decide; simpl.
  - intros (fn & a & Hin%elem_of_map_to_list & Hl & ->)%compareKeysLoop_Some.
    right. exists fn. eauto.
  - intros [= <-]. by left.
Qed.

Lemma compareMapsLoop_Some es m2 title d :
  compareMapsLoop es m2 title = Some d →
  ∃ fn e1, (fn, e1) ∈ es
    ∧ ((m2 !! fn = None ∧ d = DiagNotFound title fn)
       ∨ ∃ e2, m2 !! fn = Some e2
               ∧ ((Dir e1 ≠ Dir e2 ∧ d = DiagIsDir title fn (Dir e1) (Dir e2))
                  ∨ (MTime e1 ≠ MTime e2
                     ∧ d = DiagMTime title fn (MTime e1) (MTime e2)))).
Proof.
  induction es as [|[fn e1] rest IH]; simpl; [done|].
  destruct (m2 !! fn) as [e2|] eqn:Hl.
  - case_bool_decide as Hd; simpl; cycle 1.
    { intros [= <-]. exists fn, e1. split; [by left|]. right. eauto. }
    case_bool_decide as Ht; simpl; cycle 1.
    { intros [= <-]. exists fn, e1. split; [by left|]. right. eauto. }
    intros (fn' & e' & Hin & H)%IH. exists fn', e'. split; [by right|done].
  - intros [= <-]. exists fn, e1. split; [by left|]. by left.
Qed.

Lemma compareOpaqueLoop_Some n (sv cur : list string) d :
  compareOpaqueLoop n sv cur = Some d →
  ∃ i val newVal, sv !! i = Some val ∧ cur !! i = Some newVal
                  ∧ newVal ≠ val ∧ d = DiagOpaque (n + i) newVal val.
Proof.
  revert n cur. induction sv as [|v l IH]; intros n [|c l']; simpl; try done.
  case_bool_decide as Hc; simpl.
  - intros (i & val & newVal & H1 & H2 & H3 & ->)%IH.
    exists (S i), val, newVal. split_and!; try done. f_equal. lia.
  - intros [= <-]. exists 0%nat, v, c. split_and!; try done.
    by rewrite Nat.add_0_r.
Qed.

Lemma checkUpToDateLoop_Some fs es sv e :
  checkUpToDateLoop fs es sv = Some e →
  ∃ fn a, (fn, a) ∈ es ∧ staleOnDisk fs sv fn e.
Proof.
  unfold staleOnDisk.
  induction es as [|[fn e1] rest IH]; simpl; [done|].
  destruct (fs_files fs !! fn) as [info|] eqn:Hst; cycle 1.
  { intros [= <-]. exists fn, e1. split; [by left|]. by left. }
  destruct (sv !! fn) as [entry|] eqn:Hsv; cycle 1.
  { intros [= <-]. exists fn, e1. split; [by left|]. right. eauto 10. }
  case_bool_decide as Hd; simpl; cycle 1.
  { intros [= <-]. exists fn, e1. split; [by left|]. right.
    exists info. split_and!; try done. right. eauto. }
  case_bool_decide as Ht; simpl; cycle 1.
  { intros [= <-]. exists fn, e1. split; [by left|]. right.
    exists info. split_and!; try done. right. eauto. }
  intros (fn' & a' & Hin & H)%IH. exists fn', a'. split; [by right|done].
Qed.

Lemma checkUpToDate_Some fs cur sv e :
  checkUpToDate fs cur sv = Some e →
  ∃ fn, is_Some (cur !! fn) ∧ staleOnDisk fs sv fn e.
Proof.
  intros (fn & a & Hin%elem_of_map_to_list & H)%checkUpToDateLoop_Some. eauto.
Qed.

(** A path that is stale on disk is not on disk as saved. *)
Lemma staleOnDisk_not_saved fs sv fn e :
  staleOnDisk fs sv fn e → ¬ onDiskAsSaved fs sv fn.
Proof.
  intros [[Hn _]|(info & Hi & _ & [Hn|(entry & He & Hdiff)])]
         (info' & entry' & Hi' & He' & Hd & Ht); try congruence.
  destruct Hdiff; congruence.
Qed.

(** A discrepancy a log line describes rules out the condition of the
    specification. *)
Lemma describesMismatch_not_upToDate fs sv cur d :
  describesMismatch fs sv cur d → ¬ upToDate fs sv cur.
Proof.
  assert (Htitled : ∀ title m1 m2,
            entriesTitled title sv = Some m1 → entriesTitled title cur = Some m2 →
            upToDate fs sv cur → dom m1 = dom m2).
  { intros title m1 m2. unfold entriesTitled.
    intros H1 H2 (U1 & U2 & U3 & _).
    repeat case_bool_decide; simplify_eq; try done; congruence. }
  destruct d; simpl; try done.
  - intros (m1 & m2 & H1 & H2 & -> & -> & Hne) Hup. apply Hne.
    by rewrite <- !(size_dom (D := gset string)), (Htitled _ _ _ H1 H2 Hup).
  - intros (m1 & m2 & H1 & H2 & Hs & Hn) Hup.
    apply (Htitled _ _ _ H1 H2) in Hup.
    apply elem_of_dom in Hs. rewrite Hup in Hs.
    apply elem_of_dom in Hs as [? ?]. congruence.
  - intros (_ & e1 & e2 & H1 & H2 & -> & -> & Hne) (_ & _ & U & _).
    rewrite U in H1. congruence.
  - intros (_ & e1 & e2 & H1 & H2 & -> & -> & Hne) (_ & _ & U & _).
    rewrite U in H1. congruence.
  - intros (-> & -> & Hne) (_ & _ & _ & U & _). apply Hne.
    by rewrite <- !(size_dom (D := gset string)), U.
  - intros (Hs & Hn) (_ & _ & _ & U & _).
    apply elem_of_dom in Hs. rewrite U in Hs.
    apply elem_of_dom in Hs as [? ?]. congruence.
  - intros Hne (_ & _ & _ & _ & U & _). by rewrite U in Hne.
  - intros (H1 & H2 & Hne) (_ & _ & _ & _ & U & _).
    rewrite U in H1. congruence.
  - intros (fn & Hs & Hst) (_ & _ & _ & _ & _ & U & _).
    eapply staleOnDisk_not_saved; [done|]. by apply U, elem_of_dom.
  - intros (fn & Hs & Hst) (_ & _ & _ & _ & _ & _ & U).
    eapply staleOnDisk_not_saved; [done|]. by apply U, elem_of_dom.
Qed.

(** The comparison with a saved state succeeds exactly under the condition
    of the specification; when it fails, the last line logged describes the
    discrepancy, and when it succeeds nothing but the note on the primary
    output is logged. *)
Lemma verifyAgainst_spec fs sv cur :
  ((verifyAgainst fs sv cur).2 = true ↔ upToDate fs sv cur)
  ∧ ((verifyAgainst fs sv cur).2 = false →
       ∃ d, last (verifyAgainst fs sv cur).1 = Some d
            ∧ describesMismatch fs sv cur d)
  ∧ ((verifyAgainst fs sv cur).2 = true →
       ∀ d, d ∈ (verifyAgainst fs sv cur).1 → primaryNote sv cur d).
Proof.
  assert (Hkeys : ∀ title m1 m2 d,
            entriesTitled title sv = Some m1 → entriesTitled title cur = Some m2 →
            compareFileEntryKeys m1 m2 title = Some d →
            describesMismatch fs sv cur d).
  { intros title m1 m2 d H1 H2 [[-> Hne]|(fn & -> & Hs & Hn)]%compareFileEntryKeys_Some;
      simpl; exists m1, m2; by split_and!. }
  unfold verifyAgainst, upToDate.
  destruct (compareFileEntryKeys (Outputs sv) (Outputs cur) "outputs") as [d|] eqn:H1.
  { simpl. split_and!;
      [|intros _; exists d; split; [done|by eapply (Hkeys "outputs")]|done].
    split; [done|]. intros (H & _).
    apply (proj2 (compareFileEntryKeys_None _ _ "outputs")) in H.
    congruence. }
  apply compareFileEntryKeys_None in H1.
  destruct (compareFileEntryKeys (Generates sv) (Generates cur) "generates") as [d|] eqn:H2.
  { simpl. split_and!;
      [|intros _; exists d; split; [done|by eapply (Hkeys "generates")]|done].
    split; [done|]. intros (_ & H & _).
    apply (proj2 (compareFileEntryKeys_None _ _ "generates")) in H.
    congruence. }
  apply compareFileEntryKeys_None in H2.
  destruct (compareFileEntryMaps (Inputs sv) (Inputs cur) "inputs") as [d|] eqn:H3.
  { simpl. split_and!; [| |done].
    - split; [done|]. intros (_ & _ & H & _).
      apply (compareFileEntryMaps_None _ _ "inputs") in H. congruence.
    - intros _. exists d. split; [done|].
      unfold compareFileEntryMaps in H3. revert H3.
      case_bool_decide as Hsz; simpl.
      + intros (fn & e1 & Hin%elem_of_map_to_list & H)%compareMapsLoop_Some.
        destruct H as [[Hn ->]|(e2 & He2 & [[Hne ->]|[Hne ->]])]; simpl.
        * exists (Inputs sv), (Inputs cur). by split_and!.
        * split; [done|]. exists e1, e2. by split_and!.
        * split; [done|]. exists e1, e2. by split_and!.
      + intros [= <-]. simpl. exists (Inputs sv), (Inputs cur). by split_and!. }
  apply compareFileEntryMaps_None in H3.
  set (log := if negb (bool_decide (Primary (TaskOutputs sv) = Primary (TaskOutputs cur)))
              then _ else _).
  assert (Hlog : ∀ d, d ∈ log → primaryNote sv cur d).
  { intros d. unfold log, primaryNote. case_bool_decide; simpl.
    - by intros ?%elem_of_nil.
    - by intros ->%list_elem_of_singleton. }
  destruct (compareExtraTaskOutputs _ _) as [d|] eqn:H4.
  { simpl. split_and!; [| |done].
    - split; [done|]. intros (_ & _ & _ & H & _).
      apply compareExtraTaskOutputs_None in H. congruence.
    - intros _. exists d. rewrite last_snoc. split; [done|].
      by apply compareExtraTaskOutputs_Some in H4 as [[-> Hne]|(key & -> & Hs & Hn)]. }
  apply compareExtraTaskOutputs_None in H4.
  case_bool_decide as H5; simpl; cycle 1.
  { split_and!; [|intros _; eexists; by rewrite last_snoc|done].
    split; [done|]. intros (_ & _ & _ & _ & H & _). congruence. }
  destruct (compareOpaqueLoop 0 (Opaque sv) (Opaque cur)) as [d|] eqn:H6.
  { simpl. split_and!; [| |done].
    - split; [done|]. intros (_ & _ & _ & _ & H & _).
      apply (compareOpaqueLoop_None 0) in H; [congruence|done].
    - intros _. exists d. rewrite last_snoc. split; [done|].
      by apply compareOpaqueLoop_Some in H6 as (i & val & newVal & ? & ? & ? & ->). }
  apply compareOpaqueLoop_None in H6; [|done].
  destruct (checkUpToDate fs (Outputs cur) (Outputs sv)) as [e|] eqn:H7.
  { simpl. split_and!; [| |done].
    - split; [done|]. intros (_ & _ & _ & _ & _ & H & _).
      apply (proj2 (checkUpToDate_None _ _ _)) in H. congruence.
    - intros _. eexists. rewrite last_snoc. split; [done|].
      by apply checkUpToDate_Some in H7. }
  pose proof (proj1 (checkUpToDate_None _ _ _) H7) as H7'.
  destruct (checkUpToDate fs (Generates cur) (Generates sv)) as [e|] eqn:H8.
  { simpl. split_and!; [| |done].
    - split; [done|]. intros (_ & _ & _ & _ & _ & _ & H).
      apply (proj2 (checkUpToDate_None _ _ _)) in H. congruence.
    - intros _. eexists. rewrite last_snoc. split; [done|].
      by apply checkUpToDate_Some in H8. }
  pose proof (proj1 (checkUpToDate_None _ _ _) H8) as H8'.
  simpl. split_and!; [done|done|auto].
Qed.

(** The saved state the cache holds after [Verify]: the one it held
    before, or the one just loaded from the state file. *)
Lemma Verify_frame fs s :
  stateFile (Verify fs s).1.1 = stateFile s
  ∧ current (Verify fs s).1.1 = current s
  ∧ fc_xctx (Verify fs s).1.1 = fc_xctx s
  ∧ (∀ sv, saved (Verify fs s).1.1 = Some sv ↔ comparesWith fs s sv).
Proof.
  unfold Verify, comparesWith, loadStateFrom. destruct (saved s) as [sv|] eqn:Hs.
  - destruct (verifyAgainst _ _ _) as [log b]. simpl. rewrite Hs.
    split_and!; try done. intros sv'. naive_solver.
  - destruct (fs_states fs !! stateFile s) as [[|sv]|] eqn:Hl; simpl.
    + rewrite Hs. split_and!; try done. intros sv'. naive_solver.
    + destruct (verifyAgainst _ _ _) as [log b]. simpl.
      split_and!; try done. intros sv'. naive_solver.
    + rewrite Hs. split_and!; try done. intros sv'. naive_solver.
Qed.

(** [Verify] on top of [verifyAgainst]. *)
Lemma Verify_iff fs (s : FilesCache) :
  ((Verify fs s).2 = true
   ↔ ∃ sv, comparesWith fs s sv ∧ upToDate fs sv (current s))
  ∧ ((Verify fs s).2 = false →
       ∃ d, last (Verify fs s).1.2 = Some d ∧ describesFailure fs s d)
  ∧ ((Verify fs s).2 = true →
       ∀ d, d ∈ (Verify fs s).1.2 →
            ∃ sv, comparesWith fs s sv ∧ primaryNote sv (current s) d).
Proof.
  assert (Hdesc : ∀ sv d, comparesWith fs s sv →
            describesMismatch fs sv (current s) d → describesFailure fs s d).
  { intros sv d Hc Hd. destruct d; simpl in Hd |- *; try done; eauto. }
  unfold Verify, comparesWith, loadStateFrom in *.
  destruct (saved s) as [sv|] eqn:Hs.
  - pose proof (verifyAgainst_spec fs sv (current s)) as (Hiff & Hf & Ht).
    destruct (verifyAgainst fs sv (current s)) as [log b]; simpl in *.
    split_and!.
    + rewrite Hiff. naive_solver.
    + intros (d & Hl & Hd)%Hf. exists d. split; [done|]. eapply Hdesc; eauto.
    + intros Hb d Hin. exists sv. split; [by left|by apply Ht].
  - destruct (fs_states fs !! stateFile s) as [[|sv]|] eqn:Hl; simpl.
    + split_and!; [naive_solver| |done].
      intros _. eexists. split; [done|]. simpl. rewrite Hl. naive_solver.
    + pose proof (verifyAgainst_spec fs sv (current s)) as (Hiff & Hf & Ht).
      destruct (verifyAgainst fs sv (current s)) as [log b]; simpl in *.
      split_and!.
      * rewrite Hiff. naive_solver.
      * intros (d & Hl' & Hd)%Hf. exists d. split; [done|].
        eapply Hdesc; eauto.
      * intros Hb d Hin. exists sv. split; [by right|by apply Ht].
    + split_and!; [naive_solver| |done].
      intros _. eexists. split; [done|]. simpl. rewrite Hl. naive_solver.
Qed.

(** C2, as the code has it.  [Verify] returns [true] exactly when a saved
    state is at hand and agrees with the current declaration: same keys of
    the outputs and of the generates, the same inputs entry for entry, same
    keys of the extra outputs, the same opaque strings in the same order,
    and every declared output and generate on disk with the kind and the
    modification time the saved state records.  The saved state at hand is
    the one this cache loaded in an earlier [Verify], whatever has become of
    the state file since, and only for a cache that has loaded none the
    content of the state file, which then has to be there and to decode; so
    for such a cache [Verify] is as specified.  When [Verify] returns
    [false], the last line it logged says why: the state file is missing or
    does not decode, or the line names a discrepancy that is really there,
    with the sizes, path, key, index and values found.  When it returns
    [true] it logged at most the note on a differing primary output.  A
    discrepancy a line names rules out the conditions above. *)
Theorem Verify_spec fs (s : FilesCache) :
  ((Verify fs s).2 = true
   ↔ ∃ sv, comparesWith fs s sv ∧ upToDate fs sv (current s))
  ∧ (saved s = None → verifyAsSpecified fs s)
  ∧ ((Verify fs s).2 = false →
       ∃ d, last (Verify fs s).1.2 = Some d ∧ describesFailure fs s d)
  ∧ ((Verify fs s).2 = true →
       ∀ d, d ∈ (Verify fs s).1.2 →
            ∃ sv, comparesWith fs s sv ∧ primaryNote sv (current s) d)
  ∧ (∀ sv d, describesMismatch fs sv (current s) d →
             ¬ upToDate fs sv (current s)).
Proof.
  destruct (Verify_iff fs s) as (Hiff & Hf & Ht).
  split_and!; [done| |done|done|].
  - intros Hs. unfold verifyAsSpecified. rewrite Hiff.
    unfold comparesWith. rewrite Hs. naive_solver.
  - intros sv d. apply describesMismatch_not_upToDate.
Qed.

(** A cache that has loaded no saved state verifies against the state file
    on disk. *)
Lemma Verify_spec_witness : verifyAsSpecified C2_fs C2_cache.
Proof. apply (proj1 (proj2 (Verify_spec C2_fs C2_cache))). reflexivity. Defined.

(** C2, counterexample to "Verify returns true if and only if the saved
    state file exists and parses, ...": a first [Verify] loads the state
    file and succeeds; [ClearSaved] then removes the file; a second
    [Verify] of the same cache still succeeds, from the state kept in
    memory, although no state file exists. *)
Lemma Verify_after_ClearSaved :
  (Verify C2_fs C2_cache).2 = true
  ∧ fs_states C2_cleared !! stateFile C2_loaded = None
  ∧ (Verify C2_cleared C2_loaded).2 = true
  ∧ ¬ verifyAsSpecified C2_cleared C2_loaded.
Proof.
  assert (H2 : (Verify C2_cleared C2_loaded).2 = true) by by vm_compute.
  assert (H3 : fs_states C2_cleared !! stateFile C2_loaded = None)
    by by vm_compute.
  split_and!; [by vm_compute|done|done|].
  intros [H _]. destruct (H H2) as (sv & Hsv & _). congruence.
Qed.

(** ** The control protocol of external tools *)

(** Declaring inputs touches nothing but the inputs of the current state. *)
Lemma addInputEntry_frame s fn e s' :
  addInputEntry s fn e = Done s' →
  stateFile s' = stateFile s ∧ saved s' = saved s ∧ fc_xctx s' = fc_xctx s
  ∧ Opaque (current s') = Opaque (current s).
Proof. unfold addInputEntry. case_decide; [|done]. by intros [= <-]. Qed.

Lemma addInputEntries_frame es s s' :
  addInputEntries s es = Done s' →
  stateFile s' = stateFile s ∧ saved s' = saved s ∧ fc_xctx s' = fc_xctx s
  ∧ Opaque (current s') = Opaque (current s).
Proof.
  revert s. induction es as [|[fn e] rest IH]; intros s; simpl.
  - by intros [= <-].
  - destruct (addInputEntry s fn e) as [s1| |] eqn:H1; simpl; try done.
    intros H2. apply addInputEntry_frame in H1 as (E1 & E2 & E3 & E4).
    unfold mbind, outcome_bind in H2. simpl in H2.
    apply IH in H2 as (F1 & F2 & F3 & F4). by rewrite F1, F2, F3, F4.
Qed.


Lemma AddInput_frame fs s p r s' :
  AddInput fs s p r = Done s' →
  stateFile s' = stateFile s ∧ saved s' = saved s ∧ fc_xctx s' = fc_xctx s
  ∧ Opaque (current s') = Opaque (current s).
Proof.
  unfold AddInput. destruct (fs_files fs !! _); [|done].
  destruct r; [apply addInputEntries_frame|apply addInputEntry_frame].
Qed.


Lemma AddSource_frame fs s p r s' :
  AddSource fs s p r = Done s' →
  stateFile s' = stateFile s ∧ saved s' = saved s ∧ fc_xctx s' = fc_xctx s
  ∧ Opaque (current s') = Opaque (current s).
Proof. unfold AddSource. case_bool_decide; apply AddInput_frame. Qed.








Lemma recOpaques_app l1 l2 :
  recOpaques (l1 ++ l2) = recOpaques l1 ++ recOpaques l2.
Proof.
  induction l1 as [|[] l1 IH]; simpl; try done. by rewrite IH, (assoc_L (++)).
Qed.

Lemma reportSource_frame fs r p b r' :
  reportSource fs r p b = Done r' →
  stateFile (Cache r') = stateFile (Cache r)
  ∧ saved (Cache r') = saved (Cache r)
  ∧ Opaque (current (Cache r')) = Opaque (current (Cache r))
  ∧ recOpaques (records r') = recOpaques (records r).
Proof.
  unfold reportSource, mbind, outcome_bind.
  destruct (AddSource _ _ _ _) as [c| |] eqn:HA; simpl; try done.
  intros [= <-]. apply AddSource_frame in HA as (E1 & E2 & _ & E3). simpl.
  split_and!; try done.
  rewrite recOpaques_app. simpl. by rewrite (right_id_L [] (++)).
Qed.

Lemma reportInput_frame fs r p b r' :
  reportInput fs r p b = Done r' →
  stateFile (Cache r') = stateFile (Cache r)
  ∧ saved (Cache r') = saved (Cache r)
  ∧ Opaque (current (Cache r')) = Opaque (current (Cache r))
  ∧ recOpaques (records r') = recOpaques (records r).
Proof.
  unfold reportInput, mbind, outcome_bind.
  destruct (AddInput _ _ _ _) as [c| |] eqn:HA; simpl; try done.
  intros [= <-]. apply AddInput_frame in HA as (E1 & E2 & _ & E3). simpl.
  split_and!; try done.
  rewrite recOpaques_app. simpl. by rewrite (right_id_L [] (++)).
Qed.

(** One line of the child: the opaque strings of the cache and of the
    records grow by the value of a ['P'] line and by nothing else. *)
Lemma controlLine_opaque xctx st line st' :
  controlLine xctx st line = (st', Done ()) →
  Opaque (current (Cache (ctl_cache st')))
    = Opaque (current (Cache (ctl_cache st))) ++ opaqueLines [ChildLine line]
  ∧ recOpaques (records (ctl_cache st'))
    = recOpaques (records (ctl_cache st)) ++ opaqueLines [ChildLine line].
Proof.
  destruct line as [|cmd val]; simpl.
  { intros [= <-]. by rewrite !(right_id_L [] (++)). }
  repeat case_bool_decide; subst; try discriminate; simpl.
  - destruct (reportSource _ _ _ _) as [r| |] eqn:HA; try done.
    intros [= <-]. apply reportSource_frame in HA as (_ & _ & E1 & E2).
    simpl. by rewrite E1, E2, !(right_id_L [] (++)).
  - destruct (reportInput _ _ _ _) as [r| |] eqn:HA; try done.
    intros [= <-]. apply reportInput_frame in HA as (_ & _ & E1 & E2).
    simpl. by rewrite E1, E2, !(right_id_L [] (++)).
  - destruct (splitColon val) as [[k p]|]; intros [= <-]; simpl;
      rewrite recOpaques_app; simpl; by rewrite !(right_id_L [] (++)).
  - intros [= <-]; simpl.
    rewrite recOpaques_app; simpl; by rewrite !(right_id_L [] (++)).
  - intros [= <-]; simpl. by rewrite recOpaques_app.
  - intros [= <-]. unfold verifyReply.
    destruct (Skippable xctx); simpl; [|by rewrite !(right_id_L [] (++))].
    pose proof (Verify_frame (ctl_fs st) (Cache (ctl_cache st))) as (_ & Hc & _).
    destruct (Verify _ _) as [[c log] ok]; simpl in *.
    by rewrite Hc, !(right_id_L [] (++)).
  - intros [= <-]; simpl. by rewrite !(right_id_L [] (++)).
  - intros [= <-]; simpl. by rewrite !(right_id_L [] (++)).
Qed.

Lemma opaqueLines_cons ev rest :
  opaqueLines (ev :: rest) = opaqueLines [ev] ++ opaqueLines rest.
Proof.
  destruct ev as [[|cmd val]|files]; simpl; try done. by case_bool_decide.
Qed.

(** After the lines of [child] went through, the opaque strings of the
    cache are those it started with, followed by the values of the ['P']
    lines in the order of their arrival. *)
Lemma controlCmd_opaque xctx st child st' :
  controlCmd xctx st child = (st', Done ()) →
  Opaque (current (Cache (ctl_cache st')))
    = Opaque (current (Cache (ctl_cache st))) ++ opaqueLines child
  ∧ recOpaques (records (ctl_cache st'))
    = recOpaques (records (ctl_cache st)) ++ opaqueLines child.
Proof.
  revert st. induction child as [|[line|files] rest IH]; intros st.
  - simpl. intros [= <-]. by rewrite !(right_id_L [] (++)).
  - cbn [controlCmd].
    destruct (controlLine xctx st line) as [st1 [[]| |]] eqn:Hl; try done.
    intros [H1 H2]%IH. apply controlLine_opaque in Hl as [E1 E2].
    rewrite H1, H2, E1, E2, (opaqueLines_cons (ChildLine line) rest).
    by rewrite !(assoc_L (++)).
  - cbn [controlCmd]. intros [H1 H2]%IH. by rewrite H1, H2.
Qed.









(** ** Opaque strings of an external tool *)



(** The state a successful run persists lists the arguments, then the
    environment entries, then the values of the ['P'] lines. *)
Lemma Replay_opaque fs recs c c' r :
  Replay fs recs c = (c', r) →
  stateFile c' = stateFile c
  ∧ (r = Done () → Opaque (current c') = Opaque (current c) ++ recOpaques recs).
Proof.
  revert c. induction recs as [|rec rest IH]; intros c; simpl.
  - intros [= <- <-]. by rewrite (right_id_L [] (++)).
  - destruct (applyRecord fs c rec) as [c1| |] eqn:Ha; [|by intros [= <- <-]..].
    intros [E1 E2]%IH.
    assert (stateFile c1 = stateFile c
            ∧ Opaque (current c1) = Opaque (current c) ++ recOpaques [rec])
      as [F1 F2].
    { destruct rec; simpl in Ha |- *; rewrite ?(right_id_L [] (++)).
      - by apply AddInput_frame in Ha as (? & _ & _ & ?).
      - by apply AddSource_frame in Ha as (? & _ & _ & ?).
      - by injection Ha as <-.
      - by injection Ha as <-.
      - by injection Ha as <-. }
    split; [congruence|]. intros Hr. rewrite (E2 Hr), F2.
    destruct rec; simpl; rewrite ?(right_id_L [] (++)); try done.
    by rewrite (assoc_L (++)).
Qed.

Lemma Persist_state fs c c' fs' :
  Persist fs c = (c', fs', None) →
  ∃ content, fs_states fs' !! stateFile c = Some (StateJSON content)
             ∧ Opaque content = Opaque (current c)
             ∧ content = current c'.
Proof.
  unfold Persist.
  destruct (refreshFileEntries fs (Outputs (current c))) as [outs [e1|]];
    [done|].
  destruct (refreshFileEntries fs (Generates (current c))) as [gens [e2|]];
    [done|].
  destruct (fs_writable fs); [|done].
  intros [= <- <-]. eexists. simpl. by rewrite lookup_insert_eq.
Qed.

Lemma initialReporter_opaque xctx cmdArgs envs :
  Opaque (current (Cache (initialReporter xctx cmdArgs envs))) = cmdArgs ++ envs
  ∧ records (initialReporter xctx cmdArgs envs) = [RecOpaque cmdArgs; RecOpaque envs]
  ∧ stateFile (Cache (initialReporter xctx cmdArgs envs))
    = stateFile (NewFilesCache xctx)
  ∧ saved (Cache (initialReporter xctx cmdArgs envs)) = None.
Proof. done. Qed.

(** A run that goes through and persists leaves a state file that lists the
    arguments, the environment entries and the ['P'] values, in this
    order. *)
Lemma ExecuteExtToolCmd_persists fs xctx cmdArgs envs child st cache cache' fs' :
  controlCmd xctx (mkCtl fs (initialReporter xctx cmdArgs envs) [] []) child
    = (st, Done ()) →
  Replay (ctl_fs st) (records (ctl_cache st)) (NewFilesCache xctx)
    = (cache, Done ()) →
  Persist (ctl_fs st) cache = (cache', fs', None) →
  rep_fs (ExecuteExtToolCmd fs xctx cmdArgs envs None child None) = fs'
  ∧ ∃ content,
      fs_states fs' !! stateFile (NewFilesCache xctx) = Some (StateJSON content)
      ∧ Opaque content = cmdArgs ++ envs ++ opaqueLines child.
Proof.
  intros Hrun Hreplay Hpersist.
  unfold ExecuteExtToolCmd, ReplayAndPersistCacheOrLog.
  rewrite Hrun, Hreplay, Hpersist. split; [done|].
  apply Persist_state in Hpersist as (content & Hl & Hop & _).
  apply Replay_opaque in Hreplay as [Hsf Hrop].
  apply controlCmd_opaque in Hrun as [_ Hrec].
  exists content. rewrite <- Hsf. split; [done|].
  rewrite Hop, (Hrop eq_refl), Hrec. simpl.
  by rewrite (right_id_L [] (++)), (assoc_L (++)).
Qed.




(** ** Name resolution *)

Lemma parsePattern_literal fuel (p : list ascii) :
  Forall (λ c, isMeta c = false) p → (length p ≤ fuel)%nat →
  parsePattern fuel p = Some (GChar <$> p).
Proof.
  revert p. induction fuel as [|fuel IH]; intros [|c p] Hlit Hlen;
    simpl in *; try done; try lia.
  apply Forall_cons in Hlit as [Hc Hlit]. unfold isMeta in Hc.
  repeat (case_bool_decide; simpl in Hc; try done).
  rewrite IH; [done|done|lia].
Qed.

Lemma matchTerms_literal (p name : list ascii) :
  matchTerms (GChar <$> p) name = bool_decide (p = name).
Proof.
  revert name. induction p as [|c p IH]; intros [|c' name]; simpl; try done.
  rewrite IH. repeat case_bool_decide; simpl; congruence.
Qed.

Lemma list_ascii_of_string_inj s1 s2 :
  list_ascii_of_string s1 = list_ascii_of_string s2 → s1 = s2.
Proof.
  intros H. apply (f_equal string_of_list_ascii) in H.
  by rewrite !string_of_list_ascii_of_string in H.
Qed.

(** A literal pattern matches its own text and nothing else, without
    error. *)
Lemma Match_literal pattern name :
  isLiteral pattern → Match pattern name = inr (bool_decide (pattern = name)).
Proof.
  intros Hlit. unfold Match.
  rewrite parsePattern_literal by done. rewrite matchTerms_literal.
  f_equal. apply bool_decide_ext. split; [|by intros ->].
  apply list_ascii_of_string_inj.
Qed.

Lemma splitColons_no_colon s :
  ":"%char ∉ list_ascii_of_string s → splitColons s = [s].
Proof.
  induction s as [|c s IH]; simpl; [done|].
  intros Hnot. case_bool_decide as Hc.
  - subst. exfalso. apply Hnot. by left.
  - rewrite IH; [done|]. intros Hin. apply Hnot. by right.
Qed.

(** The matching loops, when no name makes [Match] fail: they collect the
    targets whose name matches, in the order of the visit, and
    [wildcardMatch] is set by a matched target whose name differs from the
    pattern text. *)
Lemma matchTargets_spec tp cands acc w :
  (∀ name t, (name, t) ∈ cands → ∃ b, Match tp name = inr b) →
  matchTargets tp cands acc w =
    inr (acc ++ (filter (λ nt, Match tp nt.1 = inr true) cands).*2,
         w || existsb (λ t, negb (bool_decide (LocalName t = tp)))
                (filter (λ nt, Match tp nt.1 = inr true) cands).*2).
Proof.
  revert acc w. induction cands as [|[name t] rest IH]; intros acc w Hok.
  - simpl. by rewrite (right_id_L [] (++)), orb_false_r.
  - simpl. destruct (Hok name t) as [b Hb]; [by left|]. rewrite Hb.
    assert (Hrest : ∀ name' t', (name', t') ∈ rest → ∃ b', Match tp name' = inr b').
    { intros name' t' Hin. apply (Hok name' t'). by right. }
    destruct b.
    + rewrite filter_cons_True by done. rewrite IH by done. simpl.
      rewrite <- (assoc_L (++)). simpl. f_equal. f_equal.
      case_bool_decide; simpl; [done|by rewrite orb_true_r].
    + rewrite filter_cons_False by (simpl; congruence). by rewrite IH.
Qed.

Lemma matchedTargets_elem r tp t :
  t ∈ matchedTargets r tp
  ↔ ∃ pn p name, projects r !! pn = Some p ∧ targets p !! name = Some t
                 ∧ Match tp name = inr true.
Proof.
  unfold matchedTargets, candidates. rewrite list_elem_of_fmap. split.
  - intros ([name t'] & -> & [Hm Hin]%list_elem_of_filter). simpl in *.
    apply list_elem_of_bind in Hin as (p & Hin & Hp).
    apply list_elem_of_fmap in Hp as ([pn p'] & -> & Hp).
    apply elem_of_map_to_list in Hp, Hin. eauto 10.
  - intros (pn & p & name & Hp & Ht & Hm). exists (name, t). split; [done|].
    apply list_elem_of_filter. split; [done|].
    apply list_elem_of_bind. exists p. split.
    + by apply elem_of_map_to_list.
    + apply list_elem_of_fmap. exists (pn, p). split; [done|].
      by apply elem_of_map_to_list.
Qed.

(** In a repository loaded by [loadProject], the candidates carry their
    local name as key. *)
Lemma candidates_names r name t :
  repoWellFormed r →
  (name, t) ∈ candidates (map_to_list (projects r)).*2 → LocalName t = name.
Proof.
  intros Hwf Hin. unfold candidates in Hin.
  apply list_elem_of_bind in Hin as (p & Hin & Hp).
  apply list_elem_of_fmap in Hp as ([pn p'] & -> & Hp).
  apply elem_of_map_to_list in Hp, Hin.
  by apply (Hwf pn p' Hp name t).
Qed.

(** C5, as the code has it.  For a pattern without colon whose text, once
    trimmed, is not empty and matches more than one target across the
    projects: when the text is a literal, [ResolveTargets] returns all the
    matched targets together with [ErrAmbiguousMatch]; when no name makes
    the match fail and the name of some matched target differs from the
    pattern text, it returns the matched targets without error; and when
    the name of every matched target is the pattern text itself, it returns
    them together with [ErrAmbiguousMatch], glob or not. *)
Theorem ResolveTargets_bare (r : Repo) (pattern : string) :
  repoWellFormed r →
  ":"%char ∉ list_ascii_of_string pattern →
  TrimSpace pattern ≠ EmptyString →
  (1 < length (matchedTargets r (TrimSpace pattern)))%nat →
  (isLiteral (TrimSpace pattern) →
     ResolveTargets r pattern
       = (matchedTargets r (TrimSpace pattern),
          Some (ErrAmbiguousMatch (TrimSpace pattern))))
  ∧ ((∀ name t, (name, t) ∈ candidates (map_to_list (projects r)).*2 →
                ∃ b, Match (TrimSpace pattern) name = inr b) →
     (∃ t, t ∈ matchedTargets r (TrimSpace pattern)
           ∧ LocalName t ≠ TrimSpace pattern) →
     ResolveTargets r pattern = (matchedTargets r (TrimSpace pattern), None))
  ∧ ((∀ name t, (name, t) ∈ candidates (map_to_list (projects r)).*2 →
                ∃ b, Match (TrimSpace pattern) name = inr b) →
     (∀ t, t ∈ matchedTargets r (TrimSpace pattern) →
           LocalName t = TrimSpace pattern) →
     ResolveTargets r pattern
       = (matchedTargets r (TrimSpace pattern),
          Some (ErrAmbiguousMatch (TrimSpace pattern)))).
Proof.
  intros Hwf Hcolon Hne Hmany.
  set (tp := TrimSpace pattern) in *.
  assert (Hrun : (∀ name t, (name, t) ∈ candidates (map_to_list (projects r)).*2 →
                            ∃ b, Match tp name = inr b) →
                 ResolveTargets r pattern =
                   if existsb (λ t, negb (bool_decide (LocalName t = tp)))
                        (matchedTargets r tp)
                   then (matchedTargets r tp, None)
                   else (matchedTargets r tp, Some (ErrAmbiguousMatch tp))).
  { intros Hok. unfold ResolveTargets.
    rewrite splitColons_no_colon by done. simpl. fold tp.
    rewrite bool_decide_eq_false_2 by done.
    rewrite matchTargets_spec by done. simpl.
    fold (matchedTargets r tp).
    rewrite bool_decide_eq_false_2 by lia.
    destruct (existsb _ _); simpl; [done|].
    by rewrite (proj2 (Nat.ltb_lt _ _) Hmany). }
  assert (Hall : ∀ P, (∀ t, t ∈ matchedTargets r tp → LocalName t = tp) →
            existsb (λ t, negb (bool_decide (LocalName t = tp)))
              (matchedTargets r tp) = false ∨ P).
  { intros P Hsame. left. apply not_true_is_false. intros Hex.
    apply existsb_exists in Hex as (t & Hin%list_elem_of_In & Ht).
    apply Hsame in Hin. by rewrite bool_decide_eq_true_2 in Ht. }
  split_and!.
  - intros Hlit.
    assert (Hok : ∀ name t, (name, t) ∈ candidates (map_to_list (projects r)).*2 →
                            ∃ b, Match tp name = inr b).
    { intros name t _. rewrite Match_literal by done. eauto. }
    rewrite Hrun by done.
    destruct (Hall False) as [-> |[]]; [|done].
    intros t Hin. unfold matchedTargets in Hin.
    apply list_elem_of_fmap in Hin as ([name t'] & -> & [Hm Hin]%list_elem_of_filter).
    simpl in *. rewrite Match_literal in Hm by done.
    injection Hm as Hm. apply bool_decide_eq_true in Hm. subst name.
    by apply (candidates_names r).
  - intros Hok (t & Hin & Hdiff). rewrite Hrun by done.
    replace (existsb _ _) with true; [done|]. symmetry.
    apply existsb_exists. exists t. split; [by apply list_elem_of_In|].
    by rewrite bool_decide_eq_false_2.
  - intros Hok Hsame. rewrite Hrun by done.
    by destruct (Hall False) as [-> |[]].
Qed.

Lemma ResolveTargets_bare_witness :
  ResolveTargets C5_repo "lib"
    = ([mkTarget "a" "lib"; mkTarget "b" "lib"], Some (ErrAmbiguousMatch "lib")).
Proof.
  refine (proj1 (ResolveTargets_bare C5_repo "lib" _ _ _ _) _).
  - unfold repoWellFormed. apply (bool_decide_unpack _). by vm_compute.
  - apply (bool_decide_unpack _). by vm_compute.
  - discriminate.
  - vm_compute. lia.
  - unfold isLiteral. simpl. repeat constructor.
Defined.

(** C5, the input on which the code departs from "when the pattern is a
    glob, multiple matches are returned with no error", which is also what
    the comment of [ResolveTargets] promises for a pattern with a wildcard:
    two projects define a target whose name is [gen*]; the pattern [gen*]
    is a glob, it matches these two targets and no other, and the resolver
    reports an ambiguous match, because it takes a pattern for a wildcard
    only when some matched name differs from the pattern text. *)
Lemma ResolveTargets_glob_ambiguous :
  ResolveTargets C5_repo "gen*"
    = ([mkTarget "a" "gen*"; mkTarget "b" "gen*"], Some (ErrAmbiguousMatch "gen*"))
  ∧ ¬ bareAsSpecified C5_repo "gen*".
Proof.
  split; [by vm_compute|]. intros H.
  destruct H as [_ H]; [vm_compute; lia|].
  assert (Hglob : ¬ isLiteral (TrimSpace "gen*")).
  { unfold isLiteral. simpl. intros Hl.
    do 3 apply Forall_cons in Hl as [_ Hl].
    apply Forall_cons in Hl as [Hl _]. discriminate. }
  apply H in Hglob. vm_compute in Hglob. discriminate.
Qed.

(** ** The readiness pass of [Prepare] *)

Lemma prepInv_lookup g0 P t pend ready tasks nr n x :
  prepInv g0 P t pend ready tasks nr → tasks !! n = Some x →
  ∃ x0, g0 !! n = Some x0 ∧ DepOn x = DepOn x0 ∧ DepBy x = DepBy x0
        ∧ TaskName x = TaskName x0 ∧ TaskErr x = None
        ∧ State x = (if decide (size (DepOn x0) = 0%nat) then TaskReady
                     else TaskNotReady).
Proof.
  intros Hinv Hx. pose proof (pi_tasks _ _ _ _ _ _ _ Hinv n) as H.
  rewrite Hx in H. destruct (g0 !! n) as [x0|]; [|done].
  exists x0. by rewrite H.
Qed.

Lemma prepInv_dom g0 P t pend ready tasks nr :
  prepInv g0 P t pend ready tasks nr → dom tasks = dom g0.
Proof.
  intros Hinv. apply set_eq. intros n. rewrite !elem_of_dom.
  pose proof (pi_tasks _ _ _ _ _ _ _ Hinv n) as H.
  destruct (tasks !! n), (g0 !! n); try done; split; intros [? ?]; done.
Qed.

(** One step of the inner loop keeps the invariant and the number of tasks
    that are waiting or queued. *)
Lemma releaseStep_inv g0 P t pend ready tasks nr depBy :
  graphWellFormed g0 →
  prepInv g0 P t ({[depBy]} ∪ pend) ready tasks nr → depBy ∉ pend →
  ∃ tasks' ready' nr',
    releaseStep t (tasks, ready, nr) depBy = (tasks', ready', nr')
    ∧ prepInv g0 P t pend ready' tasks' nr'
    ∧ (length ready' + size nr' = length ready + size nr)%nat.
Proof.
  intros Hwf Hinv Hfresh.
  destruct (pi_pend _ _ _ _ _ _ _ Hinv depBy) as (Hnr & HtP & HdepBy);
    [set_solver|].
  assert (HinD : depBy ∈ dom tasks).
  { rewrite (prepInv_dom _ _ _ _ _ _ _ Hinv).
    rewrite <- (pi_cover _ _ _ _ _ _ _ Hinv). set_solver. }
  apply elem_of_dom in HinD as [d Hd].
  destruct (prepInv_lookup _ _ _ _ _ _ _ _ _ Hinv Hd)
    as (d0 & Hd0 & HOn & HBy & HName & HErr & HState).
  destruct (pi_waiting _ _ _ _ _ _ _ Hinv depBy d Hnr Hd) as [Hdone Hlt].
  rewrite decide_True in Hdone by set_solver.
  (* [t] is a dependency of [depBy] *)
  assert (HtOn : t ∈ DepOn d).
  { destruct (g0 !! t) as [t0|] eqn:Ht0; [|set_solver].
    destruct (Hwf t t0 Ht0) as (_ & _ & _ & Hsym).
    rewrite HOn. by apply (Hsym depBy d0). }
  assert (Hnew : {[t]} ∪ DepDone d = DepOn d ∩ P).
  { rewrite Hdone. apply set_eq. intros y.
    destruct (decide (y = t)); set_solver. }
  assert (Hdep_ready : depBy ∉ (list_to_set ready : gset string)).
  { pose proof (pi_disj3 _ _ _ _ _ _ _ Hinv). set_solver. }
  assert (Hdep_P : depBy ∉ P).
  { pose proof (pi_disj2 _ _ _ _ _ _ _ Hinv). set_solver. }
  unfold releaseStep. rewrite Hd.
  destruct (decide (size (DepOn d) ≤ size ({[t]} ∪ DepDone d))%nat) as [Hge|Hlt'].
  - (* released *)
    assert (Hall : DepOn d ⊆ P).
    { assert (DepOn d ∩ P = DepOn d) as Heq; [|set_solver].
      apply set_subseteq_size_eq; [set_solver|]. by rewrite <- Hnew. }
    eexists _, _, _. split; [done|]. split.
    + constructor.
      * intros n. destruct (decide (n = depBy)) as [->|Hne].
        -- rewrite lookup_insert_eq, Hd0.
           pose proof (pi_tasks _ _ _ _ _ _ _ Hinv depBy) as H.
           rewrite Hd, Hd0 in H. rewrite H. done.
        -- rewrite lookup_insert_ne by done.
           apply (pi_tasks _ _ _ _ _ _ _ Hinv n).
      * apply NoDup_app. split_and!.
        -- apply (pi_nodup _ _ _ _ _ _ _ Hinv).
        -- intros y Hy ->%list_elem_of_singleton. set_solver.
        -- apply NoDup_singleton.
      * rewrite <- (pi_cover _ _ _ _ _ _ _ Hinv).
        rewrite list_to_set_app_L. simpl. apply set_eq. intros y.
        destruct (decide (y = depBy)); set_solver.
      * rewrite list_to_set_app_L. simpl.
        pose proof (pi_disj1 _ _ _ _ _ _ _ Hinv). set_solver.
      * pose proof (pi_disj2 _ _ _ _ _ _ _ Hinv). set_solver.
      * rewrite list_to_set_app_L. simpl.
        pose proof (pi_disj3 _ _ _ _ _ _ _ Hinv). set_solver.
      * intros n Hn.
        destruct (pi_pend _ _ _ _ _ _ _ Hinv n) as (? & ? & ?); [set_solver|].
        split_and!; [|done|done]. set_solver.
      * intros n x Hn. rewrite list_to_set_app_L in Hn. simpl in Hn.
        destruct (decide (n = depBy)) as [->|Hne].
        -- rewrite lookup_insert_eq. intros [= <-]. simpl. done.
        -- rewrite lookup_insert_ne by done.
           apply (pi_released _ _ _ _ _ _ _ Hinv). set_solver.
      * intros n x Hn. destruct (decide (n = depBy)) as [->|Hne]; [set_solver|].
        rewrite lookup_insert_ne by done. intros Hx.
        destruct (pi_waiting _ _ _ _ _ _ _ Hinv n x) as [H1 H2];
          [set_solver|done|]. split; [|done].
        rewrite H1. destruct (decide (n ∈ pend)).
        -- by rewrite decide_True by set_solver.
        -- by rewrite decide_False by set_solver.
      * intros n Hn. rewrite list_to_set_app_L in Hn. simpl in Hn.
        destruct (decide (n = depBy)) as [->|Hne].
        -- constructor. intros y (x0 & Hx0 & Hy).
           apply (pi_acc _ _ _ _ _ _ _ Hinv). rewrite Hd0 in Hx0.
           injection Hx0 as <-. rewrite <- HOn in Hy. set_solver.
        -- apply (pi_acc _ _ _ _ _ _ _ Hinv). set_solver.
    + rewrite length_app. simpl.
      rewrite size_difference by set_solver. rewrite size_singleton.
      assert (size nr ≠ 0)%nat; [|lia].
      apply size_non_empty_iff. set_solver.
  - (* still waiting *)
    eexists _, _, _. split; [done|]. split; [|done].
    constructor; try apply Hinv.
    + intros n. destruct (decide (n = depBy)) as [->|Hne].
      * rewrite lookup_insert_eq, Hd0.
        pose proof (pi_tasks _ _ _ _ _ _ _ Hinv depBy) as H.
        rewrite Hd, Hd0 in H. rewrite H. done.
      * rewrite lookup_insert_ne by done.
        apply (pi_tasks _ _ _ _ _ _ _ Hinv n).
    + intros n Hn.
      destruct (pi_pend _ _ _ _ _ _ _ Hinv n) as (? & ? & ?); [set_solver|].
      done.
    + intros n x Hn. destruct (decide (n = depBy)) as [->|Hne]; [set_solver|].
      rewrite lookup_insert_ne by done.
      by apply (pi_released _ _ _ _ _ _ _ Hinv).
    + intros n x Hn. destruct (decide (n = depBy)) as [->|Hne].
      * rewrite lookup_insert_eq. intros [= <-]. simpl.
        rewrite decide_False by done. split; [done|]. lia.
      * rewrite lookup_insert_ne by done. intros Hx.
        destruct (pi_waiting _ _ _ _ _ _ _ Hinv n x) as [H1 H2]; [done..|].
        split; [|done]. rewrite H1. destruct (decide (n ∈ pend)).
        -- by rewrite decide_True by set_solver.
        -- by rewrite decide_False by set_solver.
Qed.

(** The whole inner loop. *)
Lemma releaseLoop_inv g0 P t (depBys : list string) ready tasks nr :
  graphWellFormed g0 → NoDup depBys →
  prepInv g0 P t (list_to_set depBys) ready tasks nr →
  ∃ tasks' ready' nr',
    foldl (releaseStep t) (tasks, ready, nr) depBys = (tasks', ready', nr')
    ∧ prepInv g0 P t ∅ ready' tasks' nr'
    ∧ (length ready' + size nr' = length ready + size nr)%nat.
Proof.
  intros Hwf. revert ready tasks nr.
  induction depBys as [|depBy rest IH]; intros ready tasks nr Hnd Hinv.
  - simpl in *. by eexists _, _, _.
  - apply NoDup_cons in Hnd as [Hfresh Hnd]. simpl in Hinv.
    destruct (releaseStep_inv g0 P t (list_to_set rest) ready tasks nr depBy)
      as (tasks1 & ready1 & nr1 & Hstep & Hinv1 & Hm1);
      [done|done|set_solver|].
    destruct (IH ready1 tasks1 nr1 Hnd Hinv1)
      as (tasks2 & ready2 & nr2 & Hfold & Hinv2 & Hm2).
    exists tasks2, ready2, nr2.
    change (foldl (releaseStep t) (tasks, ready, nr) (depBy :: rest))
      with (foldl (releaseStep t) (releaseStep t (tasks, ready, nr) depBy) rest).
    rewrite Hstep. split_and!; [done|done|lia].
Qed.

(** Taking a task from the front of [ready]. *)
Lemma prepInv_pop g0 P t' t rest tasks nr :
  graphWellFormed g0 →
  prepInv g0 P t' ∅ (t :: rest) tasks nr →
  ∃ x, tasks !! t = Some x
       ∧ prepInv g0 (P ∪ {[t]}) t (list_to_set (elements (DepBy x))) rest tasks nr.
Proof.
  intros Hwf Hinv.
  assert (HtD : t ∈ dom tasks).
  { rewrite (prepInv_dom _ _ _ _ _ _ _ Hinv).
    rewrite <- (pi_cover _ _ _ _ _ _ _ Hinv). set_solver. }
  apply elem_of_dom in HtD as [x Hx]. exists x. split; [done|].
  destruct (prepInv_lookup _ _ _ _ _ _ _ _ _ Hinv Hx)
    as (x0 & Hx0 & HOn & HBy & _).
  pose proof (pi_nodup _ _ _ _ _ _ _ Hinv) as [HtRest Hnd]%NoDup_cons.
  pose proof (pi_disj1 _ _ _ _ _ _ _ Hinv) as Hd1.
  pose proof (pi_disj2 _ _ _ _ _ _ _ Hinv) as Hd2.
  pose proof (pi_disj3 _ _ _ _ _ _ _ Hinv) as Hd3.
  simpl in Hd1, Hd3.
  assert (HtP : t ∉ P) by set_solver.
  assert (Htnr : t ∉ nr) by set_solver.
  assert (HtRest' : t ∉ (list_to_set rest : gset string)) by set_solver.
  rewrite list_to_set_elements_L.
  (* whoever depends on [t] is still waiting *)
  assert (HByNr : ∀ m, m ∈ DepBy x → m ∈ nr).
  { intros m Hm. rewrite HBy in Hm.
    destruct (Hwf t x0 Hx0) as (_ & _ & HByD & Hsym).
    assert (HmD : m ∈ dom g0) by set_solver.
    pose proof HmD as [m0 Hm0]%elem_of_dom.
    assert (HtOn : t ∈ DepOn m0) by by apply (Hsym m m0).
    rewrite <- (pi_cover _ _ _ _ _ _ _ Hinv) in HmD. simpl in HmD.
    destruct (decide (m ∈ nr)) as [|Hnot]; [done|]. exfalso.
    assert (Hrel : m ∈ P ∪ list_to_set (t :: rest)) by (simpl; set_solver).
    rewrite <- (prepInv_dom _ _ _ _ _ _ _ Hinv) in *.
    assert (m ∈ dom tasks) as [mx Hmx]%elem_of_dom.
    { rewrite (prepInv_dom _ _ _ _ _ _ _ Hinv). apply elem_of_dom. eauto. }
    destruct (prepInv_lookup _ _ _ _ _ _ _ _ _ Hinv Hmx)
      as (m0' & Hm0' & HmOn & _).
    destruct (pi_released _ _ _ _ _ _ _ Hinv m mx Hrel Hmx) as [Hsub _].
    rewrite Hm0 in Hm0'. injection Hm0' as <-. set_solver. }
  constructor.
  - apply (pi_tasks _ _ _ _ _ _ _ Hinv).
  - done.
  - rewrite <- (pi_cover _ _ _ _ _ _ _ Hinv). simpl. set_solver.
  - set_solver.
  - set_solver.
  - set_solver.
  - intros n Hn. rewrite Hx0, <- HBy. split_and!; [by apply HByNr|set_solver|done].
  - intros n y Hn Hy.
    destruct (pi_released _ _ _ _ _ _ _ Hinv n y) as [H1 H2];
      [simpl; set_solver|done|]. split; [set_solver|done].
  - intros n y Hn Hy.
    destruct (pi_waiting _ _ _ _ _ _ _ Hinv n y Hn Hy) as [H1 H2].
    rewrite decide_False in H1 by set_solver. split; [|done].
    rewrite H1. destruct (decide (n ∈ DepBy x)) as [Hin|Hnin].
    + apply set_eq. intros z. destruct (decide (z = t)); set_solver.
    + (* [n] does not depend on [t] *)
      assert (t ∉ DepOn y); [|set_solver].
      destruct (prepInv_lookup _ _ _ _ _ _ _ _ _ Hinv Hy)
        as (y0 & Hy0 & HyOn & _).
      destruct (Hwf t x0 Hx0) as (_ & _ & _ & Hsym).
      rewrite HyOn. intros Hc. apply Hnin. rewrite HBy.
      by apply (Hsym n y0).
  - intros n Hn. apply (pi_acc _ _ _ _ _ _ _ Hinv). simpl. set_solver.
Qed.

(** The readiness pass ends within as many iterations as there are tasks
    queued or waiting, and the invariant holds of its result. *)
Lemma prepareLoop_inv g0 fuel P t ready tasks nr :
  graphWellFormed g0 →
  prepInv g0 P t ∅ ready tasks nr →
  (length ready + size nr ≤ fuel)%nat →
  ∃ tasks' nr' P' t',
    prepareLoop fuel ready tasks nr = Some (tasks', nr')
    ∧ prepInv g0 P' t' ∅ [] tasks' nr'.
Proof.
  intros Hwf. revert P t ready tasks nr.
  induction fuel as [|fuel IH]; intros P t ready tasks nr Hinv Hfuel.
  - destruct ready as [|t1 rest]; [|simpl in Hfuel; lia].
    simpl. by eexists _, _, _, _.
  - destruct ready as [|t1 rest]; [simpl; by eexists _, _, _, _|].
    destruct (prepInv_pop _ _ _ _ _ _ _ Hwf Hinv) as (x & Hx & Hinv1).
    destruct (releaseLoop_inv g0 (P ∪ {[t1]}) t1 (elements (DepBy x)) rest tasks nr)
      as (tasks2 & ready2 & nr2 & Hfold & Hinv2 & Hm);
      [done|apply NoDup_elements|done|].
    cbn [prepareLoop]. rewrite Hx, Hfold.
    apply (IH _ _ _ _ _ Hinv2). simpl in Hfuel. lia.
Qed.

Lemma initiallyReady_elem g0 n :
  n ∈ initiallyReady g0 ↔ ∃ x, g0 !! n = Some x ∧ size (DepOn x) = 0%nat.
Proof.
  unfold initiallyReady. rewrite list_elem_of_fmap. split.
  - intros ([n' x] & -> & [Hs Hin%elem_of_map_to_list]%list_elem_of_filter).
    eauto.
  - intros (x & Hx & Hs). exists (n, x). split; [done|].
    apply list_elem_of_filter. split; [done|]. by apply elem_of_map_to_list.
Qed.

Lemma initiallyNotReady_elem g0 n :
  n ∈ initiallyNotReady g0 ↔ ∃ x, g0 !! n = Some x ∧ size (DepOn x) ≠ 0%nat.
Proof.
  unfold initiallyNotReady. rewrite elem_of_dom. split.
  - intros [x [Hx Hs]%map_lookup_filter_Some]. eauto.
  - intros (x & Hx & Hs). exists x. by apply map_lookup_filter_Some.
Qed.

(** The state after the first loop of [Prepare]. *)
Lemma prepInv_init g0 t :
  prepInv g0 ∅ t ∅ (initiallyReady g0) (prepareTask <$> g0) (initiallyNotReady g0).
Proof.
  constructor.
  - intros n. rewrite lookup_fmap. by destruct (g0 !! n).
  - unfold initiallyReady. apply (NoDup_fmap_fst _).
    + intros n x1 x2 [_ H1%elem_of_map_to_list]%list_elem_of_filter
                      [_ H2%elem_of_map_to_list]%list_elem_of_filter.
      congruence.
    + apply NoDup_filter, NoDup_map_to_list.
  - apply set_eq. intros n.
    rewrite !elem_of_union, elem_of_list_to_set, initiallyReady_elem,
      initiallyNotReady_elem, elem_of_dom.
    split.
    + intros [[?|(x & ? & _)]|(x & ? & _)]; [set_solver|eauto..].
    + intros [x Hx]. destruct (decide (size (DepOn x) = 0%nat)); eauto.
  - set_solver.
  - set_solver.
  - intros n [x [Hx Hs]]%elem_of_list_to_set%initiallyReady_elem
            [x' [Hx' Hs']]%initiallyNotReady_elem. congruence.
  - set_solver.
  - intros n x [?|[x0 [Hx0 Hs]]%elem_of_list_to_set%initiallyReady_elem]%elem_of_union;
      [set_solver|].
    rewrite lookup_fmap, Hx0. intros [= <-]. simpl.
    apply size_empty_iff in Hs. set_solver.
  - intros n x [x0 [Hx0 Hs]]%initiallyNotReady_elem.
    rewrite lookup_fmap, Hx0. intros [= <-]. cbn [prepareTask DepDone DepOn].
    rewrite decide_False by set_solver. rewrite size_empty. split; [set_solver|lia].
  - intros n [?|[x0 [Hx0 Hs]]%elem_of_list_to_set%initiallyReady_elem]%elem_of_union;
      [set_solver|].
    constructor. intros d (x & Hx & Hd). rewrite Hx0 in Hx. injection Hx as <-.
    apply size_empty_iff in Hs. set_solver.
Qed.

Lemma initial_measure g0 :
  (length (initiallyReady g0) + size (initiallyNotReady g0) = size g0)%nat.
Proof.
  pose proof (prepInv_init g0 EmptyString) as Hinv.
  rewrite <- (size_dom (D := gset string) g0).
  rewrite <- (pi_cover _ _ _ _ _ _ _ Hinv).
  rewrite (left_id_L ∅ (∪)).
  rewrite size_union by apply (pi_disj3 _ _ _ _ _ _ _ Hinv).
  rewrite size_list_to_set by apply (pi_nodup _ _ _ _ _ _ _ Hinv). done.
Qed.

(** ** Cycles *)

Lemma acc_not_on_cycle (g0 : gmap string Task) c :
  Acc (λ d m, dependsOn g0 m d) c → ¬ tc (dependsOn g0) c c.
Proof.
  induction 1 as [c _ IH]. intros Hc.
  assert (∃ d, dependsOn g0 c d ∧ rtc (dependsOn g0) d c) as (d & Hcd & Hdc).
  { inversion Hc as [? ? H1|? d ? H1 H2]; subst.
    - exists c. split; [done|apply rtc_refl].
    - exists d. split; [done|by apply tc_rtc]. }
  apply (IH d Hcd). eapply tc_rtc_l; [done|]. by apply tc_once.
Qed.

Lemma acc_reachable (g0 : gmap string Task) n c :
  rtc (dependsOn g0) n c → Acc (λ d m, dependsOn g0 m d) n →
  Acc (λ d m, dependsOn g0 m d) c.
Proof.
  induction 1 as [|n d c Hnd _ IH]; [done|].
  intros Hacc. apply IH. by apply (Acc_inv Hacc).
Qed.

Lemma acc_not_reachesCycle (g0 : gmap string Task) n :
  Acc (λ d m, dependsOn g0 m d) n → ¬ reachesCycle g0 n.
Proof.
  intros Hacc (c & Hnc & Hcc).
  by apply (acc_not_on_cycle g0 c); [apply (acc_reachable g0 n)|].
Qed.

Lemma NoDup_length_le_size (l : list string) (S : gset string) :
  NoDup l → (∀ y, y ∈ l → y ∈ S) → (length l ≤ size S)%nat.
Proof.
  intros Hnd Hsub. rewrite <- (size_list_to_set (C := gset string) l Hnd).
  apply subseteq_size. set_solver.
Qed.

(** In a finite set of tasks each of which depends on a task of the set,
    following dependencies runs into a cycle. *)
Lemma closed_walk_reaches_cycle (g0 : gmap string Task) (S : gset string) :
  (∀ n, n ∈ S → ∃ d, dependsOn g0 n d ∧ d ∈ S) →
  ∀ m (seen : list string) x,
    NoDup (x :: seen) →
    (∀ y, y ∈ x :: seen → y ∈ S ∧ rtc (dependsOn g0) y x) →
    (size S ≤ length (x :: seen) + m)%nat →
    reachesCycle g0 x.
Proof.
  intros Hclosed. induction m as [|m IH]; intros seen x Hnd Hchain Hsz.
  - destruct (Hclosed x) as (d & Hxd & HdS); [by apply Hchain; left|].
    destruct (decide (d ∈ x :: seen)) as [Hin|Hnin].
    + exists x. split; [apply rtc_refl|].
      eapply tc_rtc_r; [by apply tc_once|]. by apply Hchain.
    + exfalso.
      assert (length (d :: x :: seen) ≤ size S)%nat; [|simpl in *; lia].
      apply NoDup_length_le_size; [by apply NoDup_cons|].
      intros y [->|Hy]%elem_of_cons; [done|]. by apply Hchain.
  - destruct (Hclosed x) as (d & Hxd & HdS); [by apply Hchain; left|].
    destruct (decide (d ∈ x :: seen)) as [Hin|Hnin].
    + exists x. split; [apply rtc_refl|].
      eapply tc_rtc_r; [by apply tc_once|]. by apply Hchain.
    + destruct (IH (x :: seen) d) as (c & Hdc & Hcc).
      * by apply NoDup_cons.
      * intros y [->|Hy]%elem_of_cons; [split; [done|apply rtc_refl]|].
        destruct (Hchain y Hy) as [HyS Hyx]. split; [done|].
        eapply rtc_r; done.
      * simpl in *. lia.
      * exists c. split; [by eapply rtc_l|done].
Qed.

Lemma closed_reaches_cycle (g0 : gmap string Task) (S : gset string) n :
  (∀ n, n ∈ S → ∃ d, dependsOn g0 n d ∧ d ∈ S) → n ∈ S → reachesCycle g0 n.
Proof.
  intros Hclosed Hn.
  apply (closed_walk_reaches_cycle g0 S Hclosed (size S) [] n).
  - apply NoDup_singleton.
  - intros y ->%list_elem_of_singleton. split; [done|apply rtc_refl].
  - simpl. lia.
Qed.

(** When the readiness pass is over, the tasks that were never released are
    those that reach a cycle. *)
Lemma prepInv_final g0 P t tasks nr :
  graphWellFormed g0 →
  prepInv g0 P t ∅ [] tasks nr →
  ∀ n, n ∈ nr ↔ n ∈ dom g0 ∧ reachesCycle g0 n.
Proof.
  intros Hwf Hinv.
  assert (Hclosed : ∀ n, n ∈ nr → ∃ d, dependsOn g0 n d ∧ d ∈ nr).
  { intros n Hn.
    assert (n ∈ dom tasks) as [x Hx]%elem_of_dom.
    { rewrite (prepInv_dom _ _ _ _ _ _ _ Hinv).
      rewrite <- (pi_cover _ _ _ _ _ _ _ Hinv). set_solver. }
    destruct (prepInv_lookup _ _ _ _ _ _ _ _ _ Hinv Hx)
      as (x0 & Hx0 & HOn & _).
    destruct (pi_waiting _ _ _ _ _ _ _ Hinv n x Hn Hx) as [Hdone Hlt].
    rewrite decide_False in Hdone by set_solver.
    assert (¬ DepOn x ⊆ P) as Hnot.
    { intros Hsub. assert (DepDone x = DepOn x) as Heq by set_solver.
      rewrite Heq in Hlt. lia. }
    assert (∃ d, d ∈ DepOn x ∧ d ∉ P) as (d & Hd & HdP).
    { destruct (decide (set_Forall (λ d, d ∈ P) (DepOn x))) as [Hall|Hex].
      - exfalso. apply Hnot. intros d Hd. by apply Hall.
      - apply not_set_Forall_Exists in Hex as (d & Hd & HdP); [eauto|].
        apply _. }
    exists d. split; [exists x0; by rewrite <- HOn|].
    destruct (Hwf n x0 Hx0) as (_ & HOnD & _).
    assert (HdD : d ∈ dom g0) by set_solver.
    rewrite <- (pi_cover _ _ _ _ _ _ _ Hinv) in HdD. set_solver. }
  intros n. split.
  - intros Hn. split.
    + rewrite <- (pi_cover _ _ _ _ _ _ _ Hinv). set_solver.
    + by apply (closed_reaches_cycle g0 nr).
  - intros [HnD Hcyc].
    rewrite <- (pi_cover _ _ _ _ _ _ _ Hinv) in HnD.
    destruct (decide (n ∈ nr)) as [|Hnot]; [done|]. exfalso.
    apply (acc_not_reachesCycle g0 n); [|done].
    apply (pi_acc _ _ _ _ _ _ _ Hinv). set_solver.
Qed.

(** [Prepare] returns on every graph that [BuildTaskGraph] can build; the
    set it returns holds the tasks that reach a cycle; the tasks of the
    graph keep their dependencies, are reset, and those outside the
    returned set have no completed dependency recorded. *)
Lemma Prepare_spec (g : TaskGraph) :
  graphWellFormed (Tasks g) →
  ∃ g' cyclicTasks,
    Prepare g = Some (g', cyclicTasks)
    ∧ (∀ n, n ∈ cyclicTasks ↔ n ∈ dom (Tasks g) ∧ reachesCycle (Tasks g) n)
    ∧ ReadyList g' = initiallyReady (Tasks g)
    ∧ CompleteList g' = []
    ∧ (∀ n, match Tasks g' !! n, Tasks g !! n with
            | Some x, Some x0 => x = setDepDone (prepareTask x0) (DepDone x)
            | None, None => True
            | _, _ => False
            end)
    ∧ (∀ n x, Tasks g' !! n = Some x → n ∉ cyclicTasks → DepDone x = ∅).
Proof.
  intros Hwf. unfold Prepare, PrepareWithin.
  destruct (prepareLoop_inv (Tasks g) (size (Tasks g)) ∅ EmptyString
              (initiallyReady (Tasks g)) (prepareTask <$> Tasks g)
              (initiallyNotReady (Tasks g)) Hwf (prepInv_init _ _))
    as (tasks' & nr' & P' & t' & Hloop & Hinv).
  { by rewrite initial_measure. }
  rewrite Hloop. eexists _, _. split; [done|]. simpl. split_and!; try done.
  - by apply (prepInv_final _ P' t' tasks').
  - apply (pi_tasks _ _ _ _ _ _ _ Hinv).
  - intros n x Hx Hn.
    apply (pi_released _ _ _ _ _ _ _ Hinv n x); [|done].
    assert (n ∈ dom (Tasks g)) as HnD.
    { rewrite <- (prepInv_dom _ _ _ _ _ _ _ Hinv). apply elem_of_dom. eauto. }
    rewrite <- (pi_cover _ _ _ _ _ _ _ Hinv) in HnD. set_solver.
Qed.

(** ** The message of [Plan] *)

Lemma string_append_cons x (a b : string) :
  String x a +:+ b = String x (a +:+ b).
Proof. reflexivity. Qed.

Lemma string_append_assoc (a b c : string) : (a +:+ b) +:+ c = a +:+ (b +:+ c).
Proof.
  induction a as [|x a IH]; [done|]. by rewrite !string_append_cons, IH.
Qed.

Lemma string_append_nil_r (a : string) : a +:+ EmptyString = a.
Proof.
  induction a as [|x a IH]; [done|]. by rewrite string_append_cons, IH.
Qed.

Lemma contains_append_r a b n : contains b n → contains (a +:+ b) n.
Proof.
  intros (before & after & ->). exists (a +:+ before), after.
  by rewrite string_append_assoc.
Qed.

Lemma contains_append_l a b n : contains a n → contains (a +:+ b) n.
Proof.
  intros (before & after & ->). exists before, (after +:+ b).
  by rewrite !string_append_assoc.
Qed.

Lemma contains_refl n : contains n n.
Proof.
  exists EmptyString, EmptyString.
  change (EmptyString +:+ n +:+ EmptyString) with (n +:+ EmptyString).
  by rewrite string_append_nil_r.
Qed.

Lemma joinComma_contains names n : n ∈ names → contains (joinComma names) n.
Proof.
  induction names as [|name rest IH]; [by intros ?%elem_of_nil|].
  intros [->|Hin]%elem_of_cons.
  - destruct rest; simpl; [apply contains_refl|].
    apply contains_append_l, contains_refl.
  - destruct rest as [|r rest]; [by apply elem_of_nil in Hin|].
    change (joinComma (name :: r :: rest))
      with (name +:+ "," +:+ joinComma (r :: rest)).
    apply contains_append_r, contains_append_r. by apply IH.
Qed.

(** C4: on a graph built by [BuildTaskGraph], [Plan] returns; it returns an
    error exactly when the dependency relation has a cycle; the message of
    that error contains "cyclic dependencies" and the name of every task
    that is on a cycle or depends, directly or through other tasks, on a
    task on a cycle; and these tasks, which are the tasks that the
    readiness pass never releases, are exactly the set that [Prepare]
    returns. *)
Theorem Plan_cyclic (g : TaskGraph) :
  graphWellFormed (Tasks g) →
  ∃ g' cyclicTasks,
    Prepare g = Some (g', cyclicTasks)
    ∧ (∀ n, n ∈ cyclicTasks ↔ n ∈ dom (Tasks g) ∧ reachesCycle (Tasks g) n)
    ∧ ((∃ e, Plan (inr g) = Some (inl e)) ↔ cyclic (Tasks g))
    ∧ (¬ cyclic (Tasks g) → Plan (inr g) = Some (inr g'))
    ∧ (∀ e, Plan (inr g) = Some (inl e) →
         contains (error_message e) "cyclic dependencies"
         ∧ ∀ n, n ∈ dom (Tasks g) → reachesCycle (Tasks g) n →
                contains (error_message e) n).
Proof.
  intros Hwf.
  destruct (Prepare_spec g Hwf) as (g' & nr & Hprep & Hnr & _).
  exists g', nr. split; [done|]. split; [done|].
  assert (Hcyc : (0 < size nr)%nat ↔ cyclic (Tasks g)).
  { split.
    - intros Hpos. apply size_pos_elem_of in Hpos as [n Hn].
      apply Hnr in Hn as [_ (c & _ & Hc)]. by exists c.
    - intros [c Hc].
      assert (c ∈ nr) as Hin.
      { apply Hnr. split.
        - inversion Hc as [? ? (x & Hx & _)|? ? ? (x & Hx & _)]; subst;
            apply elem_of_dom; eauto.
        - exists c. split; [apply rtc_refl|done]. }
      assert (size nr ≠ 0)%nat; [|lia].
      apply size_non_empty_iff. set_solver. }
  unfold Plan. rewrite Hprep.
  destruct (decide (0 < size nr)%nat) as [Hpos|Hzero].
  - split_and!.
    + split; [intros _; by apply Hcyc|eauto].
    + intros Hno. exfalso. by apply Hno, Hcyc.
    + intros e [= <-]. simpl. split.
      * apply contains_append_l. exists EmptyString, " in ". reflexivity.
      * intros n HnD Hn. apply contains_append_r, joinComma_contains.
        apply elem_of_elements, Hnr. done.
  - split_and!.
    + split; [by intros [e ?]|]. intros Hc. exfalso. by apply Hzero, Hcyc.
    + done.
    + by intros e.
Qed.

Lemma Plan_cyclic_witness :
  ∃ g' cyclicTasks,
    Prepare cycleGraph = Some (g', cyclicTasks)
    ∧ (∀ n, n ∈ cyclicTasks
            ↔ n ∈ dom (Tasks cycleGraph) ∧ reachesCycle (Tasks cycleGraph) n)
    ∧ ((∃ e, Plan (inr cycleGraph) = Some (inl e)) ↔ cyclic (Tasks cycleGraph))
    ∧ (¬ cyclic (Tasks cycleGraph) → Plan (inr cycleGraph) = Some (inr g'))
    ∧ (∀ e, Plan (inr cycleGraph) = Some (inl e) →
         contains (error_message e) "cyclic dependencies"
         ∧ ∀ n, n ∈ dom (Tasks cycleGraph) → reachesCycle (Tasks cycleGraph) n →
                contains (error_message e) n).
Proof.
  apply (Plan_cyclic cycleGraph).
  unfold graphWellFormed. apply (bool_decide_unpack _). by vm_compute.
Defined.

(** ** The dispatcher *)

Lemma lookup_TaskErr_ext (m m' : gmap string Task) d e :
  TaskErr <$> (m' !! d) = TaskErr <$> (m !! d) →
  (∃ y, m' !! d = Some y ∧ TaskErr y = e) ↔ (∃ y, m !! d = Some y ∧ TaskErr y = e).
Proof.
  intros H. destruct (m' !! d) as [y'|], (m !! d) as [y|]; simpl in H;
    try done.
  injection H as H. split; intros (? & [= <-] & <-); eauto.
Qed.

Lemma completedOK_ext g g' d :
  CompleteList g' = CompleteList g →
  (∀ n, TaskErr <$> (Tasks g' !! n) = TaskErr <$> (Tasks g !! n)) →
  completedOK g' d ↔ completedOK g d.
Proof.
  intros Hcl Herr. unfold completedOK. rewrite Hcl.
  specialize (Herr d).
  split; intros [Hin (y & Hy & Hok)]; (split; [done|]); rewrite Hy in Herr;
    simpl in Herr.
  - destruct (Tasks g !! d) as [y'|]; [|done]. injection Herr as Herr.
    exists y'. by rewrite <- Herr.
  - destruct (Tasks g' !! d) as [y'|]; [|done]. injection Herr as Herr.
    exists y'. by rewrite Herr.
Qed.

(** Changes that keep dependencies, recorded completions and errors of the
    tasks, keep the state of the unreleased tasks, and only permute the
    released tasks without touching the complete list, keep the
    invariant. *)
Lemma dispInv_frame g0 task pend g infl tr g' infl' :
  dispInv g0 task pend g infl tr →
  CompleteList g' = CompleteList g →
  released g' infl' ≡ₚ released g infl →
  (∀ n, match Tasks g' !! n, Tasks g !! n with
        | Some y', Some y =>
            DepOn y' = DepOn y ∧ DepBy y' = DepBy y ∧ TaskName y' = TaskName y
            ∧ DepDone y' = DepDone y ∧ TaskErr y' = TaskErr y
            ∧ (n ∉ released g infl → State y' = State y)
        | None, None => True
        | _, _ => False
        end) →
  dispInv g0 task pend g' infl' tr.
Proof.
  intros Hinv Hcl Hperm Htasks.
  assert (Herr : ∀ n, TaskErr <$> (Tasks g' !! n) = TaskErr <$> (Tasks g !! n)).
  { intros n. specialize (Htasks n).
    destruct (Tasks g' !! n), (Tasks g !! n); simpl; try done.
    destruct Htasks as (_ & _ & _ & _ & -> & _). done. }
  assert (Hrel : ∀ n, n ∈ released g' infl' ↔ n ∈ released g infl).
  { intros n. by rewrite Hperm. }
  constructor.
  - intros n. pose proof (di_static _ _ _ _ _ _ Hinv n) as H.
    specialize (Htasks n).
    destruct (Tasks g' !! n), (Tasks g !! n), (g0 !! n); try done.
    destruct Htasks as (-> & -> & -> & _). done.
  - rewrite Hperm. apply (di_nodup _ _ _ _ _ _ Hinv).
  - intros n Hn%Hrel. by apply (di_indom _ _ _ _ _ _ Hinv).
  - intros n Hn. destruct (di_pend _ _ _ _ _ _ Hinv n Hn) as [Hok Hby].
    split; [|done]. by apply (completedOK_ext g g').
  - intros n y' d Hy'. specialize (Htasks n). rewrite Hy' in Htasks.
    destruct (Tasks g !! n) as [y|] eqn:Hy; [|done].
    destruct Htasks as (-> & _ & _ & -> & _).
    rewrite (completedOK_ext g g') by done.
    by apply (di_done _ _ _ _ _ _ Hinv).
  - intros n y' Hy' Hn%Hrel. specialize (Htasks n). rewrite Hy' in Htasks.
    destruct (Tasks g !! n) as [y|] eqn:Hy; [|done].
    destruct Htasks as (-> & _ & _ & -> & _).
    by apply (di_released _ _ _ _ _ _ Hinv n).
  - intros n y' Hy' Hn. specialize (Htasks n). rewrite Hy' in Htasks.
    destruct (Tasks g !! n) as [y|] eqn:Hy; [|done].
    destruct Htasks as (_ & _ & _ & _ & _ & Hst).
    rewrite Hst by (by rewrite <- Hrel).
    apply (di_waiting _ _ _ _ _ _ Hinv n); [done|by rewrite <- Hrel].
  - intros t Ht. apply Hrel. by apply (di_handed _ _ _ _ _ _ Hinv).
  - intros d e. rewrite (di_completed _ _ _ _ _ _ Hinv d e), Hcl.
    specialize (Htasks d). split; intros [Hin (y & Hy & He)]; (split; [done|]);
      rewrite Hy in Htasks.
    + destruct (Tasks g' !! d) as [y'|]; [|done].
      destruct Htasks as (_ & _ & _ & _ & Herr' & _). exists y'. by rewrite Herr'.
    + destruct (Tasks g !! d) as [y'|]; [|done].
      destruct Htasks as (_ & _ & _ & _ & Herr' & _). exists y'. by rewrite <- Herr'.
  - apply (di_order _ _ _ _ _ _ Hinv).
Qed.

(** Setting the state of a released task. *)
Lemma alter_setState_frame (g : TaskGraph) (infl : list string) t st :
  t ∈ released g infl →
  ∀ n, match alter (λ y, setState y st) t (Tasks g) !! n, Tasks g !! n with
       | Some y', Some y =>
           DepOn y' = DepOn y ∧ DepBy y' = DepBy y ∧ TaskName y' = TaskName y
           ∧ DepDone y' = DepDone y ∧ TaskErr y' = TaskErr y
           ∧ (n ∉ released g infl → State y' = State y)
       | None, None => True
       | _, _ => False
       end.
Proof.
  intros Ht n. destruct (decide (n = t)) as [->|Hne].
  - rewrite lookup_alter_eq. destruct (Tasks g !! t); simpl; [|done].
    by split_and!.
  - rewrite lookup_alter_ne by done. by destruct (Tasks g !! n).
Qed.

Lemma app_snoc_inv {A} (l l1 l2 : list A) a b :
  l ++ [a] = l1 ++ b :: l2 →
  (l2 = [] ∧ l1 = l ∧ a = b) ∨ (∃ l2', l2 = l2' ++ [a] ∧ l = l1 ++ b :: l2').
Proof.
  induction l2 as [|c l2' _] using rev_ind; intros H.
  - left. apply (app_inj_tail l l1 a b) in H as [-> ->]. done.
  - right. exists l2'.
    change (l1 ++ b :: l2' ++ [c]) with (l1 ++ (b :: l2') ++ [c]) in H.
    rewrite (assoc_L (++)) in H. apply app_inj_tail in H as [-> ->]. done.
Qed.

(** Recording an event other than a completion. *)
Lemma dispInv_handed g0 task g infl tr t :
  dispInv g0 task ∅ g infl tr → t ∈ released g infl →
  dispInv g0 task ∅ g infl (tr ++ [EvHanded t]).
Proof.
  intros Hinv Ht. constructor; try apply Hinv.
  - intros t' [Hin|[= ->]%list_elem_of_singleton]%elem_of_app; [|done].
    by apply (di_handed _ _ _ _ _ _ Hinv).
  - intros d e. rewrite <- (di_completed _ _ _ _ _ _ Hinv d e).
    rewrite elem_of_app, list_elem_of_singleton. naive_solver.
  - intros tr1 t' tr2 y0 d Heq Hy0 Hd.
    apply app_snoc_inv in Heq as [(-> & -> & [= <-])|(tr2' & -> & ->)].
    + assert (t ∈ dom (Tasks g)) as [y Hy]%elem_of_dom.
      { apply (di_indom _ _ _ _ _ _ Hinv) in Ht as [y0' Hy0']%elem_of_dom.
        pose proof (di_static _ _ _ _ _ _ Hinv t) as H. rewrite Hy0' in H.
        apply elem_of_dom. destruct (Tasks g !! t); [eauto|done]. }
      pose proof (di_static _ _ _ _ _ _ Hinv t) as Hst.
      rewrite Hy, Hy0 in Hst. destruct Hst as (HOn & _).
      pose proof (di_released _ _ _ _ _ _ Hinv t y Hy Ht) as Hrel.
      assert (d ∈ DepDone y) as Hdone by (rewrite Hrel, HOn; done).
      apply (di_done _ _ _ _ _ _ Hinv t y d Hy) in Hdone
        as (_ & [Hcl (yd & Hyd & Hok)] & _).
      exists (TaskErr yd). split; [|done].
      apply (di_completed _ _ _ _ _ _ Hinv). eauto.
    + by apply (di_order _ _ _ _ _ _ Hinv _ t' tr2' y0 d).
Qed.

Lemma dispInv_requeued g0 task pend g infl tr t :
  dispInv g0 task pend g infl tr →
  dispInv g0 task pend g infl (tr ++ [EvRequeued t]).
Proof.
  intros Hinv. constructor; try apply Hinv.
  - intros t' [Hin|Hin%list_elem_of_singleton]%elem_of_app; [|done].
    by apply (di_handed _ _ _ _ _ _ Hinv).
  - intros d e. rewrite <- (di_completed _ _ _ _ _ _ Hinv d e).
    rewrite elem_of_app, list_elem_of_singleton. naive_solver.
  - intros tr1 t' tr2 y0 d Heq Hy0 Hd.
    apply app_snoc_inv in Heq as [(_ & _ & [=])|(tr2' & -> & ->)].
    by apply (di_order _ _ _ _ _ _ Hinv _ t' tr2' y0 d).
Qed.

Lemma released_move_inflight (rest infl cl : list string) t :
  rest ++ (infl ++ [t]) ++ cl ≡ₚ (t :: rest) ++ infl ++ cl.
Proof.
  rewrite <- (assoc_L (++) infl [t] cl). simpl.
  rewrite (assoc_L (++) rest infl (t :: cl)).
  rewrite <- Permutation_middle. by rewrite <- (assoc_L (++)).
Qed.

(** [enqueue] keeps the invariant: what it hands to a worker is taken from
    the ready list. *)
Lemma enqueue_inv g0 task s ready x x' err :
  dispInv g0 task ∅ (graph x) (inflight x) (trace x) →
  ReadyList (graph x) = ready →
  enqueue s ready x = (x', err) →
  dispInv g0 task ∅ (graph x') (inflight x') (trace x').
Proof.
  revert x. induction ready as [|t rest IH]; intros x Hinv Hready; simpl.
  - destruct (runningCount x <? numWorkers x)%Z; by intros [= <- <-].
  - destruct (runningCount x <? numWorkers x)%Z; [|by intros [= <- <-]].
    assert (Ht : t ∈ released (graph x) (inflight x)).
    { unfold released. rewrite Hready. set_solver. }
    destruct (sel_cancel s (selects x)) as [msg|].
    + intros [= <- <-]. simpl.
      apply (dispInv_frame g0 task ∅ (graph x) (inflight x)); try done.
      by apply alter_setState_frame.
    + apply IH; [|done]. simpl.
      apply dispInv_handed.
      * apply (dispInv_frame g0 task ∅ (graph x) (inflight x)); try done.
        -- unfold released. simpl. rewrite Hready.
           apply released_move_inflight.
        -- by apply alter_setState_frame.
      * unfold released. simpl. set_solver.
Qed.

Lemma dispInv_lookup g0 task pend g infl tr n :
  dispInv g0 task pend g infl tr → n ∈ dom g0 →
  ∃ y y0, Tasks g !! n = Some y ∧ g0 !! n = Some y0
          ∧ DepOn y = DepOn y0 ∧ DepBy y = DepBy y0.
Proof.
  intros Hinv [y0 Hy0]%elem_of_dom.
  pose proof (di_static _ _ _ _ _ _ Hinv n) as H. rewrite Hy0 in H.
  destruct (Tasks g !! n) as [y|]; [|done]. exists y, y0. naive_solver.
Qed.

(** One step of the loop of [Complete] over [task.DepBy]. *)
Lemma completeStep_inv g0 task pend g infl tr depBy :
  graphWellFormed g0 →
  dispInv g0 task ({[depBy]} ∪ pend) g infl tr → depBy ∉ pend →
  dispInv g0 task pend (completeStep task g depBy) infl tr.
Proof.
  intros Hwf Hinv Hfresh.
  destruct (di_pend _ _ _ _ _ _ Hinv depBy) as [Hok (t0 & Ht0 & HdepBy)];
    [set_solver|].
  destruct (Hwf task t0 Ht0) as (_ & _ & HByD & Hsym).
  destruct (dispInv_lookup _ _ _ _ _ _ depBy Hinv) as (dt & dt0 & Hdt & Hdt0 & HOn & HBy);
    [set_solver|].
  assert (HtaskOn : task ∈ DepOn dt).
  { rewrite HOn. by apply (Hsym depBy dt0). }
  assert (Hnotrel : depBy ∉ released g infl).
  { intros Hrel.
    pose proof (di_released _ _ _ _ _ _ Hinv depBy dt Hdt Hrel) as Heq.
    assert (task ∈ DepDone dt) as Hin by (by rewrite Heq).
    apply (di_done _ _ _ _ _ _ Hinv depBy dt task Hdt) in Hin as (_ & _ & Hex).
    apply Hex. split; [done|set_solver]. }
  assert (Hne : task ≠ depBy).
  { intros ->. apply Hnotrel. destruct Hok as [Hcl _].
    unfold released. set_solver. }
  assert (Hnew : ∀ d, d ∈ {[task]} ∪ DepDone dt ↔ d ∈ DepOn dt ∧ completedOK g d).
  { intros d. rewrite elem_of_union, elem_of_singleton.
    rewrite (di_done _ _ _ _ _ _ Hinv depBy dt d Hdt).
    destruct (decide (d = task)) as [->|Hd]; [naive_solver|].
    naive_solver. }
  assert (Hsub : {[task]} ∪ DepDone dt ⊆ DepOn dt).
  { intros d Hd. by apply Hnew in Hd as [? _]. }
  unfold completeStep. rewrite Hdt. cbn [DepOn DepDone setDepDone].
  destruct (decide (size (DepOn dt) ≤ size ({[task]} ∪ DepDone dt))%nat) as [Hge|Hlt].
  - (* released *)
    assert (Heq : {[task]} ∪ DepDone dt = DepOn dt).
    { by apply set_subseteq_size_eq. }
    set (g' := mkGraph _ _ _).
    assert (Hlk1 : ∃ y', Tasks g' !! depBy = Some y' ∧ DepOn y' = DepOn dt
              ∧ DepBy y' = DepBy dt ∧ TaskName y' = TaskName dt
              ∧ DepDone y' = {[task]} ∪ DepDone dt ∧ TaskErr y' = TaskErr dt
              ∧ State y' = TaskReady).
    { eexists. unfold g'. simpl. rewrite lookup_insert_eq. split; [done|].
      simpl. split_and!; auto. }
    destruct Hlk1 as (dt' & Hlk1 & HOn' & HBy' & HName' & HDone' & HErr' & HState').
    assert (Hlk2 : ∀ n, n ≠ depBy → Tasks g' !! n = Tasks g !! n).
    { intros n Hn. unfold g'. simpl. by rewrite lookup_insert_ne. }
    assert (Hcl : CompleteList g' = CompleteList g) by done.
    assert (Herr : ∀ n, TaskErr <$> (Tasks g' !! n) = TaskErr <$> (Tasks g !! n)).
    { intros n. destruct (decide (n = depBy)) as [->|Hn].
      - rewrite Hlk1, Hdt. simpl. by rewrite HErr'.
      - by rewrite Hlk2. }
    assert (Hok' : ∀ d, completedOK g' d ↔ completedOK g d).
    { intros d. by apply completedOK_ext. }
    assert (Hrel : ∀ n, n ∈ released g' infl ↔ n = depBy ∨ n ∈ released g infl).
    { intros n. unfold released, g'. simpl. set_solver. }
    constructor.
    + intros n. destruct (decide (n = depBy)) as [->|Hn].
      * rewrite Hlk1, Hdt0.
        pose proof (di_static _ _ _ _ _ _ Hinv depBy) as H.
        rewrite Hdt, Hdt0 in H. rewrite HOn', HBy', HName'. done.
      * rewrite Hlk2 by done. apply (di_static _ _ _ _ _ _ Hinv n).
    + unfold released, g'. simpl.
      rewrite <- (assoc_L (++)). simpl.
      rewrite <- Permutation_middle. apply NoDup_cons. split; [done|].
      apply (di_nodup _ _ _ _ _ _ Hinv).
    + intros n [->|Hn]%Hrel; [set_solver|].
      by apply (di_indom _ _ _ _ _ _ Hinv).
    + intros n Hn. destruct (di_pend _ _ _ _ _ _ Hinv n) as [H1 H2];
        [set_solver|]. split; [by apply Hok'|done].
    + intros n y d. destruct (decide (n = depBy)) as [->|Hn].
      * rewrite Hlk1. intros [= <-].
        rewrite Hok', HDone', HOn', Hnew. naive_solver.
      * rewrite Hlk2 by done. intros Hy.
        rewrite Hok', (di_done _ _ _ _ _ _ Hinv n y d Hy). set_solver.
    + intros n y. destruct (decide (n = depBy)) as [->|Hn].
      * rewrite Hlk1. intros [= <-] _. by rewrite HDone', HOn'.
      * rewrite Hlk2 by done. intros Hy [?|Hr]%Hrel; [done|].
        by apply (di_released _ _ _ _ _ _ Hinv n).
    + intros n y. destruct (decide (n = depBy)) as [->|Hn].
      * intros _ Hnr. exfalso. apply Hnr, Hrel. by left.
      * rewrite Hlk2 by done. intros Hy Hnr.
        apply (di_waiting _ _ _ _ _ _ Hinv n y Hy). intros Hr. apply Hnr, Hrel.
        by right.
    + intros t Ht. apply Hrel. right. by apply (di_handed _ _ _ _ _ _ Hinv).
    + intros d e. rewrite (di_completed _ _ _ _ _ _ Hinv d e), Hcl.
      by rewrite (lookup_TaskErr_ext (Tasks g) (Tasks g') d e (Herr d)).
    + apply (di_order _ _ _ _ _ _ Hinv).
  - (* still waiting *)
    set (g' := mkGraph _ _ _).
    assert (Hlk1 : ∃ y', Tasks g' !! depBy = Some y' ∧ DepOn y' = DepOn dt
              ∧ DepBy y' = DepBy dt ∧ TaskName y' = TaskName dt
              ∧ DepDone y' = {[task]} ∪ DepDone dt ∧ TaskErr y' = TaskErr dt
              ∧ State y' = State dt).
    { eexists. unfold g'. simpl. rewrite lookup_insert_eq. split; [done|].
      simpl. split_and!; auto. }
    destruct Hlk1 as (dt' & Hlk1 & HOn' & HBy' & HName' & HDone' & HErr' & HState').
    assert (Hlk2 : ∀ n, n ≠ depBy → Tasks g' !! n = Tasks g !! n).
    { intros n Hn. unfold g'. simpl. by rewrite lookup_insert_ne. }
    assert (Hcl : CompleteList g' = CompleteList g) by done.
    assert (Herr : ∀ n, TaskErr <$> (Tasks g' !! n) = TaskErr <$> (Tasks g !! n)).
    { intros n. destruct (decide (n = depBy)) as [->|Hn].
      - rewrite Hlk1, Hdt. simpl. by rewrite HErr'.
      - by rewrite Hlk2. }
    assert (Hok' : ∀ d, completedOK g' d ↔ completedOK g d).
    { intros d. by apply completedOK_ext. }
    constructor.
    + intros n. destruct (decide (n = depBy)) as [->|Hn].
      * rewrite Hlk1, Hdt0.
        pose proof (di_static _ _ _ _ _ _ Hinv depBy) as H.
        rewrite Hdt, Hdt0 in H. rewrite HOn', HBy', HName'. done.
      * rewrite Hlk2 by done. apply (di_static _ _ _ _ _ _ Hinv n).
    + apply (di_nodup _ _ _ _ _ _ Hinv).
    + apply (di_indom _ _ _ _ _ _ Hinv).
    + intros n Hn. destruct (di_pend _ _ _ _ _ _ Hinv n) as [H1 H2];
        [set_solver|]. split; [by apply Hok'|done].
    + intros n y d. destruct (decide (n = depBy)) as [->|Hn].
      * rewrite Hlk1. intros [= <-].
        rewrite Hok', HDone', HOn', Hnew. naive_solver.
      * rewrite Hlk2 by done. intros Hy.
        rewrite Hok', (di_done _ _ _ _ _ _ Hinv n y d Hy). set_solver.
    + intros n y. destruct (decide (n = depBy)) as [->|Hn].
      * intros _ Hr. done.
      * rewrite Hlk2 by done.
        apply (di_released _ _ _ _ _ _ Hinv n).
    + intros n y. destruct (decide (n = depBy)) as [->|Hn].
      * rewrite Hlk1. intros [= <-] Hnr.
        rewrite HState'. by apply (di_waiting _ _ _ _ _ _ Hinv depBy dt).
      * rewrite Hlk2 by done.
        apply (di_waiting _ _ _ _ _ _ Hinv n y).
    + apply (di_handed _ _ _ _ _ _ Hinv).
    + intros d e. rewrite (di_completed _ _ _ _ _ _ Hinv d e), Hcl.
      by rewrite (lookup_TaskErr_ext (Tasks g) (Tasks g') d e (Herr d)).
    + apply (di_order _ _ _ _ _ _ Hinv).
Qed.

Lemma completeLoop_inv g0 task (depBys : list string) g infl tr :
  graphWellFormed g0 → NoDup depBys →
  dispInv g0 task (list_to_set depBys) g infl tr →
  dispInv g0 task ∅ (foldl (completeStep task) g depBys) infl tr.
Proof.
  intros Hwf. revert g. induction depBys as [|depBy rest IH]; intros g Hnd Hinv.
  - done.
  - apply NoDup_cons in Hnd as [Hfresh Hnd].
    change (foldl (completeStep task) g (depBy :: rest))
      with (foldl (completeStep task) (completeStep task g depBy) rest).
    apply IH; [done|]. apply completeStep_inv; [done|done|set_solver].
Qed.

Lemma filter_ne_absent (l : list string) a :
  a ∉ l → filter (λ t, t ≠ a) l = l.
Proof.
  induction l as [|b l IH]; [done|]. intros Hnot.
  rewrite filter_cons_True by set_solver. f_equal. apply IH. set_solver.
Qed.

Lemma filter_ne_Permutation (l : list string) a :
  NoDup l → a ∈ l → l ≡ₚ a :: filter (λ t, t ≠ a) l.
Proof.
  induction l as [|b l IH]; [by intros _ ?%elem_of_nil|].
  intros [Hb Hnd]%NoDup_cons [->|Hin]%elem_of_cons.
  - rewrite filter_cons_False by naive_solver. by rewrite filter_ne_absent.
  - assert (b ≠ a) by (by intros ->).
    rewrite filter_cons_True by done.
    rewrite (IH Hnd Hin) at 1. apply Permutation_swap.
Qed.

Lemma filter_ne_elem (l : list string) a n :
  n ∈ filter (λ t, t ≠ a) l ↔ n ≠ a ∧ n ∈ l.
Proof. by rewrite list_elem_of_filter. Qed.

(** Receiving the result of a task in flight and completing it. *)
Lemma complete_graph_inv g0 task0 s g infl tr task :
  graphWellFormed g0 →
  dispInv g0 task0 ∅ g infl tr → task ∈ infl →
  dispInv g0 task ∅ (Complete (workerFinish s g task) task)
    (filter (λ t, t ≠ task) infl)
    (tr ++ [EvCompleted task (sel_outcome s task)]).
Proof.
  intros Hwf Hinv Hin.
  set (e := sel_outcome s task).
  set (infl' := filter (λ t, t ≠ task) infl).
  assert (Htrel : task ∈ released g infl) by (unfold released; set_solver).
  destruct (dispInv_lookup _ _ _ _ _ _ task Hinv) as (t & t0 & Ht & Ht0 & HOn & HBy);
    [by apply (di_indom _ _ _ _ _ _ Hinv)|].
  destruct (Hwf task t0 Ht0) as (_ & _ & HByD & Hsym).
  pose proof (di_nodup _ _ _ _ _ _ Hinv) as Hnd. unfold released in Hnd.
  assert (HtCL : task ∉ CompleteList g).
  { apply NoDup_app in Hnd as (_ & _ & Hnd).
    apply NoDup_app in Hnd as (_ & Hd & _). by apply Hd. }
  assert (Hperm : infl ≡ₚ task :: infl').
  { apply filter_ne_Permutation; [|done].
    apply NoDup_app in Hnd as (_ & _ & Hnd).
    by apply NoDup_app in Hnd as (? & _ & _). }
  unfold Complete, workerFinish. cbn [Tasks ReadyList CompleteList].
  rewrite lookup_alter_eq, Ht. cbn [fmap option_fmap option_map].
  cbn [TaskErr setState setTaskErr DepBy].
  set (g2 := mkGraph _ _ _).
  set (pend := if err_failed e then ∅ else DepBy t).
  assert (Hlk1 : ∃ t2, Tasks g2 !! task = Some t2 ∧ DepOn t2 = DepOn t
            ∧ DepBy t2 = DepBy t ∧ TaskName t2 = TaskName t
            ∧ DepDone t2 = DepDone t ∧ TaskErr t2 = e).
  { eexists. unfold g2. cbn [Tasks]. rewrite lookup_insert_eq. split; [done|].
    by split_and!. }
  destruct Hlk1 as (t2 & Hlk1 & HOn2 & HBy2 & HName2 & HDone2 & HErr2).
  assert (Hlk2 : ∀ n, n ≠ task → Tasks g2 !! n = Tasks g !! n).
  { intros n Hn. unfold g2. cbn [Tasks].
    by rewrite lookup_insert_ne, lookup_alter_ne. }
  assert (Hcl : CompleteList g2 = CompleteList g ++ [task]) by done.
  assert (Hrl : ReadyList g2 = ReadyList g) by done.
  assert (Hrelp : released g2 infl' ≡ₚ released g infl).
  { unfold released. rewrite Hcl, Hrl, Hperm. simpl.
    rewrite (assoc_L (++) infl'). rewrite <- Permutation_middle.
    by rewrite (right_id_L [] (++)), Permutation_middle. }
  assert (Hrel : ∀ n, n ∈ released g2 infl' ↔ n ∈ released g infl).
  { intros n. by rewrite Hrelp. }
  assert (Hok : ∀ d, completedOK g2 d
                     ↔ (d = task ∧ err_failed e = false)
                       ∨ (d ≠ task ∧ completedOK g d)).
  { intros d. unfold completedOK. rewrite Hcl, elem_of_app, list_elem_of_singleton.
    destruct (decide (d = task)) as [->|Hd].
    - rewrite Hlk1. split.
      + intros [_ (y & [= <-] & Hy)]. left. by rewrite <- HErr2.
      + intros [[_ Hy]|[? _]]; [|done]. split; [by right|].
        exists t2. by rewrite HErr2.
    - rewrite Hlk2 by done. naive_solver. }
  assert (Hinv2 : dispInv g0 task pend g2 infl'
                    (tr ++ [EvCompleted task e])).
  { constructor.
    - intros n. destruct (decide (n = task)) as [->|Hn].
      + rewrite Hlk1, Ht0, HOn2, HBy2, HName2.
        pose proof (di_static _ _ _ _ _ _ Hinv task) as H.
        by rewrite Ht, Ht0 in H.
      + rewrite Hlk2 by done. apply (di_static _ _ _ _ _ _ Hinv n).
    - rewrite Hrelp. apply (di_nodup _ _ _ _ _ _ Hinv).
    - intros n Hn%Hrel. by apply (di_indom _ _ _ _ _ _ Hinv).
    - intros n Hn. unfold pend in Hn.
      destruct (err_failed e) eqn:Hfail; [set_solver|].
      split; [apply Hok; by left|]. exists t0. by rewrite <- HBy.
    - intros n y d Hy.
      assert (d ∈ DepDone y ↔ d ∈ DepOn y ∧ completedOK g d) as ->.
      { destruct (decide (n = task)) as [->|Hn].
        - rewrite Hlk1 in Hy. injection Hy as <-. rewrite HDone2, HOn2.
          rewrite (di_done _ _ _ _ _ _ Hinv task t d Ht). set_solver.
        - rewrite Hlk2 in Hy by done.
          rewrite (di_done _ _ _ _ _ _ Hinv n y d Hy). set_solver. }
      rewrite Hok.
      assert (¬ completedOK g task) as Hnot by (by intros [? _]).
      destruct (decide (d = task)) as [->|Hd]; [|naive_solver].
      split; [naive_solver|].
      intros (HdOn & [[_ Hfail]|[? _]] & Hex); [|done]. exfalso. apply Hex.
      split; [done|]. unfold pend. rewrite Hfail.
      (* [n] depends on [task], hence [task] is depended on by [n] *)
      assert (n ∈ dom g0) as [n0 Hn0]%elem_of_dom.
      { pose proof (di_static _ _ _ _ _ _ Hinv n) as H.
        destruct (decide (n = task)) as [->|Hn]; [apply elem_of_dom; eauto|].
        rewrite Hlk2 in Hy by done. rewrite Hy in H.
        apply elem_of_dom. destruct (g0 !! n); [eauto|done]. }
      rewrite HBy. apply (Hsym n n0 Hn0).
      destruct (decide (n = task)) as [->|Hn].
      + rewrite Hlk1 in Hy. injection Hy as <-. rewrite HOn2 in HdOn.
        rewrite Ht0 in Hn0. injection Hn0 as <-. by rewrite <- HOn.
      + rewrite Hlk2 in Hy by done.
        pose proof (di_static _ _ _ _ _ _ Hinv n) as H. rewrite Hy, Hn0 in H.
        destruct H as (<- & _). done.
    - intros n y Hy Hn%Hrel. destruct (decide (n = task)) as [->|Hne].
      + rewrite Hlk1 in Hy. injection Hy as <-. rewrite HDone2, HOn2.
        by apply (di_released _ _ _ _ _ _ Hinv task).
      + rewrite Hlk2 in Hy by done. by apply (di_released _ _ _ _ _ _ Hinv n).
    - intros n y Hy Hn. destruct (decide (n = task)) as [->|Hne].
      + exfalso. by apply Hn, Hrel.
      + rewrite Hlk2 in Hy by done.
        apply (di_waiting _ _ _ _ _ _ Hinv n y Hy). by rewrite <- Hrel.
    - intros t' [Ht'|Ht'%list_elem_of_singleton]%elem_of_app; [|done].
      apply Hrel. by apply (di_handed _ _ _ _ _ _ Hinv).
    - intros d e'. rewrite elem_of_app, list_elem_of_singleton.
      rewrite (di_completed _ _ _ _ _ _ Hinv d e'), Hcl, elem_of_app,
        list_elem_of_singleton.
      destruct (decide (d = task)) as [->|Hd].
      + rewrite Hlk1. split.
        * intros [[? _]|[= ->]]; [done|]. split; [by right|]. eauto.
        * intros [_ (y & [= <-] & <-)]. right. by rewrite HErr2.
      + rewrite Hlk2 by done. naive_solver.
    - intros tr1 t' tr2 y0 d Heq Hy0 Hd.
      apply app_snoc_inv in Heq as [(_ & _ & [=])|(tr2' & -> & ->)].
      by apply (di_order _ _ _ _ _ _ Hinv _ t' tr2' y0 d). }
  fold e. unfold pend in Hinv2. destruct (err_failed e) eqn:Hfail; [done|].
  apply completeLoop_inv; [done|apply NoDup_elements|].
  by rewrite list_to_set_elements_L.
Qed.

Lemma complete_inv g0 s x task :
  graphWellFormed g0 → dispOK g0 x → task ∈ inflight x →
  dispOK g0 (complete s x task).
Proof.
  intros Hwf [task0 Hinv] Hin. exists task. unfold complete. simpl.
  by apply (complete_graph_inv g0 task0).
Qed.

Lemma tick_inv g0 x : dispOK g0 x → dispOK g0 (tick x).
Proof. by intros [task Hinv]; exists task. Qed.

Lemma waitResults_inv g0 s x x' err :
  graphWellFormed g0 → dispOK g0 x →
  waitResults s x = (x', err) → dispOK g0 x'.
Proof.
  intros Hwf Hok. unfold waitResults.
  destruct (sel_cancel s (selects x)); [intros [= <- <-]; by apply tick_inv|].
  destruct (sel_arrival s (selects x)) as [i|];
    [|intros [= <- <-]; by apply tick_inv].
  destruct (inflight x !! i) as [task|] eqn:Hi;
    [|intros [= <- <-]; by apply tick_inv].
  intros [= <- <-]. apply complete_inv; [done|by apply tick_inv|].
  simpl. by eapply list_elem_of_lookup_2.
Qed.

Lemma enqueue_ok g0 s x x' err :
  dispOK g0 x → enqueue s (ReadyList (graph x)) x = (x', err) → dispOK g0 x'.
Proof.
  intros [task Hinv] Henq. exists task. by eapply enqueue_inv.
Qed.

Lemma requeue_inv g0 x task :
  dispOK g0 x → task ∈ inflight x → dispOK g0 (requeue x task).
Proof.
  intros [task0 Hinv] Hin. exists task0. unfold requeue. simpl.
  apply dispInv_requeued.
  pose proof (di_nodup _ _ _ _ _ _ Hinv) as Hnd. unfold released in Hnd.
  assert (Hperm : inflight x ≡ₚ task :: filter (λ t, t ≠ task) (inflight x)).
  { apply filter_ne_Permutation; [|done].
    apply NoDup_app in Hnd as (_ & _ & Hnd).
    by apply NoDup_app in Hnd as (? & _ & _). }
  apply (dispInv_frame g0 task0 ∅ (graph x) (inflight x)); try done.
  - unfold released. simpl. rewrite Hperm at 2. simpl.
    by rewrite Permutation_middle.
  - apply alter_setState_frame. unfold released. set_solver.
Qed.

(** Handling, one after the other, tasks that are in flight. *)
Lemma foldl_inflight_inv g0 (f : execution → string → execution) :
  (∀ x t, dispOK g0 x → t ∈ inflight x → dispOK g0 (f x t)) →
  (∀ x t, inflight (f x t) = filter (λ t', t' ≠ t) (inflight x)) →
  ∀ l x, NoDup l → (∀ t, t ∈ l → t ∈ inflight x) → dispOK g0 x →
         dispOK g0 (foldl f x l).
Proof.
  intros Hf Hfi. induction l as [|t l IH]; intros x Hnd Hsub Hok; [done|].
  apply NoDup_cons in Hnd as [Ht Hnd].
  change (foldl f x (t :: l)) with (foldl f (f x t) l).
  apply IH; [done| |].
  - intros t' Ht'. rewrite Hfi. apply filter_ne_elem. split.
    + by intros ->.
    + apply Hsub. by right.
  - apply Hf; [done|]. apply Hsub. by left.
Qed.

Lemma foldl_inflight_sub (f : execution → string → execution) :
  (∀ x t, inflight (f x t) = filter (λ t', t' ≠ t) (inflight x)) →
  ∀ l x t, t ∈ inflight x → t ∉ l → t ∈ inflight (foldl f x l).
Proof.
  intros Hfi. induction l as [|a l IH]; intros x t Hin Hnot; [done|].
  change (foldl f x (a :: l)) with (foldl f (f x a) l).
  apply IH; [|set_solver]. rewrite Hfi. apply filter_ne_elem. set_solver.
Qed.

Lemma shutdown_inv g0 s x :
  graphWellFormed g0 → dispOK g0 x → dispOK g0 (shutdown s x).
Proof.
  intros Hwf Hok. unfold shutdown.
  assert (Hnd : NoDup (inflight x)).
  { destruct Hok as [task Hinv].
    pose proof (di_nodup _ _ _ _ _ _ Hinv) as Hnd. unfold released in Hnd.
    apply NoDup_app in Hnd as (_ & _ & Hnd).
    by apply NoDup_app in Hnd as (? & _ & _). }
  apply (foldl_inflight_inv g0 (complete s)).
  - intros. by apply complete_inv.
  - done.
  - by apply NoDup_filter.
  - intros t [Hp Hin]%list_elem_of_filter.
    apply (foldl_inflight_sub requeue); [done|done|].
    intros [Hu _]%list_elem_of_filter. congruence.
  - apply (foldl_inflight_inv g0 requeue).
    + intros. by apply requeue_inv.
    + done.
    + by apply NoDup_filter.
    + by intros t [_ Hin]%list_elem_of_filter.
    + done.
Qed.

Lemma runLoop_inv g0 fuel s x :
  graphWellFormed g0 → dispOK g0 x → dispOK g0 (runLoop fuel s x).1.
Proof.
  intros Hwf. revert x. induction fuel as [|fuel IH]; intros x Hok; simpl.
  - by destruct (haveWorkToDo x).
  - destruct (haveWorkToDo x); [|done].
    destruct (enqueue s (ReadyList (graph x)) x) as [x1 [e|]] eqn:Henq;
      pose proof (enqueue_ok _ _ _ _ _ Hok Henq) as Hok1; [done|].
    destruct (runningCount x1 =? 0)%Z; [done|].
    destruct (waitResults s x1) as [x2 [e|]] eqn:Hwait;
      pose proof (waitResults_inv _ _ _ _ _ Hwf Hok1 Hwait) as Hok2; [done|].
    by apply IH.
Qed.

Lemma run_inv g0 fuel s x :
  graphWellFormed g0 → dispOK g0 x → dispOK g0 (run fuel s x).1.
Proof.
  intros Hwf Hok. unfold run.
  pose proof (runLoop_inv g0 fuel s x Hwf Hok) as Hok1.
  destruct (runLoop fuel s x) as [x1 [err|]]; simpl in *; [|done].
  by apply shutdown_inv.
Qed.

(** The graph that a successful [Plan] returns satisfies the invariant. *)
Lemma Plan_dispOK (g g' : TaskGraph) nw :
  graphWellFormed (Tasks g) → Plan (inr g) = Some (inr g') →
  dispOK (Tasks g) (mkExec g' 0 nw [] 0 []).
Proof.
  intros Hwf Hplan.
  destruct (Prepare_spec g Hwf) as (g1 & nr & Hprep & Hnr & Hrl & Hcl & Htasks & Hdone).
  unfold Plan in Hplan. rewrite Hprep in Hplan.
  destruct (decide (0 < size nr)%nat) as [|Hzero]; [done|].
  injection Hplan as <-.
  assert (Hempty : nr = ∅).
  { apply leibniz_equiv, size_empty_iff. lia. }
  subst nr.
  assert (Hlk : ∀ n y, Tasks g1 !! n = Some y →
            ∃ y0, Tasks g !! n = Some y0 ∧ y = prepareTask y0).
  { intros n y Hy. specialize (Htasks n). rewrite Hy in Htasks.
    destruct (Tasks g !! n) as [y0|]; [|done]. exists y0. split; [done|].
    rewrite Htasks. rewrite (Hdone n y Hy) by set_solver. done. }
  exists EmptyString. constructor; simpl.
  - intros n. specialize (Htasks n).
    destruct (Tasks g1 !! n) as [y|], (Tasks g !! n) as [y0|]; try done.
    by rewrite Htasks.
  - unfold released. rewrite Hrl, Hcl. simpl. rewrite (right_id_L [] (++)).
    apply (pi_nodup _ _ _ _ _ _ _ (prepInv_init (Tasks g) EmptyString)).
  - unfold released. rewrite Hrl, Hcl. simpl. rewrite (right_id_L [] (++)).
    intros n (y0 & Hy0 & _)%initiallyReady_elem. apply elem_of_dom. eauto.
  - set_solver.
  - intros n y d Hy. destruct (Hlk n y Hy) as (y0 & Hy0 & ->). simpl.
    unfold completedOK. rewrite Hcl. set_solver.
  - unfold released. rewrite Hrl, Hcl. simpl. rewrite (right_id_L [] (++)).
    intros n y Hy (y0' & Hy0' & Hs)%initiallyReady_elem.
    destruct (Hlk n y Hy) as (y0 & Hy0 & ->). simpl.
    rewrite Hy0 in Hy0'. injection Hy0' as <-.
    apply size_empty_iff in Hs. set_solver.
  - unfold released. rewrite Hrl, Hcl. simpl. rewrite (right_id_L [] (++)).
    intros n y Hy Hn. destruct (Hlk n y Hy) as (y0 & Hy0 & ->). simpl.
    destruct (decide (size (DepOn y0) = 0%nat)) as [Hs|]; [|done].
    exfalso. apply Hn, initiallyReady_elem. eauto.
  - by intros t ?%elem_of_nil.
  - intros d e. rewrite Hcl. split; [by intros ?%elem_of_nil|].
    by intros [?%elem_of_nil _].
  - intros tr1 t tr2 y0 d Heq. by destruct tr1.
Qed.

(** ** What a run of the dispatcher guarantees *)

Lemma Run_dispOK g g' fuel s numCPU nw logError :
  graphWellFormed (Tasks g) → Plan (inr g) = Some (inr g') →
  dispOK (Tasks g) (Run fuel s numCPU nw logError g').1.
Proof.
  intros Hwf Hplan. unfold Run. destruct logError as [msg|]; simpl.
  - by apply Plan_dispOK.
  - apply run_inv; [done|]. by apply Plan_dispOK.
Qed.

(** C6: in every run of the dispatcher on a planned graph, under every
    schedule and at every bound on the iterations of the main loop, a task
    is handed to a worker only after each of its dependencies was completed
    without failure; and a task one of whose dependencies was completed
    with a failure is never handed to a worker, is not on the ready list
    and is still in the state [TaskNotReady]. *)
Theorem Run_respects_dependencies g g' fuel s numCPU nw logError :
  graphWellFormed (Tasks g) → Plan (inr g) = Some (inr g') →
  (∀ tr1 t tr2 y d,
     trace (Run fuel s numCPU nw logError g').1 = tr1 ++ EvHanded t :: tr2 →
     Tasks g !! t = Some y → d ∈ DepOn y →
     ∃ e, EvCompleted d e ∈ tr1 ∧ err_failed e = false)
  ∧ (∀ d e t y,
       EvCompleted d e ∈ trace (Run fuel s numCPU nw logError g').1 →
       err_failed e = true →
       Tasks g !! t = Some y → d ∈ DepOn y →
       EvHanded t ∉ trace (Run fuel s numCPU nw logError g').1
       ∧ t ∉ ReadyList (graph (Run fuel s numCPU nw logError g').1)
       ∧ ∃ y', Tasks (graph (Run fuel s numCPU nw logError g').1) !! t = Some y'
               ∧ State y' = TaskNotReady).
Proof.
  intros Hwf Hplan.
  destruct (Run_dispOK g g' fuel s numCPU nw logError Hwf Hplan)
    as [task Hinv].
  set (x := (Run fuel s numCPU nw logError g').1) in *.
  split.
  - intros tr1 t tr2 y d Htr Hy Hd.
    by apply (di_order _ _ _ _ _ _ Hinv tr1 t tr2 y d).
  - intros d e t y Hev Hfail Hy Hd.
    apply (di_completed _ _ _ _ _ _ Hinv) in Hev as (Hcl & yd & Hyd & He).
    pose proof (di_static _ _ _ _ _ _ Hinv t) as Hst. rewrite Hy in Hst.
    destruct (Tasks (graph x) !! t) as [y'|] eqn:Hy'; [|done].
    destruct Hst as (Hon & _ & _).
    assert (Hnot : t ∉ released (graph x) (inflight x)).
    { intros Hrel.
      pose proof (di_released _ _ _ _ _ _ Hinv t y' Hy' Hrel) as Hdd.
      assert (Hin : d ∈ DepDone y') by (rewrite Hdd, Hon; done).
      apply (di_done _ _ _ _ _ _ Hinv t y' d Hy') in Hin
        as (_ & (_ & yd' & Hyd' & Hok) & _).
      rewrite Hyd in Hyd'. injection Hyd' as <-. congruence. }
    split_and!.
    + intros Hh. by apply Hnot, (di_handed _ _ _ _ _ _ Hinv).
    + intros Hr. apply Hnot. unfold released. set_solver.
    + exists y'. split; [done|].
      by apply (di_waiting _ _ _ _ _ _ Hinv t y').
Qed.

Lemma Run_respects_dependencies_witness :
  ∃ g', Plan (inr chainGraph) = Some (inr g')
        ∧ EvHanded "p:b"
            ∉ trace (Run 10 (fifoSchedule ["p:a"]) 4 0 None g').1.
Proof.
  eexists. split; [by vm_compute|].
  refine (proj1 (proj2 (Run_respects_dependencies chainGraph _ 10
                          (fifoSchedule ["p:a"]) 4 0 None _ _)
                   "p:a" (Some (ErrOther "exit status 1")) "p:b"
                   (newTask "p:b" ["p:a"] []) _ _ _ _)).
  - unfold graphWellFormed. apply (bool_decide_unpack _). by vm_compute.
  - by vm_compute.
  - vm_compute. apply list_elem_of_further, list_elem_of_here.
  - done.
  - by vm_compute.
  - by vm_compute.
Defined.

(** The errors with which the parts of [run] leave. *)
Lemma enqueue_error s ready x x' e :
  enqueue s ready x = (x', Some e) → ∃ msg, e = ErrContext msg.
Proof.
  revert x. induction ready as [|task rest IH]; intros x; simpl.
  - by destruct (runningCount x <? numWorkers x)%Z.
  - destruct (runningCount x <? numWorkers x)%Z; [|done].
    destruct (sel_cancel s (selects x)) as [msg|]; [|by apply IH].
    intros [= <- <-]. by exists msg.
Qed.

Lemma waitResults_error s x x' e :
  waitResults s x = (x', Some e) → ∃ msg, e = ErrContext msg.
Proof.
  unfold waitResults.
  destruct (sel_cancel s (selects x)) as [msg|].
  - intros [= <- <-]. by exists msg.
  - destruct (sel_arrival s (selects x)) as [i|]; [|done].
    by destruct (inflight x !! i).
Qed.

Lemma runLoop_error fuel s x x' e :
  runLoop fuel s x = (x', LoopLeft (Some e)) → ∃ msg, e = ErrContext msg.
Proof.
  revert x. induction fuel as [|fuel IH]; intros x; simpl.
  - by destruct (haveWorkToDo x).
  - destruct (haveWorkToDo x); [|done].
    destruct (enqueue s (ReadyList (graph x)) x) as [x1 [e1|]] eqn:Henq.
    { intros [= <- <-]. by eapply enqueue_error. }
    destruct (runningCount x1 =? 0)%Z; [done|].
    destruct (waitResults s x1) as [x2 [e2|]] eqn:Hwait.
    { intros [= <- <-]. by eapply waitResults_error. }
    apply IH.
Qed.

Lemma run_error fuel s x x' e :
  run fuel s x = (x', LoopLeft (Some e)) →
  e = ErrIncomplete ∨ ∃ msg, e = ErrContext msg.
Proof.
  unfold run. destruct (runLoop fuel s x) as [x1 [[e1|]|]] eqn:Hloop; [| |done].
  - intros [= <- <-]. right. by eapply runLoop_error.
  - destruct (haveWorkToDo (shutdown s x1)); [|done].
    intros [= <- <-]. by left.
Qed.

(** C3: [Dispatcher.Run] returns [ErrSomeTaskFailed] in no run: the errors
    it returns are [ErrIncomplete], the error of the context and the error
    of creating the log file.  When the only task of the graph fails, every
    task is completed and the run returns no error; when a task with a
    dependent fails, the dependent is never released and the run returns
    [ErrIncomplete]. *)
Theorem Run_never_ErrSomeTaskFailed :
  (∀ fuel s numCPU nw logError g x e,
     Run fuel s numCPU nw logError g = (x, LoopLeft (Some e)) →
     e ≠ ErrSomeTaskFailed
     ∧ (e = ErrIncomplete ∨ (∃ msg, e = ErrContext msg)
        ∨ (∃ msg, e = ErrOther msg)))
  ∧ (∃ g x, Plan (inr singleGraph) = Some (inr g)
            ∧ Run 10 (fifoSchedule ["p:a"]) 4 0 None g = (x, LoopLeft None)
            ∧ trace x = [EvHanded "p:a";
                         EvCompleted "p:a" (Some (ErrOther "exit status 1"))]
            ∧ ReadyList (graph x) = [])
  ∧ (∃ g x, Plan (inr chainGraph) = Some (inr g)
            ∧ Run 10 (fifoSchedule ["p:a"]) 4 0 None g
              = (x, LoopLeft (Some ErrIncomplete))
            ∧ trace x = [EvHanded "p:a";
                         EvCompleted "p:a" (Some (ErrOther "exit status 1"))]
            ∧ ReadyList (graph x) = []).
Proof.
  split_and!.
  - intros fuel s numCPU nw logError g x e. unfold Run.
    destruct logError as [msg|].
    + intros [= <- <-]. split; [done|]. right. right. by eexists.
    + intros [->|[msg ->]]%run_error; (split; [done|]);
        [by left|right; left; by exists msg].
  - eexists _, _. split_and!; [by vm_compute|by vm_compute|by vm_compute|
                               by vm_compute].
  - eexists _, _. split_and!; [by vm_compute|by vm_compute|by vm_compute|
                               by vm_compute].
Qed.
